(** * TDequeConcurrent: a mutex/condition-variable protected std::deque

    Model of [src/concurrent_deque/TDequeConcurrent.h].

    The class is a template over the element type [T]; it owns a
    [std::deque<T>] ([_collection]), a [std::mutex] ([_mutex]) and a
    [std::condition_variable] ([_condNewData]).  Every member function is a
    short sequence of statements around the mutex, so each one is modelled
    as a small control-flow machine: a program point ([pc]) per statement
    boundary and one transition per statement.  Threads are interleaved by
    a scheduler whose decisions are explicit, which makes every run of the
    model a function of the schedule. *)

From stdpp Require Import gmap list.
From Stdlib Require Import ZArith Lia.

Module TDequeConcurrent.

(** ** Element types *)

(** Thread identifiers. *)
Abbreviation tid := nat (only parsing).

(** Address of a slot of the deque's storage.  Only identity matters. *)
Abbreviation loc := nat (only parsing).

Inductive ptr : Type :=
| nullptr
| slot_ptr (l : loc).

(** What the header needs of [T]:
    - [construct]: building a [T] from the forwarded arguments
      ([_collection.emplace_back(std::forward<Args>(args)...)] and the
      like); [None] stands for a constructor or conversion that throws;
    - [from_ptr]: the implicit conversion from [T*] to [T] which the
      statement [return &_collection.front();] of a function returning [T]
      requires; [front] and [back] only compile for such a [T]. *)
Class Element (T Args : Type) : Type := {
  construct : Args -> option T;
  from_ptr : ptr -> T
}.

Section Deque.

Context {T Args : Type} `{Element T Args}.

(** ** Shared state *)

(** One slot of [_collection]: the stored element and where it lives. *)
Record cell : Type := Cell { cell_addr : loc; cell_val : T }.

Record shared : Type := Shared {
  collection : list cell;     (* _collection, front first *)
  next_addr : loc;            (* next unused slot address *)
  mutex : option tid;         (* _mutex: the owner, if locked *)
  waiters : gset tid          (* threads blocked in _condNewData.wait *)
}.

Definition contents (s : shared) : list T := map cell_val (collection s).

(** ** std::deque operations used by the header *)

Definition deque_push_front (v : T) (s : shared) : shared :=
  Shared (Cell (next_addr s) v :: collection s) (S (next_addr s))
         (mutex s) (waiters s).

Definition deque_push_back (v : T) (s : shared) : shared :=
  Shared (collection s ++ [Cell (next_addr s) v]) (S (next_addr s))
         (mutex s) (waiters s).

Definition deque_pop_front (s : shared) : shared :=
  Shared (tail (collection s)) (next_addr s) (mutex s) (waiters s).

Definition deque_pop_back (s : shared) : shared :=
  Shared (removelast (collection s)) (next_addr s) (mutex s) (waiters s).

Definition deque_clear (s : shared) : shared :=
  Shared [] (next_addr s) (mutex s) (waiters s).

(** [_collection.size()] is a [size_t]; [size()] returns it as [uint], an
    implicit narrowing conversion.  The header does not declare [uint]: it
    is the [unsigned int] of the C library's <sys/types.h>, 32 bits wide,
    where [size_t] has 64 bits on LP64 platforms. *)
Definition uint_bits : Z := 32.
Definition to_uint (n : Z) : Z := n mod 2 ^ uint_bits.
Definition deque_size (s : shared) : Z := Z.of_nat (length (collection s)).

(** ** std::mutex and std::condition_variable *)

(** Constructing a [unique_lock] / [lock_guard]: possible only while the
    mutex is free; otherwise the thread cannot take this step. *)
Definition acquire (t : tid) (s : shared) : option shared :=
  match mutex s with
  | None => Some (Shared (collection s) (next_addr s) (Some t) (waiters s))
  | Some _ => None
  end.

(** [lock.unlock()] or the lock object's destructor. *)
Definition release (s : shared) : shared :=
  Shared (collection s) (next_addr s) None (waiters s).

(** Entering [_condNewData.wait(lock)]: the mutex is released and the
    thread joins the waiters, atomically. *)
Definition cv_wait (t : tid) (s : shared) : shared :=
  Shared (collection s) (next_addr s) None ({[t]} ∪ waiters s).

(** Leaving [_condNewData.wait(lock)]: the thread has been unblocked (it is
    no longer among the waiters) and re-acquires the mutex. *)
Definition cv_resume (t : tid) (s : shared) : option shared :=
  if decide (t ∈ waiters s) then None else acquire t s.

(** [_condNewData.notify_one()]: [pick] is the waiter the implementation
    chooses.  With no waiter the call has no effect; with waiters exactly
    one of them is unblocked. *)
Definition cv_notify_one (pick : option tid) (s : shared) : option shared :=
  match pick with
  | None => if decide (waiters s = ∅) then Some s else None
  | Some w =>
      if decide (w ∈ waiters s)
      then Some (Shared (collection s) (next_addr s) (mutex s)
                        (waiters s ∖ {[w]}))
      else None
  end.

(** ** Member functions *)

Inductive method : Type :=
| emplace_front (a : Args)
| emplace_back (a : Args)
| clear
| push_front (a : Args)
| front
| pop_front
| push_back (a : Args)
| back
| pop_back
| empty
| size.

(** What a call hands back to its caller. *)
Inductive result : Type :=
| RVoid                 (* a void function returned *)
| RValue (v : T)        (* front / back *)
| RBool (b : bool)      (* empty *)
| RUInt (n : Z)         (* size *)
| RThrow.               (* an exception left the call *)

(** Program points of a call in progress. *)
Inductive pc : Type :=
| Entry                 (* called; the lock object is not yet constructed *)
| Locked                (* mutex held, at the statement after the lock's
                           construction: the loop head of the waiting
                           functions *)
| Waiting               (* inside _condNewData.wait(lock) *)
| Resumed               (* empty(): wait has returned, mutex held again *)
| Inserted              (* addData_protected: fct() has returned *)
| Throwing              (* addData_protected: fct() threw, unwinding *)
| Unlocked              (* addData_protected: after lock.unlock() *)
| Leaving (r : result). (* return value computed, lock object still alive *)

(** What a statement did, for the record of a run. *)
Inductive event : Type :=
| EvLock
| EvUnlock
| EvWait
| EvResume
| EvNotify (woken : option tid)
| EvInsert (v : T)
| EvRemove (v : T)
| EvClear
| EvThrow
| EvEval (r : result).

(** A statement either moves the call to another program point or ends
    it. *)
Inductive outcome : Type :=
| Next (p : pc)
| Return (r : result).

Definition transition : Type := option (shared * outcome * event).

(** [addData_protected(fct)]:
<<
    std::unique_lock<std::mutex> lock{ _mutex };
    fct();
    lock.unlock();
    _condNewData.notify_one();
>>
    [fct] is the lambda of the caller: it constructs the element and
    inserts it.  When the construction throws, std::deque leaves the
    container as it was, the exception unwinds through
    [addData_protected], the destructor of [lock] releases the mutex and
    [notify_one] is not reached. *)
Definition addData_protected (fct : shared -> option (shared * T))
    (t : tid) (p : pc) (pick : option tid) (s : shared) : transition :=
  match p, pick with
  | Entry, None =>
      s' ← acquire t s; Some (s', Next Locked, EvLock)
  | Locked, None =>
      match fct s with
      | Some (s', v) => Some (s', Next Inserted, EvInsert v)
      | None => Some (s, Next Throwing, EvThrow)
      end
  | Inserted, None => Some (release s, Next Unlocked, EvUnlock)
  | Unlocked, _ =>
      s' ← cv_notify_one pick s; Some (s', Return RVoid, EvNotify pick)
  | Throwing, None => Some (release s, Return RThrow, EvUnlock)
  | _, _ => None
  end.

(** The lambdas handed to [addData_protected]. *)
Definition insert_front (a : Args) (s : shared) : option (shared * T) :=
  v ← construct a; Some (deque_push_front v s, v).

Definition insert_back (a : Args) (s : shared) : option (shared * T) :=
  v ← construct a; Some (deque_push_back v s, v).

(** [clear()]:
<<
    std::lock_guard<std::mutex> lock(_mutex);
    _collection.clear();
>> *)
Definition clear_body (t : tid) (p : pc) (pick : option tid) (s : shared)
    : transition :=
  match p, pick with
  | Entry, None => s' ← acquire t s; Some (s', Next Locked, EvLock)
  | Locked, None => Some (deque_clear s, Next (Leaving RVoid), EvClear)
  | Leaving r, None => Some (release s, Return r, EvUnlock)
  | _, _ => None
  end.

(** The shape shared by [front], [pop_front], [back], [pop_back] and
    [size]:
<<
    std::unique_lock<std::mutex> lock{_mutex};
    while (_collection.empty()) {
        _condNewData.wait(lock);
    }
    <action>
>>
    [action] is what follows the loop.  The last test of the loop and the
    action are one transition: both run with the mutex owned, so no other
    thread can come in between.  The std::deque accessors the action uses
    ([front], [back], [pop_front], [pop_back]) have undefined behaviour on
    an empty container, rendered here as [None]: the model has no
    transition there. *)
Definition await_nonempty (action : shared -> option (shared * result * event))
    (t : tid) (p : pc) (pick : option tid) (s : shared) : transition :=
  match p, pick with
  | Entry, None => s' ← acquire t s; Some (s', Next Locked, EvLock)
  | Locked, None =>
      match collection s with
      | [] => Some (cv_wait t s, Next Waiting, EvWait)
      | _ :: _ =>
          '(s', r, ev) ← action s; Some (s', Next (Leaving r), ev)
      end
  | Waiting, None => s' ← cv_resume t s; Some (s', Next Locked, EvResume)
  | Leaving r, None => Some (release s, Return r, EvUnlock)
  | _, _ => None
  end.

(** [_collection.front()] and [_collection.back()], as the cell referred
    to. *)
Definition deque_front (s : shared) : option cell := head (collection s).
Definition deque_back (s : shared) : option cell := last (collection s).

(** [return &_collection.front();] in a function returning [T]: the
    address of the front slot, converted to [T]. *)
Definition front_action (s : shared) : option (shared * result * event) :=
  c ← deque_front s;
  let r := RValue (from_ptr (slot_ptr (cell_addr c))) in Some (s, r, EvEval r).

(** [return &_collection.back();] *)
Definition back_action (s : shared) : option (shared * result * event) :=
  c ← deque_back s;
  let r := RValue (from_ptr (slot_ptr (cell_addr c))) in Some (s, r, EvEval r).

(** [_collection.pop_front();] *)
Definition pop_front_action (s : shared) : option (shared * result * event) :=
  c ← deque_front s; Some (deque_pop_front s, RVoid, EvRemove (cell_val c)).

(** [_collection.pop_back();] *)
Definition pop_back_action (s : shared) : option (shared * result * event) :=
  c ← deque_back s; Some (deque_pop_back s, RVoid, EvRemove (cell_val c)).

(** [auto elem = std::move(_collection.size()); return elem;] with return
    type [uint]. *)
Definition size_action (s : shared) : option (shared * result * event) :=
  let r := RUInt (to_uint (deque_size s)) in Some (s, r, EvEval r).

(** [empty()]:
<<
    std::unique_lock<std::mutex> lock{_mutex};
    _condNewData.wait(lock);
    auto elem = std::move(_collection.empty());
    return elem;
>>
    The wait is not guarded by a test and is not in a loop. *)
Definition empty_body (t : tid) (p : pc) (pick : option tid) (s : shared)
    : transition :=
  match p, pick with
  | Entry, None => s' ← acquire t s; Some (s', Next Locked, EvLock)
  | Locked, None => Some (cv_wait t s, Next Waiting, EvWait)
  | Waiting, None => s' ← cv_resume t s; Some (s', Next Resumed, EvResume)
  | Resumed, None =>
      let r := RBool (bool_decide (collection s = [])) in
      Some (s, Next (Leaving r), EvEval r)
  | Leaving r, None => Some (release s, Return r, EvUnlock)
  | _, _ => None
  end.

Definition body (m : method) : tid -> pc -> option tid -> shared -> transition :=
  match m with
  | emplace_front a => addData_protected (insert_front a)
  | emplace_back a => addData_protected (insert_back a)
  | clear => clear_body
  | push_front a => addData_protected (insert_front a)
  | front => await_nonempty front_action
  | pop_front => await_nonempty pop_front_action
  | push_back a => addData_protected (insert_back a)
  | back => await_nonempty back_action
  | pop_back => await_nonempty pop_back_action
  | empty => empty_body
  | size => await_nonempty size_action
  end.

(** ** Threads and schedules *)

(** A thread performs its [calls] one after the other; [at_pc] is the
    program point inside the first of them, [returned] collects what the
    completed calls handed back, oldest first. *)
Record thread : Type := Thread {
  calls : list method;
  at_pc : pc;
  returned : list result
}.

Record config : Type := Config {
  state : shared;
  threads : gmap tid thread
}.

(** What the scheduler can decide:
    - [Run t]: thread [t] executes its next statement;
    - [Wake t w]: thread [t] executes [notify_one] and waiter [w] is the
      one unblocked;
    - [Spurious w]: waiting thread [w] is unblocked although nobody
      notified it (condition variables allow this). *)
Inductive decision : Type :=
| Run (t : tid)
| Wake (t w : tid)
| Spurious (w : tid).

Inductive label : Type :=
| By (t : tid) (e : event)
| SpuriousWake (w : tid).

Definition advance (th : thread) (o : outcome) : thread :=
  match o with
  | Next p => Thread (calls th) p (returned th)
  | Return r => Thread (tail (calls th)) Entry (returned th ++ [r])
  end.

Definition run (t : tid) (pick : option tid) (c : config)
    : option (config * label) :=
  th ← threads c !! t;
  m ← head (calls th);
  '(s', o, ev) ← body m t (at_pc th) pick (state c);
  Some (Config s' (<[t := advance th o]> (threads c)), By t ev).

Definition step (d : decision) (c : config) : option (config * label) :=
  match d with
  | Run t => run t None c
  | Wake t w => run t (Some w) c
  | Spurious w =>
      let s := state c in
      if decide (w ∈ waiters s)
      then Some (Config (Shared (collection s) (next_addr s) (mutex s)
                                (waiters s ∖ {[w]}))
                        (threads c),
                 SpuriousWake w)
      else None
  end.

(** One step of a run, with the shared state before and after it. *)
Definition moment : Type := shared * label * shared.

(** Running a whole schedule; [None] when some decision is not enabled. *)
Fixpoint exec (sched : list decision) (c : config)
    : option (config * list moment) :=
  match sched with
  | [] => Some (c, [])
  | d :: sched' =>
      '(c1, l) ← step d c;
      '(c2, ms) ← exec sched' c1;
      Some (c2, (state c, l, state c1) :: ms)
  end.

(** The statements thread [t] executed, in order, each with the shared
    state it found and the one it left. *)
Fixpoint history_of (t : tid) (ms : list moment)
    : list (shared * event * shared) :=
  match ms with
  | [] => []
  | (s, By u e, s') :: ms' =>
      if decide (u = t) then (s, e, s') :: history_of t ms'
      else history_of t ms'
  | (_, SpuriousWake _, _) :: ms' => history_of t ms'
  end.

Definition events_of (t : tid) (ms : list moment) : list event :=
  map (fun x => x.1.2) (history_of t ms).

Definition labels (ms : list moment) : list label :=
  map (fun x => x.1.2) ms.

(** A fresh instance and a pool of threads that have not started. *)
Definition fresh : shared := Shared [] 0 None ∅.

Definition spawn (progs : list (list method)) : gmap tid thread :=
  list_to_map (imap (fun i p => (i, Thread p Entry [])) progs).

Definition start (progs : list (list method)) : config :=
  Config fresh (spawn progs).

(** ** Vocabulary of the statements below *)

(** Program points at which the call owns the mutex. *)
Definition holding (p : pc) : bool :=
  match p with
  | Locked | Resumed | Inserted | Throwing | Leaving _ => true
  | Entry | Waiting | Unlocked => false
  end.

(** The mutex is owned by exactly the thread whose call is at a program
    point between a lock and the matching unlock. *)
Definition wf (c : config) : Prop :=
  ∀ t th, threads c !! t = Some th →
          holding (at_pc th) = true ↔ mutex (state c) = Some t.

(** The four insertion functions, their argument and their end. *)
Definition insertion_arg (m : method) : option Args :=
  match m with
  | emplace_front a | emplace_back a | push_front a | push_back a => Some a
  | _ => None
  end.

Definition at_front (m : method) : bool :=
  match m with
  | emplace_front _ | push_front _ | front | pop_front => true
  | _ => false
  end.

Definition deque_insert (m : method) (v : T) (s : shared) : shared :=
  if at_front m then deque_push_front v s else deque_push_back v s.

(** The shared state once thread [t] has locked the mutex. *)
Definition locked_by (t : tid) (s : shared) : shared :=
  Shared (collection s) (next_addr s) (Some t) (waiters s).

(** The decision that lets [t] execute [notify_one] with the given
    choice of waiter. *)
Definition notify_decision (t : tid) (pick : option tid) : decision :=
  match pick with
  | None => Run t
  | Some w => Wake t w
  end.

(** A collection with cell [x] at the end the function works on. *)
Definition at_end (m : method) (x : cell) (l : list cell) : list cell :=
  if at_front m then x :: l else l ++ [x].

(** What thread [t] has been handed back so far. *)
Definition returned_by (t : tid) (c : config) : list result :=
  match threads c !! t with
  | Some th => returned th
  | None => []
  end.

(** What one sees of a run: what thread [t] was handed back, the
    elements left in the collection, and the statements executed. *)
Definition observe (t : tid) (run : option (config * list moment))
    : option (list result * list T * list label) :=
  match run with
  | Some (c, ms) => Some (returned_by t c, contents (state c), labels ms)
  | None => None
  end.

(** Where thread [t] stands at the end of a run. *)
Definition thread_after (t : tid) (run : option (config * list moment))
    : option thread :=
  match run with
  | Some (c, _) => threads c !! t
  | None => None
  end.

(** The elements removed in a run, in order. *)
Fixpoint removals (ls : list label) : list T :=
  match ls with
  | [] => []
  | By _ (EvRemove v) :: ls' => v :: removals ls'
  | _ :: ls' => removals ls'
  end.

(** What a draining thread [t] was handed back and what was removed. *)
Definition observe_drain (t : tid) (run : option (config * list moment))
    : option (list result * list T * list T) :=
  match run with
  | Some (c, ms) =>
      Some (returned_by t c, removals (labels ms), contents (state c))
  | None => None
  end.

(** The lambda an insertion function hands to [addData_protected]. *)
Definition insertion_fct (m : method) (a : Args)
    : shared → option (shared * T) :=
  if at_front m then insert_front a else insert_back a.

(** What follows the loop in each of the waiting functions. *)
Definition action_of (m : method)
    : option (shared → option (shared * result * event)) :=
  match m with
  | front => Some front_action
  | pop_front => Some pop_front_action
  | back => Some back_action
  | pop_back => Some pop_back_action
  | size => Some size_action
  | _ => None
  end.

(** *** Producers and a drain *)

(** How many of its insertions a thread has performed: one per completed
    call, and the one of the call in progress once [fct()] has returned. *)
Definition inserted (th : thread) : nat :=
  length (returned th) +
  match at_pc th with Inserted | Unlocked => 1 | _ => 0 end.

(** A thread working through the program [prog] of successful
    insertions. *)
Definition producer_ok (prog : list method) (th : thread) : Prop :=
  calls th = drop (length (returned th)) prog ∧
  match at_pc th with
  | Entry => True
  | Locked | Inserted | Unlocked => length (returned th) < length prog
  | _ => False
  end.

(** Each insertion of [prog] constructs the corresponding element of
    [vals]. *)
Definition constructs (prog : list method) (vals : list T) : Prop :=
  Forall2 (λ m v, ∃ a, insertion_arg m = Some a ∧ construct a = Some v)
          prog vals.

(** Draining three elements from the front: peek, then remove. *)
Definition drain_calls : list method :=
  [front; pop_front; front; pop_front; front; pop_front].

(** Thread 0 appends two elements, thread 1 prepends one, thread 2 will
    drain. *)
Definition producers (a0 a1 a2 : Args) : config :=
  start [[push_back a1; push_back a2]; [push_front a0]; drain_calls].

(** What holds while the two producers run and the drain has not
    started: the collection holds what thread 1 has prepended followed by
    what thread 0 has appended, nobody waits, and the mutex is owned by
    the producer that is between its lock and its unlock, if any. *)
Definition producers_inv (a0 a1 a2 : Args) (v0 v1 v2 : T) (c : config)
    : Prop :=
  ∃ thA thB,
    threads c !! 0 = Some thA ∧ threads c !! 1 = Some thB ∧
    threads c !! 2 = Some (Thread drain_calls Entry []) ∧
    (∀ t, 2 < t → threads c !! t = None) ∧
    producer_ok [push_back a1; push_back a2] thA ∧
    producer_ok [push_front a0] thB ∧
    waiters (state c) = ∅ ∧
    mutex (state c) =
      (if holding (at_pc thA) then Some 0
       else if holding (at_pc thB) then Some 1 else None) ∧
    (holding (at_pc thA) = true → holding (at_pc thB) = false) ∧
    contents (state c) =
      take (inserted thB) [v0] ++ take (inserted thA) [v1; v2].

(** *** Accounting of a run *)

(** Statements that read or change [_collection]. *)
Definition accesses (e : event) : bool :=
  match e with
  | EvInsert _ | EvRemove _ | EvClear | EvEval _ => true
  | _ => false
  end.

(** The elements inserted in a run, in order. *)
Fixpoint insertions (ls : list label) : list T :=
  match ls with
  | [] => []
  | By _ (EvInsert v) :: ls' => v :: insertions ls'
  | _ :: ls' => insertions ls'
  end.

(** The elements discarded by the calls of [clear] in a run: what the
    collection held when [_collection.clear()] was executed. *)
Fixpoint cleared (ms : list moment) : list T :=
  match ms with
  | [] => []
  | (s, By _ EvClear, _) :: ms' => contents s ++ cleared ms'
  | _ :: ms' => cleared ms'
  end.

(** Use of the deque as a queue: insertion at the back, removal at the
    front, and the queries that change nothing. *)
Definition queue_call (m : method) : bool :=
  match m with
  | emplace_back _ | push_back _ | pop_front | front | size | empty => true
  | _ => false
  end.

Definition queue_use (c : config) : Prop :=
  ∀ t th, threads c !! t = Some th →
          Forall (λ m, queue_call m = true) (calls th).

(** The functions that only look at the collection. *)
Definition query_call (m : method) : bool :=
  match m with
  | front | back | size | empty => true
  | _ => false
  end.

(** Every thread among the waiters is inside a wait. *)
Definition parked (c : config) : Prop :=
  ∀ w, w ∈ waiters (state c) →
       ∃ th, threads c !! w = Some th ∧ at_pc th = Waiting.

(** How often thread [t] was unblocked in a run, by a notification that
    picked it or spuriously, and how often a wait of [t] returned. *)
Fixpoint wakes (t : tid) (ls : list label) : nat :=
  match ls with
  | [] => 0
  | SpuriousWake w :: ls' =>
      (if decide (w = t) then 1 else 0) + wakes t ls'
  | By _ (EvNotify (Some w)) :: ls' =>
      (if decide (w = t) then 1 else 0) + wakes t ls'
  | _ :: ls' => wakes t ls'
  end.

Fixpoint resumes (t : tid) (ls : list label) : nat :=
  match ls with
  | [] => 0
  | By u EvResume :: ls' =>
      (if decide (u = t) then 1 else 0) + resumes t ls'
  | _ :: ls' => resumes t ls'
  end.

(** 1 when thread [t] has been unblocked and its wait has not returned
    yet, 0 otherwise. *)
Definition pending (t : tid) (c : config) : nat :=
  match threads c !! t with
  | Some th =>
      match at_pc th with
      | Waiting => if decide (t ∈ waiters (state c)) then 0 else 1
      | _ => 0
      end
  | None => 0
  end.

(** The removal function working at the end where [m] inserts. *)
Definition pop_at (m : method) : method :=
  if at_front m then pop_front else pop_back.

(** The program points function [m] passes through. *)
Definition valid_pc (m : method) (p : pc) : bool :=
  match p with
  | Entry | Locked => true
  | Inserted | Throwing | Unlocked =>
      match insertion_arg m with Some _ => true | None => false end
  | Waiting =>
      match m with
      | empty => true
      | _ => match action_of m with Some _ => true | None => false end
      end
  | Resumed => match m with empty => true | _ => false end
  | Leaving _ =>
      match insertion_arg m with Some _ => false | None => true end
  end.

(** Every call in progress is at a program point of its function, and the
    owner of the mutex is one of the threads. *)
Definition coherent (c : config) : Prop :=
  (∀ t th, threads c !! t = Some th → at_pc th ≠ Entry →
           ∃ m, head (calls th) = Some m ∧ valid_pc m (at_pc th) = true) ∧
  (∀ t, mutex (state c) = Some t → is_Some (threads c !! t)).

(** 1 at the program points of [addData_protected] between the insertion
    and [notify_one], 0 elsewhere. *)
Definition owes (p : pc) : nat :=
  match p with Inserted | Unlocked => 1 | _ => 0 end.

(** How many elements a thread inserted and how often it executed
    [notify_one], from the statements it executed. *)
Fixpoint inserts (es : list event) : nat :=
  match es with
  | [] => 0
  | EvInsert _ :: es' => S (inserts es')
  | _ :: es' => inserts es'
  end.

Fixpoint notifies (es : list event) : nat :=
  match es with
  | [] => 0
  | EvNotify _ :: es' => S (notifies es')
  | _ :: es' => notifies es'
  end.

(** The control flow of one call as the calling thread lives it: the
    statements it executes from program point [p] until the call ends
    with [r], each on the shared state it finds. *)
Inductive flow (t : tid) (m : method)
    : pc → list (shared * event * shared) → result → Prop :=
| flow_return p pick s s' r ev :
    body m t p pick s = Some (s', Return r, ev) →
    flow t m p [(s, ev, s')] r
| flow_next p pick s s' p' ev h r :
    body m t p pick s = Some (s', Next p', ev) →
    flow t m p' h r →
    flow t m p ((s, ev, s') :: h) r.

(** Rounds of the waiting loop: the collection is found empty, the thread
    waits, and resumes once unblocked with the mutex free. *)
Inductive wait_rounds (t : tid) : list (shared * event * shared) → Prop :=
| rounds_done : wait_rounds t []
| rounds_more sa sb sb' h :
    collection sa = [] →
    cv_resume t sb = Some sb' →
    wait_rounds t h →
    wait_rounds t ((sa, EvWait, cv_wait t sa) :: (sb, EvResume, sb') :: h).

(** One pass through a waiting function from program point [p]: lock,
    rounds of waiting while the collection is empty, the action on a
    non-empty collection, unlock. *)
Definition await_shape (action : shared → option (shared * result * event))
    (t : tid) (p : pc) (h : list (shared * event * shared)) (r : result)
    : Prop :=
  let from_loop h :=
    ∃ hw s1 ev s1' s2,
      h = hw ++ [(s1, ev, s1'); (s2, EvUnlock, release s2)] ∧
      wait_rounds t hw ∧ collection s1 ≠ [] ∧
      action s1 = Some (s1', r, ev) in
  match p with
  | Entry =>
      ∃ s0 s0' h', h = (s0, EvLock, s0') :: h' ∧
                   acquire t s0 = Some s0' ∧ from_loop h'
  | Locked => from_loop h
  | Waiting =>
      ∃ sb sb' h', h = (sb, EvResume, sb') :: h' ∧
                   cv_resume t sb = Some sb' ∧ from_loop h'
  | Leaving r' => r' = r ∧ ∃ s2, h = [(s2, EvUnlock, release s2)]
  | _ => False
  end.

(** Between two consecutive statements of thread [t], nothing another
    thread does changes whether [t] owns the mutex, nor the collection
    while [t] owns it. *)
Fixpoint uninterrupted (t : tid) (h : list (shared * event * shared)) : Prop :=
  match h with
  | (_, _, s') :: (((s2, _, _) :: _) as h') =>
      (mutex s' = Some t ↔ mutex s2 = Some t) ∧
      (mutex s' = Some t → collection s2 = collection s') ∧
      uninterrupted t h'
  | _ => True
  end.

(** The thread a decision makes run, if any. *)
Definition actor (d : decision) : option tid :=
  match d with
  | Run t | Wake t _ => Some t
  | Spurious _ => None
  end.

(** Where a call stands after a statement; a call that ended leaves the
    thread at the entry of its next call. *)
Definition target (o : outcome) : pc :=
  match o with
  | Next p => p
  | Return _ => Entry
  end.

(** How far a thread has got: completed calls count double, a call in
    progress counts one. *)
Definition rank (th : thread) : nat :=
  2 * length (returned th) +
  match at_pc th with Entry => 0 | _ => 1 end.

End Deque.

Arguments cell T : clear implicits.
Arguments shared T : clear implicits.
Arguments result T : clear implicits.
Arguments pc T : clear implicits.
Arguments event T : clear implicits.
Arguments outcome T : clear implicits.
Arguments label T : clear implicits.
Arguments moment T : clear implicits.
Arguments method Args : clear implicits.
Arguments thread T Args : clear implicits.
Arguments config T Args : clear implicits.

(** ** Two element types for which [front] and [back] compile *)

(** [TDequeConcurrent<bool>].  A pointer converts to [bool] implicitly
    (null is [false], anything else [true]).  An [int] argument converts to
    [bool] by comparison with zero; [throwing_arg] stands for an argument
    object whose [operator bool] throws. *)
Inductive bool_arg : Type :=
| int_arg (z : Z)
| throwing_arg.

#[export] Instance bool_element : Element bool bool_arg := {
  construct a :=
    match a with
    | int_arg z => Some (negb (z =? 0)%Z)
    | throwing_arg => None
    end;
  from_ptr p :=
    match p with
    | nullptr => false
    | slot_ptr _ => true
    end
}.

(** [TDequeConcurrent<void*>].  The address of a slot is a [void**] and
    converts to [void*] implicitly, keeping its value. *)
#[export] Instance voidptr_element : Element ptr ptr := {
  construct a := Some a;
  from_ptr p := p
}.

(** ** Scenarios *)

(** A [TDequeConcurrent<bool>]; thread 0 inserts [false] and peeks at both
    ends. *)
Definition peek_bool : config bool bool_arg :=
  start [[push_back (int_arg 0); front; back]].

(** A [TDequeConcurrent<void*>]; thread 0 inserts a null pointer and peeks
    at both ends. *)
Definition peek_voidptr : config ptr ptr :=
  start [[push_back nullptr; front; back]].

(** Thread 0 asks [empty()]; thread 1 inserts an element and clears the
    deque. *)
Definition empty_query : config bool bool_arg :=
  start [[empty]; [push_back (int_arg 1); clear]].

(** Thread 0 plays thread A of the drain scenario ([push_back(1)],
    [push_back(2)]), thread 1 plays thread B ([push_front(0)]), thread 2
    drains with [front] followed by [pop_front], three times.  On a
    [TDequeConcurrent<bool>] the [int] arguments 1, 2 and 0 are stored as
    [true], [true] and [false]. *)
Definition drain_scenario : config bool bool_arg :=
  producers (int_arg 0) (int_arg 1) (int_arg 2).

(** The orders in which the three insertions can take the mutex, thread A
    keeping its program order, each followed by the drain; in the last
    one thread B inserts between the unlock and the notification of
    thread A's first call. *)
Definition drain_schedules : list (list decision) :=
  [ replicate 8 (Run 0) ++ replicate 4 (Run 1) ++ replicate 18 (Run 2);
    replicate 4 (Run 0) ++ replicate 4 (Run 1) ++ replicate 4 (Run 0) ++
      replicate 18 (Run 2);
    replicate 4 (Run 1) ++ replicate 8 (Run 0) ++ replicate 18 (Run 2);
    replicate 3 (Run 0) ++ replicate 3 (Run 1) ++ [Run 0; Run 1] ++
      replicate 4 (Run 0) ++ replicate 18 (Run 2) ].

(** 2^32, the number of values of a [uint]. *)
Definition two_to_32 : nat := N.to_nat 4294967296.

(** A [TDequeConcurrent<bool>] after 2^32 calls of [push_back(true)] on a
    fresh instance, and a thread about to call [size()]. *)
Definition full_collection : list (cell bool) :=
  map (λ i, Cell i true) (seq 0 two_to_32).

Definition full : config bool bool_arg :=
  Config (Shared full_collection two_to_32 None ∅) (spawn [[size]]).

(** * Properties *)

Section Properties.

Context {T Args : Type} `{Element T Args}.

Implicit Types (c : config T Args) (s : shared T) (t u w : tid).
Implicit Types (m : method Args) (p : pc T) (th : thread T Args).
Implicit Types (o : outcome T) (ev : event T) (r : result T).
Implicit Types (h hw : list (shared T * event T * shared T)).
Implicit Types (x : cell T).

(** ** Steps *)

Lemma run_inv t pick c c' l :
  run t pick c = Some (c', l) →
  ∃ th m s' o ev,
    threads c !! t = Some th ∧ head (calls th) = Some m ∧
    body m t (at_pc th) pick (state c) = Some (s', o, ev) ∧
    c' = Config s' (<[t := advance th o]> (threads c)) ∧ l = By t ev.
Proof.
  unfold run. intros Hr.
  destruct (threads c !! t) as [th|] eqn:Hth; simpl in Hr; [|done].
  destruct (head (calls th)) as [m|] eqn:Hm; simpl in Hr; [|done].
  destruct (body m t (at_pc th) pick (state c)) as [[[s' o] ev]|] eqn:Hb;
    simpl in Hr; [|done].
  simplify_eq. eauto 10.
Qed.

Lemma run_intro t pick c th m s' o ev :
  threads c !! t = Some th → head (calls th) = Some m →
  body m t (at_pc th) pick (state c) = Some (s', o, ev) →
  run t pick c = Some (Config s' (<[t := advance th o]> (threads c)), By t ev).
Proof.
  intros Hth Hm Hb. unfold run. rewrite Hth. simpl. rewrite Hm. simpl.
  rewrite Hb. reflexivity.
Qed.

(** A step is a statement of one thread or a spurious wake-up. *)
Lemma step_inv d c c' l :
  step d c = Some (c', l) →
  (∃ t pick, actor d = Some t ∧ run t pick c = Some (c', l)) ∨
  (∃ w, d = Spurious w ∧ l = SpuriousWake w ∧ w ∈ waiters (state c) ∧
        threads c' = threads c ∧
        collection (state c') = collection (state c) ∧
        mutex (state c') = mutex (state c) ∧
        waiters (state c') = waiters (state c) ∖ {[w]}).
Proof.
  destruct d as [t|t w|w]; simpl; intros Hs.
  - left. eauto.
  - left. eauto.
  - right. destruct (decide (w ∈ waiters (state c))); [|done].
    simplify_eq. simpl. eauto 10.
Qed.

(** Only the thread that runs changes. *)
Lemma step_other_thread d c c' l t :
  step d c = Some (c', l) → (∀ e, l ≠ By t e) →
  threads c' !! t = threads c !! t.
Proof.
  intros Hs Hl. apply step_inv in Hs as [(u & pick & _ & Hr)|(w & _ & _ & _ & Ht & _)].
  - apply run_inv in Hr as (th & m & s' & o & ev & _ & _ & _ & -> & ->).
    simpl. rewrite lookup_insert_ne; [done|]. intros ->. by eapply Hl.
  - by rewrite Ht.
Qed.

(** ** The primitives *)

Lemma acquire_Some t s s' :
  acquire t s = Some s' ↔
  mutex s = None ∧
  s' = Shared (collection s) (next_addr s) (Some t) (waiters s).
Proof.
  unfold acquire. destruct (mutex s); split.
  - discriminate.
  - intros [? _]. discriminate.
  - intros [= <-]. done.
  - intros [_ ->]. done.
Qed.

Lemma cv_resume_Some t s s' :
  cv_resume t s = Some s' ↔ (t ∉ waiters s) ∧ acquire t s = Some s'.
Proof.
  unfold cv_resume. destruct (decide (t ∈ waiters s)); split.
  - discriminate.
  - intros [? _]. contradiction.
  - done.
  - intros [_ ?]. done.
Qed.

Lemma cv_notify_one_Some pick s s' :
  cv_notify_one pick s = Some s' ↔
  (pick = None ∧ waiters s = ∅ ∧ s' = s) ∨
  (∃ w, pick = Some w ∧ w ∈ waiters s ∧
        s' = Shared (collection s) (next_addr s) (mutex s)
                    (waiters s ∖ {[w]})).
Proof.
  unfold cv_notify_one. destruct pick as [w|].
  - destruct (decide (w ∈ waiters s)); split.
    + intros [= <-]. right. eauto.
    + intros [(? & _)|(w' & [= <-] & _ & ->)]; done.
    + discriminate.
    + intros [(? & _)|(w' & [= <-] & ? & _)]; done.
  - destruct (decide (waiters s = ∅)); split.
    + intros [= <-]. left. done.
    + intros [(_ & _ & ->)|(w' & ? & _)]; done.
    + discriminate.
    + intros [(_ & ? & _)|(w' & ? & _)]; done.
Qed.

(** ** The member functions, statement by statement *)

Lemma addData_protected_inv fct t p pick s s' o ev :
  addData_protected fct t p pick s = Some (s', o, ev) →
  (p = Entry ∧ pick = None ∧ acquire t s = Some s' ∧
     o = Next Locked ∧ ev = EvLock) ∨
  (p = Locked ∧ pick = None ∧
     ∃ v, fct s = Some (s', v) ∧ o = Next Inserted ∧ ev = EvInsert v) ∨
  (p = Locked ∧ pick = None ∧ fct s = None ∧ s' = s ∧
     o = Next Throwing ∧ ev = EvThrow) ∨
  (p = Inserted ∧ pick = None ∧ s' = release s ∧
     o = Next Unlocked ∧ ev = EvUnlock) ∨
  (p = Unlocked ∧ cv_notify_one pick s = Some s' ∧
     o = Return RVoid ∧ ev = EvNotify pick) ∨
  (p = Throwing ∧ pick = None ∧ s' = release s ∧
     o = Return RThrow ∧ ev = EvUnlock).
Proof.
  unfold addData_protected. intros Hb.
  destruct p; try discriminate Hb.
  - destruct pick; [discriminate|].
    destruct (acquire t s) eqn:Ha; [|discriminate].
    injection Hb as <- <- <-. left. done.
  - destruct pick; [discriminate|].
    destruct (fct s) as [[s1 v]|] eqn:Hf; injection Hb as <- <- <-.
    + right; left. eauto 10.
    + right; right; left. done.
  - destruct pick; [discriminate|]. injection Hb as <- <- <-.
    do 3 right; left. done.
  - destruct pick; [discriminate|]. injection Hb as <- <- <-.
    do 5 right. done.
  - destruct (cv_notify_one pick s) eqn:Hn; [|destruct pick; discriminate].
    assert (Some (s0, Return (RVoid (T:=T)), EvNotify (T:=T) pick) = Some (s', o, ev))
      as [= <- <- <-] by (destruct pick; exact Hb).
    do 4 right; left. done.
Qed.

Lemma clear_body_inv t p pick s s' o ev :
  clear_body t p pick s = Some (s', o, ev) →
  pick = None ∧
  ((p = Entry ∧ acquire t s = Some s' ∧ o = Next Locked ∧ ev = EvLock) ∨
   (p = Locked ∧ s' = deque_clear s ∧ o = Next (Leaving RVoid) ∧
      ev = EvClear) ∨
   (∃ r, p = Leaving r ∧ s' = release s ∧ o = Return r ∧ ev = EvUnlock)).
Proof.
  unfold clear_body. intros Hb.
  destruct p, pick; try discriminate Hb; split; try done.
  - destruct (acquire t s) eqn:Ha; [|discriminate].
    injection Hb as <- <- <-. left. done.
  - injection Hb as <- <- <-. right; left. done.
  - injection Hb as <- <- <-. right; right. eauto.
Qed.

Lemma await_nonempty_inv action t p pick s s' o ev :
  await_nonempty action t p pick s = Some (s', o, ev) →
  pick = None ∧
  ((p = Entry ∧ acquire t s = Some s' ∧ o = Next Locked ∧ ev = EvLock) ∨
   (p = Locked ∧ collection s = [] ∧ s' = cv_wait t s ∧
      o = Next Waiting ∧ ev = EvWait) ∨
   (p = Locked ∧ collection s ≠ [] ∧
      ∃ r, action s = Some (s', r, ev) ∧ o = Next (Leaving r)) ∨
   (p = Waiting ∧ cv_resume t s = Some s' ∧ o = Next Locked ∧
      ev = EvResume) ∨
   (∃ r, p = Leaving r ∧ s' = release s ∧ o = Return r ∧ ev = EvUnlock)).
Proof.
  unfold await_nonempty. intros Hb.
  destruct p, pick; try discriminate Hb; split; try done.
  - destruct (acquire t s) eqn:Ha; [|discriminate].
    injection Hb as <- <- <-. left. done.
  - destruct (collection s) eqn:Hc.
    + injection Hb as <- <- <-. right; left. done.
    + destruct (action s) as [[[s1 r] e1]|] eqn:Ha; [|discriminate].
      injection Hb as <- <- <-. right; right; left.
      split; [done|]. split; [done|]. eauto.
  - destruct (cv_resume t s) eqn:Ha; [|discriminate].
    injection Hb as <- <- <-. do 3 right; left. done.
  - injection Hb as <- <- <-. do 4 right. eauto.
Qed.

Lemma empty_body_inv t p pick s s' o ev :
  empty_body t p pick s = Some (s', o, ev) →
  pick = None ∧
  ((p = Entry ∧ acquire t s = Some s' ∧ o = Next Locked ∧ ev = EvLock) ∨
   (p = Locked ∧ s' = cv_wait t s ∧ o = Next Waiting ∧ ev = EvWait) ∨
   (p = Waiting ∧ cv_resume t s = Some s' ∧ o = Next Resumed ∧
      ev = EvResume) ∨
   (p = Resumed ∧ s' = s ∧
      o = Next (Leaving (RBool (bool_decide (collection s = [])))) ∧
      ev = EvEval (RBool (bool_decide (collection s = [])))) ∨
   (∃ r, p = Leaving r ∧ s' = release s ∧ o = Return r ∧ ev = EvUnlock)).
Proof.
  unfold empty_body. intros Hb.
  destruct p, pick; try discriminate Hb; split; try done.
  - destruct (acquire t s) eqn:Ha; [|discriminate].
    injection Hb as <- <- <-. left. done.
  - injection Hb as <- <- <-. right; left. done.
  - destruct (cv_resume t s) eqn:Ha; [|discriminate].
    injection Hb as <- <- <-. do 2 right; left. done.
  - injection Hb as <- <- <-. do 3 right; left. done.
  - injection Hb as <- <- <-. do 4 right. eauto.
Qed.

Ltac simp :=
  cbn [mutex collection next_addr waiters holding target release cv_wait
       deque_clear deque_push_front deque_push_back deque_pop_front
       deque_pop_back state threads calls at_pc returned advance] in *.

Ltac break_up :=
  repeat match goal with
         | H : _ ∨ _ |- _ => destruct H
         | H : _ ∧ _ |- _ => destruct H
         | H : ∃ _, _ |- _ => destruct H
         end.

(** Case analysis of one statement: which function, at which program
    point. *)
Ltac body_inv Hb :=
  match type of Hb with
  | body ?m _ _ _ _ = Some _ =>
      destruct m; cbv beta iota delta [body] in Hb;
      first [ apply addData_protected_inv in Hb
            | apply clear_body_inv in Hb
            | apply await_nonempty_inv in Hb
            | apply empty_body_inv in Hb ];
      break_up; subst
  end.

(** No statement jumps back to the entry of the call. *)
Lemma body_next_not_entry m t p pick s s' p' ev :
  body m t p pick s = Some (s', Next p', ev) → p' ≠ Entry.
Proof. intros Hb. body_inv Hb; simplify_eq; done. Qed.

(** What the lambdas and the actions after the loop do to the shared
    state. *)
Lemma insert_front_Some a s s' v :
  insert_front a s = Some (s', v) ↔
  construct a = Some v ∧ s' = deque_push_front v s.
Proof.
  unfold insert_front. destruct (construct a) as [v'|]; simpl; split.
  - intros [= <- <-]. done.
  - intros [[= <-] ->]. done.
  - discriminate.
  - intros [? _]. discriminate.
Qed.

Lemma insert_back_Some a s s' v :
  insert_back a s = Some (s', v) ↔
  construct a = Some v ∧ s' = deque_push_back v s.
Proof.
  unfold insert_back. destruct (construct a) as [v'|]; simpl; split.
  - intros [= <- <-]. done.
  - intros [[= <-] ->]. done.
  - discriminate.
  - intros [? _]. discriminate.
Qed.

Lemma front_action_Some s s' r ev :
  front_action s = Some (s', r, ev) ↔
  ∃ x l, collection s = x :: l ∧ s' = s ∧
         r = RValue (from_ptr (slot_ptr (cell_addr x))) ∧ ev = EvEval r.
Proof.
  unfold front_action, deque_front. destruct (collection s) as [|x l]; simpl; split.
  - discriminate.
  - intros (? & ? & ? & _). discriminate.
  - intros [= <- <- <-]. eauto 10.
  - intros (x' & l' & [= <- <-] & -> & -> & ->). done.
Qed.

Lemma back_action_Some s s' r ev :
  back_action s = Some (s', r, ev) ↔
  ∃ l x, collection s = l ++ [x] ∧ s' = s ∧
         r = RValue (from_ptr (slot_ptr (cell_addr x))) ∧ ev = EvEval r.
Proof.
  unfold back_action, deque_back. split.
  - destruct (last (collection s)) as [x|] eqn:Hl; simpl; [|discriminate].
    intros [= <- <- <-]. apply last_Some in Hl as [l Hl]. eauto 10.
  - intros (l & x & -> & -> & -> & ->). rewrite last_snoc. done.
Qed.

Lemma pop_front_action_Some s s' r ev :
  pop_front_action s = Some (s', r, ev) ↔
  ∃ x l, collection s = x :: l ∧
         s' = Shared l (next_addr s) (mutex s) (waiters s) ∧
         r = RVoid ∧ ev = EvRemove (cell_val x).
Proof.
  unfold pop_front_action, deque_front, deque_pop_front.
  destruct (collection s) as [|x l]; simpl; split.
  - discriminate.
  - intros (? & ? & ? & _). discriminate.
  - intros [= <- <- <-]. eauto 10.
  - intros (x' & l' & [= <- <-] & -> & -> & ->). done.
Qed.

Lemma pop_back_action_Some s s' r ev :
  pop_back_action s = Some (s', r, ev) ↔
  ∃ l x, collection s = l ++ [x] ∧
         s' = Shared l (next_addr s) (mutex s) (waiters s) ∧
         r = RVoid ∧ ev = EvRemove (cell_val x).
Proof.
  unfold pop_back_action, deque_back, deque_pop_back. split.
  - destruct (last (collection s)) as [x|] eqn:Hl; simpl; [|discriminate].
    intros [= <- <- <-]. apply last_Some in Hl as [l Hl].
    exists l, x. rewrite Hl, removelast_last. done.
  - intros (l & x & Hc & -> & -> & ->). rewrite Hc, last_snoc. simpl.
    rewrite removelast_last. done.
Qed.

Lemma size_action_Some s s' r ev :
  size_action s = Some (s', r, ev) ↔
  s' = s ∧ r = RUInt (to_uint (deque_size s)) ∧ ev = EvEval r.
Proof.
  unfold size_action. split.
  - intros [= <- <- <-]. done.
  - intros (-> & -> & ->). done.
Qed.

Ltac prim_inv :=
  repeat match goal with
    | H : acquire _ _ = Some _ |- _ => apply acquire_Some in H as [? ->]
    | H : cv_resume _ _ = Some _ |- _ =>
        apply cv_resume_Some in H as [? [? ->]%acquire_Some]
    | H : cv_notify_one _ _ = Some _ |- _ =>
        apply cv_notify_one_Some in H as [(? & ? & ->)|(? & ? & ? & ->)]
    | H : insert_front _ _ = Some _ |- _ =>
        apply insert_front_Some in H as [? ->]
    | H : insert_back _ _ = Some _ |- _ =>
        apply insert_back_Some in H as [? ->]
    | H : front_action _ = Some _ |- _ =>
        apply front_action_Some in H as (? & ? & ? & -> & -> & ->)
    | H : back_action _ = Some _ |- _ =>
        apply back_action_Some in H as (? & ? & ? & -> & -> & ->)
    | H : pop_front_action _ = Some _ |- _ =>
        apply pop_front_action_Some in H as (? & ? & ? & -> & -> & ->)
    | H : pop_back_action _ = Some _ |- _ =>
        apply pop_back_action_Some in H as (? & ? & ? & -> & -> & ->)
    | H : size_action _ = Some _ |- _ =>
        apply size_action_Some in H as (-> & -> & ->)
    end.

Ltac pick_case :=
  first [ left; solve [repeat split; (reflexivity || assumption)]
        | right; pick_case
        | solve [repeat split; (reflexivity || assumption)] ].

(** How a statement treats the mutex: it takes it, keeps it, gives it up
    or does without it; only a statement that keeps it can change the
    collection. *)
Lemma body_mutex m t p pick s s' o ev :
  body m t p pick s = Some (s', o, ev) →
  (holding p = false ∧ holding (target o) = true ∧
     mutex s = None ∧ mutex s' = Some t ∧ collection s' = collection s) ∨
  (holding p = true ∧ holding (target o) = true ∧ mutex s' = mutex s) ∨
  (holding p = true ∧ holding (target o) = false ∧
     mutex s' = None ∧ collection s' = collection s) ∨
  (holding p = false ∧ holding (target o) = false ∧
     mutex s' = mutex s ∧ collection s' = collection s).
Proof.
  intros Hb. body_inv Hb; prim_inv; simp; pick_case.
Qed.

(** ** Mutual exclusion *)

Lemma wf_step d c c' l : wf c → step d c = Some (c', l) → wf c'.
Proof.
  intros Hwf Hs.
  apply step_inv in Hs
    as [(u & pick & _ & Hr)|(w & _ & _ & _ & Ht & _ & Hm & _)].
  - apply run_inv in Hr as (th & m & s' & o & ev & Hth & _ & Hb & -> & _).
    pose proof (Hwf u th Hth) as Hu.
    intros x thx. simp. destruct (decide (x = u)) as [->|Hne].
    + rewrite lookup_insert_eq. intros [= <-].
      replace (at_pc (advance th o)) with (target o) by (by destruct o).
      apply body_mutex in Hb as [Hb|[Hb|[Hb|Hb]]];
        destruct Hb as (Hp & -> & Hb).
      * destruct Hb as (_ & -> & _). done.
      * rewrite Hb, <- Hu, Hp. done.
      * destruct Hb as [-> _]. done.
      * destruct Hb as [-> _]. rewrite <- Hu, Hp. done.
    + rewrite lookup_insert_ne by done. intros Hx.
      pose proof (Hwf x thx Hx) as Hxx. rewrite Hxx.
      apply body_mutex in Hb as [Hb|[Hb|[Hb|Hb]]];
        destruct Hb as (Hp & _ & Hb).
      * destruct Hb as (-> & -> & _). split; [done|]. intros [= ->]. done.
      * rewrite Hb. done.
      * destruct Hb as [-> _]. rewrite Hp in Hu.
        destruct Hu as [Hu _]. rewrite (Hu eq_refl).
        split; [|done]. intros [= ->]. done.
      * destruct Hb as [-> _]. done.
  - intros x thx. rewrite Ht, Hm. apply Hwf.
Qed.

(** While thread [t] owns the mutex, no step of another thread changes the
    collection or takes the mutex away; and no step of another thread
    makes [t] the owner. *)
Lemma step_respects_owner d c c' l t :
  wf c → step d c = Some (c', l) → (∀ e, l ≠ By t e) →
  (mutex (state c) = Some t ↔ mutex (state c') = Some t) ∧
  (mutex (state c) = Some t →
   collection (state c') = collection (state c)).
Proof.
  intros Hwf Hs Hl.
  apply step_inv in Hs
    as [(u & pick & _ & Hr)|(w & _ & _ & _ & _ & Hc & Hm & _)].
  - apply run_inv in Hr as (th & m & s' & o & ev & Hth & _ & Hb & -> & ->).
    assert (u ≠ t) as Hne by (intros ->; by eapply Hl).
    pose proof (Hwf u th Hth) as Hu. simp.
    apply body_mutex in Hb as [Hb|[Hb|[Hb|Hb]]];
      destruct Hb as (Hp & _ & Hb).
    + destruct Hb as (-> & -> & _). split; [|done].
      split; [done|]. intros [= ->]. done.
    + rewrite Hb. split; [done|]. intros Hm.
      rewrite Hp in Hu. destruct Hu as [Hu _]. specialize (Hu eq_refl).
      congruence.
    + destruct Hb as [-> ->]. split; [|done]. split; [|done].
      rewrite Hp in Hu. destruct Hu as [Hu _]. specialize (Hu eq_refl).
      congruence.
    + destruct Hb as [-> ->]. done.
  - rewrite Hm, Hc. done.
Qed.

(** ** Runs *)

Lemma exec_cons_inv d sched c c' ms :
  exec (d :: sched) c = Some (c', ms) →
  ∃ c1 l ms', step d c = Some (c1, l) ∧ exec sched c1 = Some (c', ms') ∧
              ms = (state c, l, state c1) :: ms'.
Proof.
  simpl. intros He.
  destruct (step d c) as [[c1 l]|] eqn:Hs; simpl in He; [|done].
  destruct (exec sched c1) as [[c2 ms']|] eqn:He1; simpl in He; [|done].
  injection He as <- <-. eauto 10.
Qed.

Lemma exec_app sched1 sched2 c c1 ms1 :
  exec sched1 c = Some (c1, ms1) →
  exec (sched1 ++ sched2) c =
    '(c2, ms2) ← exec sched2 c1; Some (c2, ms1 ++ ms2).
Proof.
  revert c ms1. induction sched1 as [|d sched1 IH]; intros c ms1 He.
  - injection He as <- <-. simpl. by destruct (exec sched2 c) as [[??]|].
  - apply exec_cons_inv in He as (c0 & l & ms' & Hs & He & ->).
    simpl. rewrite Hs. simpl. rewrite (IH _ _ He).
    by destruct (exec sched2 c1) as [[??]|].
Qed.

Lemma wf_exec sched c c' ms : wf c → exec sched c = Some (c', ms) → wf c'.
Proof.
  revert c ms. induction sched as [|d sched IH]; intros c ms Hwf He.
  - by injection He as <- <-.
  - apply exec_cons_inv in He as (c1 & l & ms' & Hs & He & ->).
    eauto using wf_step.
Qed.

Lemma history_of_other t s l s' ms :
  (∀ e, l ≠ By t e) → history_of t ((s, l, s') :: ms) = history_of t ms.
Proof.
  intros Hl. simpl. destruct l as [u e|w]; [|done].
  destruct (decide (u = t)) as [->|]; [|done]. by destruct (Hl e).
Qed.

Lemma history_of_own t s e s' ms :
  history_of t ((s, By t e, s') :: ms) = (s, e, s') :: history_of t ms.
Proof. simpl. by rewrite decide_True. Qed.

(** A label is a statement of [t] or it is not. *)
Lemma label_own_or_not (l : label T) t :
  (∃ e, l = By t e) ∨ (∀ e, l ≠ By t e).
Proof.
  destruct l as [u e|w]; [|right; done].
  destruct (decide (u = t)) as [->|]; [left; eauto|right; congruence].
Qed.

(** A thread that executes nothing stays as it is. *)
Lemma exec_no_own_steps sched c c' ms t :
  exec sched c = Some (c', ms) → history_of t ms = [] →
  threads c' !! t = threads c !! t.
Proof.
  revert c ms. induction sched as [|d sched IH]; intros c ms He Hh.
  - by injection He as <- <-.
  - apply exec_cons_inv in He as (c1 & l & ms' & Hs & He & ->).
    destruct (label_own_or_not l t) as [[e ->]|Hl].
    + by rewrite history_of_own in Hh.
    + rewrite history_of_other in Hh by done.
      rewrite (IH _ _ He Hh). by eapply step_other_thread.
Qed.

(** Threads only move forward, and a thread at the entry of a call moves
    strictly forward with its first statement. *)
Lemma step_rank d c c' l t th :
  step d c = Some (c', l) → threads c !! t = Some th →
  ∃ th', threads c' !! t = Some th' ∧ rank th ≤ rank th' ∧
         ((∃ e, l = By t e) → at_pc th = Entry → rank th < rank th').
Proof.
  intros Hs Hth. destruct (label_own_or_not l t) as [[e ->]|Hl].
  - apply step_inv in Hs as [(u & pick & _ & Hr)|(w & _ & ? & _)]; [|done].
    apply run_inv in Hr as (th0 & m & s' & o & ev & Hth0 & _ & Hb & -> & [= -> ->]).
    rewrite Hth in Hth0. injection Hth0 as <-.
    exists (advance th o). simp. rewrite lookup_insert_eq. split; [done|].
    destruct th as [cs p rs]. unfold rank. simp. destruct o as [p'|r]; simp.
    + apply body_next_not_entry in Hb as Hp'.
      split; [destruct p, p'; simpl; first [lia | congruence]|].
      intros _ ->. destruct p'; simpl; first [lia | congruence].
    + rewrite length_app. simpl. split; [destruct p; lia|]. intros _ ->. lia.
  - exists th. erewrite step_other_thread by done.
    split; [done|]. split; [lia|]. intros [e ->]. by destruct (Hl e).
Qed.

Lemma exec_rank sched c c' ms t th :
  exec sched c = Some (c', ms) → threads c !! t = Some th →
  ∃ th', threads c' !! t = Some th' ∧ rank th ≤ rank th' ∧
         (history_of t ms ≠ [] → at_pc th = Entry → rank th < rank th').
Proof.
  revert c ms th. induction sched as [|d sched IH]; intros c ms th He Hth.
  - injection He as <- <-. exists th. split; [done|]. split; [lia|]. done.
  - apply exec_cons_inv in He as (c1 & l & ms' & Hs & He & ->).
    destruct (step_rank _ _ _ _ _ _ Hs Hth) as (th1 & Hth1 & Hle & Hlt).
    destruct (IH _ _ _ He Hth1) as (th' & Hth' & Hle' & Hlt').
    exists th'. split; [done|]. split; [lia|]. intros Hh Hp.
    destruct (label_own_or_not l t) as [[e ->]|Hl].
    + specialize (Hlt (ex_intro _ e eq_refl) Hp). lia.
    + rewrite history_of_other in Hh by done.
      rewrite (step_other_thread _ _ _ _ _ Hs Hl), Hth in Hth1.
      injection Hth1 as <-. specialize (Hlt' Hh Hp). lia.
Qed.

(** In any run, the statements a thread executes between the start and
    the end of a call are one pass through the control flow of the
    function called, whatever the other threads do in between. *)
Lemma complete_call_flow sched c c' ms t m rest p rs r :
  exec sched c = Some (c', ms) →
  threads c !! t = Some (Thread (m :: rest) p rs) →
  threads c' !! t = Some (Thread rest Entry (rs ++ [r])) →
  flow t m p (history_of t ms) r.
Proof.
  revert c ms p. induction sched as [|d sched IH]; intros c ms p He Hth Hth'.
  - injection He as <- <-. rewrite Hth in Hth'. injection Hth' as _ _ Hrs.
    apply (f_equal length) in Hrs. rewrite length_app in Hrs. simpl in Hrs. lia.
  - apply exec_cons_inv in He as (c1 & l & ms' & Hs & He & ->).
    destruct (label_own_or_not l t) as [[e ->]|Hl].
    + rewrite history_of_own.
      apply step_inv in Hs as [(u & pick & _ & Hr)|(w & _ & ? & _)]; [|done].
      apply run_inv in Hr
        as (th0 & m0 & s' & o & ev & Hth0 & Hm0 & Hb & -> & [= <- <-]).
      rewrite Hth in Hth0. injection Hth0 as <-. injection Hm0 as <-.
      simp. destruct o as [p'|r0].
      * eapply flow_next; [exact Hb|].
        eapply IH; [exact He| |exact Hth']. simp. by rewrite lookup_insert_eq.
      * assert (threads (Config s' (<[t:=advance (Thread (m :: rest) p rs)
                                          (Return r0)]> (threads c))) !! t
                = Some (Thread rest Entry (rs ++ [r0]))) as Hth1
          by (simp; by rewrite lookup_insert_eq).
        destruct (exec_rank _ _ _ _ _ _ He Hth1) as (th' & Hth2 & _ & Hlt).
        rewrite Hth' in Hth2. injection Hth2 as <-.
        assert (history_of t ms' = []) as Hnil.
        { destruct (history_of t ms') as [|x h]; [done|].
          assert (rank (Thread rest Entry (rs ++ [r0]))
                  < rank (Thread rest Entry (rs ++ [r]))) as Hlt'
            by (by apply Hlt).
          unfold rank in Hlt'. simp. rewrite !length_app in Hlt'.
          simpl in Hlt'. lia. }
        rewrite Hnil.
        rewrite (exec_no_own_steps _ _ _ _ _ He Hnil), Hth1 in Hth'.
        injection Hth' as Hrs. apply app_inj_tail in Hrs as [_ ->].
        eapply flow_return. exact Hb.
    + rewrite history_of_other by done.
      eapply IH; [exact He| |exact Hth'].
      by rewrite (step_other_thread _ _ _ _ _ Hs Hl).
Qed.

(** Until the next statement of [t], the other threads leave [t]'s
    ownership of the mutex as it is, and the collection too while [t]
    owns the mutex. *)
Lemma until_next_own_statement sched c c' ms t s2 e s2' h :
  wf c → exec sched c = Some (c', ms) →
  history_of t ms = (s2, e, s2') :: h →
  (mutex (state c) = Some t ↔ mutex s2 = Some t) ∧
  (mutex (state c) = Some t → collection s2 = collection (state c)).
Proof.
  revert c ms. induction sched as [|d sched IH]; intros c ms Hwf He Hh.
  - by injection He as <- <-.
  - apply exec_cons_inv in He as (c1 & l & ms' & Hs & He & ->).
    destruct (label_own_or_not l t) as [[e' ->]|Hl].
    + rewrite history_of_own in Hh. injection Hh as <- _ _ _. done.
    + rewrite history_of_other in Hh by done.
      destruct (step_respects_owner _ _ _ _ _ Hwf Hs Hl) as [Hm Hc].
      destruct (IH _ _ (wf_step _ _ _ _ Hwf Hs) He Hh) as [Hm' Hc'].
      split; [by rewrite Hm|]. intros Ho.
      rewrite Hc' by (by apply Hm). by apply Hc.
Qed.

Lemma own_history_uninterrupted sched c c' ms t :
  wf c → exec sched c = Some (c', ms) → uninterrupted t (history_of t ms).
Proof.
  revert c ms. induction sched as [|d sched IH]; intros c ms Hwf He.
  - by injection He as <- <-.
  - apply exec_cons_inv in He as (c1 & l & ms' & Hs & He & ->).
    pose proof (wf_step _ _ _ _ Hwf Hs) as Hwf1.
    specialize (IH _ _ Hwf1 He).
    destruct (label_own_or_not l t) as [[e' ->]|Hl].
    + rewrite history_of_own.
      destruct (history_of t ms') as [|[[s2 e2] s2'] h] eqn:Hh; [done|].
      destruct (until_next_own_statement _ _ _ _ _ _ _ _ _ Hwf1 He Hh)
        as [Hm Hc].
      simpl. split; [done|]. split; [done|]. exact IH.
    + by rewrite history_of_other.
Qed.

(** ** The control flow of each function *)

Lemma flow_inv t m p h r :
  flow t m p h r →
  ∃ pick s s' o ev h',
    body m t p pick s = Some (s', o, ev) ∧ h = (s, ev, s') :: h' ∧
    match o with
    | Return r' => r' = r ∧ h' = []
    | Next p' => flow t m p' h' r
    end.
Proof. intros [p0 pick s s' r0 ev Hb|p0 pick s s' p' ev h' r0 Hb Hf]; eauto 15. Qed.

Lemma body_insertion m a :
  insertion_arg m = Some a → body m = addData_protected (insertion_fct m a).
Proof. destruct m; intros [= <-]; reflexivity. Qed.

Lemma insertion_fct_Some m a s s' v :
  insertion_fct m a s = Some (s', v) ↔
  construct a = Some v ∧ s' = deque_insert m v s.
Proof.
  unfold insertion_fct, deque_insert. destruct (at_front m).
  - apply insert_front_Some.
  - apply insert_back_Some.
Qed.

Lemma insertion_fct_None m a s :
  insertion_fct m a s = None ↔ construct a = None.
Proof.
  unfold insertion_fct, insert_front, insert_back.
  destruct (at_front m), (construct a); simpl; split; done.
Qed.

Lemma body_action m action :
  action_of m = Some action → body m = await_nonempty action.
Proof. destruct m; intros [= <-]; reflexivity. Qed.

(** An insertion is a straight line: lock, construct and insert, unlock,
    notify; or lock, failed construction, unlock by unwinding. *)
Lemma flow_insertion t m a h r :
  insertion_arg m = Some a → flow t m Entry h r →
  (∃ v s0 s0' s1 s2 s3 s3' pick,
      construct a = Some v ∧ r = RVoid ∧
      h = [(s0, EvLock, s0'); (s1, EvInsert v, deque_insert m v s1);
           (s2, EvUnlock, release s2); (s3, EvNotify pick, s3')] ∧
      acquire t s0 = Some s0' ∧ cv_notify_one pick s3 = Some s3') ∨
  (∃ s0 s0' s1 s2,
      construct a = None ∧ r = RThrow ∧
      h = [(s0, EvLock, s0'); (s1, EvThrow, s1); (s2, EvUnlock, release s2)] ∧
      acquire t s0 = Some s0').
Proof.
  intros Hm Hf.
  apply flow_inv in Hf as (pick0 & s0 & s0' & o0 & ev0 & h0 & Hb0 & -> & Hf).
  rewrite (body_insertion _ _ Hm) in Hb0.
  apply addData_protected_inv in Hb0; break_up; try discriminate; subst.
  apply flow_inv in Hf as (pick1 & s1 & s1' & o1 & ev1 & h1 & Hb1 & -> & Hf).
  rewrite (body_insertion _ _ Hm) in Hb1.
  apply addData_protected_inv in Hb1; break_up; try discriminate; subst.
  - match goal with
    | Hi : insertion_fct _ _ _ = Some _ |- _ =>
        apply insertion_fct_Some in Hi as [Hv ->]
    end.
    apply flow_inv in Hf as (pick2 & s2 & s2' & o2 & ev2 & h2 & Hb2 & -> & Hf).
    rewrite (body_insertion _ _ Hm) in Hb2.
    apply addData_protected_inv in Hb2; break_up; try discriminate; subst.
    apply flow_inv in Hf as (pick3 & s3 & s3' & o3 & ev3 & h3 & Hb3 & -> & Hf).
    rewrite (body_insertion _ _ Hm) in Hb3.
    apply addData_protected_inv in Hb3; break_up; try discriminate; subst.
    destruct Hf as [<- ->]. left. eauto 15.
  - match goal with
    | Hi : insertion_fct _ _ _ = None |- _ =>
        apply insertion_fct_None in Hi
    end.
    apply flow_inv in Hf as (pick2 & s2 & s2' & o2 & ev2 & h2 & Hb2 & -> & Hf).
    rewrite (body_insertion _ _ Hm) in Hb2.
    apply addData_protected_inv in Hb2; break_up; try discriminate; subst.
    destruct Hf as [<- ->]. right. eauto 15.
Qed.

(** [clear] is a straight line too. *)
Lemma flow_clear t h r :
  flow t clear Entry h r →
  ∃ s0 s0' s1 s2,
    r = RVoid ∧
    h = [(s0, EvLock, s0'); (s1, EvClear, deque_clear s1);
         (s2, EvUnlock, release s2)] ∧
    acquire t s0 = Some s0'.
Proof.
  intros Hf.
  apply flow_inv in Hf as (pick0 & s0 & s0' & o0 & ev0 & h0 & Hb0 & -> & Hf).
  cbv beta iota delta [body] in Hb0.
  apply clear_body_inv in Hb0; break_up; try discriminate; subst.
  apply flow_inv in Hf as (pick1 & s1 & s1' & o1 & ev1 & h1 & Hb1 & -> & Hf).
  cbv beta iota delta [body] in Hb1.
  apply clear_body_inv in Hb1; break_up; try discriminate; subst.
  apply flow_inv in Hf as (pick2 & s2 & s2' & o2 & ev2 & h2 & Hb2 & -> & Hf).
  cbv beta iota delta [body] in Hb2.
  apply clear_body_inv in Hb2; break_up; try discriminate; subst.
  match goal with Hl : Leaving _ = Leaving _ |- _ => injection Hl as <- end.
  destruct Hf as [<- ->]. eauto 15.
Qed.

(** [empty]: lock, one wait, the test, unlock. *)
Lemma flow_empty t h r :
  flow t empty Entry h r →
  ∃ s0 s0' s1 s2 s2' s3 s4,
    r = RBool (bool_decide (collection s3 = [])) ∧
    h = [(s0, EvLock, s0'); (s1, EvWait, cv_wait t s1);
         (s2, EvResume, s2'); (s3, EvEval r, s3);
         (s4, EvUnlock, release s4)] ∧
    acquire t s0 = Some s0' ∧ cv_resume t s2 = Some s2'.
Proof.
  intros Hf.
  apply flow_inv in Hf as (pick0 & s0 & s0' & o0 & ev0 & h0 & Hb0 & -> & Hf).
  cbv beta iota delta [body] in Hb0.
  apply empty_body_inv in Hb0; break_up; try discriminate; subst.
  apply flow_inv in Hf as (pick1 & s1 & s1' & o1 & ev1 & h1 & Hb1 & -> & Hf).
  cbv beta iota delta [body] in Hb1.
  apply empty_body_inv in Hb1; break_up; try discriminate; subst.
  apply flow_inv in Hf as (pick2 & s2 & s2' & o2 & ev2 & h2 & Hb2 & -> & Hf).
  cbv beta iota delta [body] in Hb2.
  apply empty_body_inv in Hb2; break_up; try discriminate; subst.
  apply flow_inv in Hf as (pick3 & s3 & s3' & o3 & ev3 & h3 & Hb3 & -> & Hf).
  cbv beta iota delta [body] in Hb3.
  apply empty_body_inv in Hb3; break_up; try discriminate; subst.
  apply flow_inv in Hf as (pick4 & s4 & s4' & o4 & ev4 & h4 & Hb4 & -> & Hf).
  cbv beta iota delta [body] in Hb4.
  apply empty_body_inv in Hb4; break_up; try discriminate; subst.
  match goal with Hl : Leaving _ = Leaving _ |- _ => injection Hl as <- end.
  destruct Hf as [<- ->]. eauto 15.
Qed.

(** The waiting functions: however often the thread is woken, it goes on
    only from a test that found the collection non-empty. *)
Lemma flow_await t m action p h r :
  action_of m = Some action → flow t m p h r → await_shape action t p h r.
Proof.
  intros Hm Hf. induction Hf as [p pick s s' r ev Hb|p pick s s' p' ev h r Hb Hf IH].
  - rewrite (body_action _ _ Hm) in Hb.
    apply await_nonempty_inv in Hb; break_up; try discriminate; subst.
    match goal with Hr : Return _ = Return _ |- _ => injection Hr as <- end.
    simpl. eauto.
  - rewrite (body_action _ _ Hm) in Hb.
    apply await_nonempty_inv in Hb; break_up; try discriminate; subst;
      match goal with Hn : Next _ = Next _ |- _ => injection Hn as -> end;
      simpl in IH |- *.
    + eauto 10.
    + destruct IH as (sb & sb' & h' & -> & Hres & hw & s1 & ev & s1' & s2 & -> & Hw & Hne & Ha).
      exists ((s, EvWait, cv_wait t s) :: (sb, EvResume, sb') :: hw), s1, ev, s1', s2.
      split; [done|]. split; [by constructor|]. done.
    + destruct IH as [-> [s2 ->]].
      exists [], s, ev, s', s2. split; [done|]. split; [constructor|]. done.
    + eauto 10.
Qed.

(** ** A call running alone *)

Lemma exec_run t pick sched c th m s' o ev :
  threads c !! t = Some th → head (calls th) = Some m →
  body m t (at_pc th) pick (state c) = Some (s', o, ev) →
  exec (notify_decision t pick :: sched) c =
    '(c2, ms) ← exec sched (Config s' (<[t := advance th o]> (threads c)));
    Some (c2, (state c, By t ev, s') :: ms).
Proof.
  intros Hth Hm Hb.
  assert (step (notify_decision t pick) c =
          Some (Config s' (<[t := advance th o]> (threads c)), By t ev)) as Hs
    by (destruct pick; simpl; by eapply run_intro).
  cbn [exec]. rewrite Hs. reflexivity.
Qed.

Lemma acquire_free t s : mutex s = None → acquire t s = Some (locked_by t s).
Proof. intros Hm. unfold acquire. by rewrite Hm. Qed.

Lemma release_locked_by t s :
  mutex s = None → release (locked_by t s) = s.
Proof. intros Hm. destruct s. simpl in *. by subst. Qed.

(** An insertion whose construction throws, alone from a free mutex:
    three statements, and the shared state is what it was. *)
Lemma solo_insertion_throw c t m a rest rs :
  insertion_arg m = Some a → construct a = None →
  threads c !! t = Some (Thread (m :: rest) Entry rs) →
  mutex (state c) = None →
  ∃ ms, exec [Run t; Run t; Run t] c =
          Some (Config (state c)
                  (<[t := Thread rest Entry (rs ++ [RThrow])]> (threads c)),
                ms) ∧
        labels ms = [By t EvLock; By t EvThrow; By t EvUnlock].
Proof.
  intros Hm Ha Hth Hfree. eexists. split.
  - change (Run t) with (notify_decision t None).
    erewrite exec_run; [|exact Hth|reflexivity|].
    2:{ rewrite (body_insertion _ _ Hm). simp. unfold addData_protected.
        rewrite (acquire_free _ _ Hfree). reflexivity. }
    erewrite exec_run; [|simp; apply lookup_insert_eq|reflexivity|].
    2:{ rewrite (body_insertion _ _ Hm). simp. unfold addData_protected.
        rewrite (proj2 (insertion_fct_None m a _) Ha). reflexivity. }
    erewrite exec_run; [|simp; apply lookup_insert_eq|reflexivity|].
    2:{ rewrite (body_insertion _ _ Hm). simp. unfold addData_protected.
        reflexivity. }
    cbn [exec mbind option_bind]. simp. rewrite !insert_insert_eq.
    rewrite (release_locked_by _ _ Hfree). reflexivity.
  - reflexivity.
Qed.

Ltac solo_step tac :=
  erewrite exec_run;
  [ | first [eassumption | simp; apply lookup_insert_eq] | reflexivity | tac ].

Ltac solo_finish :=
  cbn [exec mbind option_bind]; simp; rewrite ?insert_insert_eq.

Lemma release_insert_locked_by t m v s :
  mutex s = None → release (deque_insert m v (locked_by t s)) = deque_insert m v s.
Proof.
  intros Hm. destruct s. unfold deque_insert, deque_push_front, deque_push_back.
  simpl in *. subst. by destruct (at_front m).
Qed.

(** A successful insertion, alone from a free mutex: four statements. *)
Lemma solo_insertion c t m a v rest rs pick s' :
  insertion_arg m = Some a → construct a = Some v →
  threads c !! t = Some (Thread (m :: rest) Entry rs) →
  mutex (state c) = None →
  cv_notify_one pick (deque_insert m v (state c)) = Some s' →
  ∃ ms, exec [Run t; Run t; Run t; notify_decision t pick] c =
          Some (Config s'
                  (<[t := Thread rest Entry (rs ++ [RVoid])]> (threads c)),
                ms) ∧
        labels ms = [By t EvLock; By t (EvInsert v); By t EvUnlock;
                     By t (EvNotify pick)].
Proof.
  intros Hm Ha Hth Hfree Hn. eexists. split.
  - change (Run t) with (notify_decision t None).
    solo_step ltac:(rewrite (body_insertion _ _ Hm); simp;
                    unfold addData_protected;
                    rewrite (acquire_free _ _ Hfree); reflexivity).
    solo_step ltac:(rewrite (body_insertion _ _ Hm); simp;
                    unfold addData_protected;
                    rewrite (proj2 (insertion_fct_Some m a _ _ v)
                               (conj Ha eq_refl)); reflexivity).
    solo_step ltac:(rewrite (body_insertion _ _ Hm); simp;
                    unfold addData_protected; reflexivity).
    solo_step ltac:(rewrite (body_insertion _ _ Hm); simp;
                    unfold addData_protected;
                    rewrite (release_insert_locked_by _ _ _ _ Hfree), Hn;
                    reflexivity).
    solo_finish. reflexivity.
  - reflexivity.
Qed.

(** [clear], alone from a free mutex: three statements, whatever the
    collection holds. *)
Lemma solo_clear c t rest rs :
  threads c !! t = Some (Thread (clear :: rest) Entry rs) →
  mutex (state c) = None →
  ∃ ms, exec [Run t; Run t; Run t] c =
          Some (Config (deque_clear (state c))
                  (<[t := Thread rest Entry (rs ++ [RVoid])]> (threads c)),
                ms) ∧
        labels ms = [By t EvLock; By t EvClear; By t EvUnlock].
Proof.
  intros Hth Hfree. eexists. split.
  - change (Run t) with (notify_decision t None).
    solo_step ltac:(simp; cbv beta iota delta [body clear_body];
                    rewrite (acquire_free _ _ Hfree); reflexivity).
    solo_step ltac:(reflexivity).
    solo_step ltac:(reflexivity).
    solo_finish.
    replace (release (deque_clear (locked_by t (state c))))
      with (deque_clear (state c))
      by (destruct c as [[] ?]; simpl in *; by subst).
    reflexivity.
  - reflexivity.
Qed.

(** A waiting function, alone from a free mutex and a non-empty
    collection: three statements, no wait. *)
Lemma solo_await c t m action rest rs s1 r ev :
  action_of m = Some action →
  threads c !! t = Some (Thread (m :: rest) Entry rs) →
  mutex (state c) = None → collection (state c) ≠ [] →
  action (locked_by t (state c)) = Some (s1, r, ev) →
  ∃ ms, exec [Run t; Run t; Run t] c =
          Some (Config (release s1)
                  (<[t := Thread rest Entry (rs ++ [r])]> (threads c)),
                ms) ∧
        labels ms = [By t EvLock; By t ev; By t EvUnlock].
Proof.
  intros Hm Hth Hfree Hne Ha. eexists. split.
  - change (Run t) with (notify_decision t None).
    solo_step ltac:(rewrite (body_action _ _ Hm); simp;
                    unfold await_nonempty;
                    rewrite (acquire_free _ _ Hfree); reflexivity).
    solo_step ltac:(rewrite (body_action _ _ Hm); simp;
                    unfold await_nonempty;
                    destruct (collection (state c)) eqn:Hc; [done|];
                    cbn [locked_by collection]; rewrite Hc;
                    fold (locked_by t (state c)); rewrite Ha; reflexivity).
    solo_step ltac:(rewrite (body_action _ _ Hm); simp;
                    unfold await_nonempty; reflexivity).
    solo_finish. reflexivity.
  - reflexivity.
Qed.

(** A waiting function that finds the collection empty: it releases the
    mutex, joins the waiters, and has no further statement to execute
    until it is taken off the waiters. *)
Lemma solo_await_blocks c t m action rest rs :
  action_of m = Some action →
  threads c !! t = Some (Thread (m :: rest) Entry rs) →
  mutex (state c) = None → collection (state c) = [] →
  ∃ ms c', exec [Run t; Run t] c = Some (c', ms) ∧
           labels ms = [By t EvLock; By t EvWait] ∧
           state c' = cv_wait t (state c) ∧
           threads c' = <[t := Thread (m :: rest) Waiting rs]> (threads c) ∧
           step (Run t) c' = None.
Proof.
  intros Hm Hth Hfree Hc. eexists _, _. split; [|split; [|split; [|split]]].
  - change (Run t) with (notify_decision t None).
    solo_step ltac:(rewrite (body_action _ _ Hm); simp;
                    unfold await_nonempty;
                    rewrite (acquire_free _ _ Hfree); reflexivity).
    solo_step ltac:(rewrite (body_action _ _ Hm); simp;
                    unfold await_nonempty;
                    cbn [locked_by collection]; rewrite Hc; reflexivity).
    solo_finish. reflexivity.
  - reflexivity.
  - reflexivity.
  - reflexivity.
  - cbn [step]. unfold run. simp. rewrite lookup_insert_eq.
    cbn [mbind option_bind calls head at_pc].
    rewrite (body_action _ _ Hm). unfold await_nonempty, cv_resume.
    simp. rewrite decide_True by set_solver. reflexivity.
Qed.

(** [empty] waits whatever the collection holds. *)
Lemma solo_empty_blocks c t rest rs :
  threads c !! t = Some (Thread (empty :: rest) Entry rs) →
  mutex (state c) = None →
  ∃ ms c', exec [Run t; Run t] c = Some (c', ms) ∧
           labels ms = [By t EvLock; By t EvWait] ∧
           state c' = cv_wait t (state c) ∧
           threads c' = <[t := Thread (empty :: rest) Waiting rs]> (threads c) ∧
           step (Run t) c' = None.
Proof.
  intros Hth Hfree. eexists _, _. split; [|split; [|split; [|split]]].
  - change (Run t) with (notify_decision t None).
    solo_step ltac:(simp; cbv beta iota delta [body empty_body];
                    rewrite (acquire_free _ _ Hfree); reflexivity).
    solo_step ltac:(reflexivity).
    solo_finish. reflexivity.
  - reflexivity.
  - reflexivity.
  - reflexivity.
  - cbn [step]. unfold run. simp. rewrite lookup_insert_eq.
    cbn [mbind option_bind calls head at_pc body empty_body].
    unfold cv_resume. simp. rewrite decide_True by set_solver. reflexivity.
Qed.

(** With the mutex free, every thread at the entry of a call can take its
    first statement. *)
Lemma entry_enabled c u thu m :
  mutex (state c) = None → threads c !! u = Some thu →
  at_pc thu = Entry → head (calls thu) = Some m →
  is_Some (step (Run u) c).
Proof.
  intros Hfree Hth Hp Hm. cbn [step]. unfold run.
  rewrite Hth. cbn [mbind option_bind]. rewrite Hm. cbn [mbind option_bind].
  rewrite Hp.
  assert (body m u Entry None (state c)
          = Some (locked_by u (state c), Next Locked, EvLock)) as ->.
  { destruct m; cbv beta iota delta [body];
      unfold addData_protected, clear_body, await_nonempty, empty_body;
      rewrite (acquire_free _ _ Hfree); reflexivity. }
  cbn [mbind option_bind]. eauto.
Qed.

(** [notify_one] can always be executed: with no waiter it does nothing,
    otherwise some waiter is there to be picked. *)
Lemma notify_always_possible s :
  ∃ pick s', cv_notify_one pick s = Some s'.
Proof.
  destruct (decide (waiters s = ∅)) as [He|Hne].
  - exists None, s. apply cv_notify_one_Some. left. done.
  - apply set_choose_L in Hne as [w Hw].
    exists (Some w). eexists. apply cv_notify_one_Some. right. eauto.
Qed.

(** ** Histories of the waiting functions *)

Lemma rounds_events t hw :
  wait_rounds t hw →
  Forall (λ e, e = EvWait ∨ e = EvResume) (map (λ y, y.1.2) hw).
Proof.
  induction 1 as [|sa sb sb' h Hc Hr Hw IH]; [constructor|].
  cbn [map fst snd]. constructor; [by left|]. constructor; [by right|].
  exact IH.
Qed.

Lemma uninterrupted_cons2 t (a b : shared T * event T * shared T) h :
  uninterrupted t (a :: b :: h) ↔
  (mutex a.2 = Some t ↔ mutex b.1.1 = Some t) ∧
  (mutex a.2 = Some t → collection b.1.1 = collection a.2) ∧
  uninterrupted t (b :: h).
Proof. destruct a as [[??]?], b as [[??]?]. reflexivity. Qed.

(** After the rounds of waiting the thread owns the mutex again. *)
Lemma rounds_keep_owner t hw :
  wait_rounds t hw →
  ∀ sp ep sp' s1 e1 s1' rest,
    mutex sp' = Some t →
    uninterrupted t ((sp, ep, sp') :: hw ++ (s1, e1, s1') :: rest) →
    mutex s1 = Some t.
Proof.
  induction 1 as [|sa sb sb' h Hc Hr Hw IH];
    intros sp ep sp' s1 e1 s1' rest Ho Hu.
  - cbn [app] in Hu. apply uninterrupted_cons2 in Hu as ([Hm _] & _ & _).
    by apply Hm.
  - cbn [app] in Hu. apply uninterrupted_cons2 in Hu as (_ & _ & Hu).
    apply uninterrupted_cons2 in Hu as (_ & _ & Hu).
    apply cv_resume_Some in Hr as [_ [_ ->]%acquire_Some].
    eapply (IH sb EvResume _ s1 e1 s1' rest); [|exact Hu]. reflexivity.
Qed.

Lemma uninterrupted_app_r t h1 h2 :
  uninterrupted t (h1 ++ h2) → uninterrupted t h2.
Proof.
  induction h1 as [|[[s e] s'] h1 IH]; [done|].
  intros Hu. apply IH. cbn [app] in Hu.
  destruct (h1 ++ h2) as [|[[??]?] ?]; [done|].
  cbn [uninterrupted] in Hu. by destruct Hu as (_ & _ & Hu).
Qed.

(** What [pop_front] and [pop_back] do once the collection is not
    empty. *)
Lemma pop_action_Some m action s s' r ev :
  m = pop_front ∨ m = pop_back → action_of m = Some action →
  action s = Some (s', r, ev) ↔
  ∃ x l, collection s = at_end m x l ∧
         s' = Shared l (next_addr s) (mutex s) (waiters s) ∧
         r = RVoid ∧ ev = EvRemove (cell_val x).
Proof.
  intros [-> | ->] [= <-]; unfold at_end; cbn [at_front].
  - apply pop_front_action_Some.
  - rewrite pop_back_action_Some. split.
    + intros (l & x & ?). exists x, l. done.
    + intros (x & l & ?). exists l, x. done.
Qed.

Lemma at_end_not_nil m x (l : list (cell T)) : at_end m x l ≠ [].
Proof. unfold at_end. destruct (at_front m), l; done. Qed.

(** ** [empty], [size], [front] and [back] *)

Lemma exec_spurious w sched c :
  w ∈ waiters (state c) →
  exec (Spurious w :: sched) c =
    '(c2, ms) ← exec sched
        (Config (Shared (collection (state c)) (next_addr (state c))
                        (mutex (state c)) (waiters (state c) ∖ {[w]}))
                (threads c));
    Some (c2, (state c, SpuriousWake w,
               Shared (collection (state c)) (next_addr (state c))
                      (mutex (state c)) (waiters (state c) ∖ {[w]})) :: ms).
Proof. intros Hw. cbn [exec step]. rewrite decide_True by done. reflexivity. Qed.

(** [empty] alone, woken spuriously: it hands back whether the collection
    is empty, which it is when nothing was inserted meanwhile. *)
Lemma solo_empty_spurious c t rest rs :
  threads c !! t = Some (Thread (empty :: rest) Entry rs) →
  mutex (state c) = None →
  ∃ ms c',
    exec [Run t; Run t; Spurious t; Run t; Run t; Run t] c = Some (c', ms) ∧
    labels ms =
      [By t EvLock; By t EvWait; SpuriousWake t; By t EvResume;
       By t (EvEval (RBool (bool_decide (collection (state c) = []))));
       By t EvUnlock] ∧
    threads c' !! t =
      Some (Thread rest Entry
              (rs ++ [RBool (bool_decide (collection (state c) = []))])) ∧
    collection (state c') = collection (state c) ∧
    mutex (state c') = None.
Proof.
  intros Hth Hfree. eexists _, _. split; [|split; [|split; [|split]]].
  - change (Run t) with (notify_decision t None).
    solo_step ltac:(simp; cbv beta iota delta [body empty_body];
                    rewrite (acquire_free _ _ Hfree); reflexivity).
    solo_step ltac:(reflexivity).
    rewrite exec_spurious
      by (simp; apply elem_of_union; left; by apply elem_of_singleton).
    solo_step ltac:(simp; cbv beta iota delta [body empty_body];
                    unfold cv_resume; simp;
                    rewrite decide_False
                      by (intros [_ Hn]%elem_of_difference; apply Hn;
                          by apply elem_of_singleton);
                    reflexivity).
    solo_step ltac:(reflexivity).
    solo_step ltac:(reflexivity).
    solo_finish. reflexivity.
  - reflexivity.
  - simp. apply lookup_insert_eq.
  - reflexivity.
  - reflexivity.
Qed.

Lemma to_uint_small z : (0 ≤ z < 2 ^ uint_bits)%Z → to_uint z = z.
Proof. intros Hz. unfold to_uint. by apply Z.mod_small. Qed.

(** What [size] hands back in any run: the count of a non-empty
    collection, read with the mutex owned, narrowed to [uint]. *)
Lemma size_reads_nonempty_count sched c c' ms t rest rs r :
  exec sched c = Some (c', ms) →
  threads c !! t = Some (Thread (size :: rest) Entry rs) →
  threads c' !! t = Some (Thread rest Entry (rs ++ [r])) →
  ∃ n, 1 ≤ n ∧ r = RUInt (to_uint (Z.of_nat n)) ∧
       ((Z.of_nat n < 2 ^ uint_bits)%Z → r = RUInt (Z.of_nat n)).
Proof.
  intros He Hth Hth'.
  pose proof (complete_call_flow _ _ _ _ _ _ _ _ _ _ He Hth Hth') as Hf.
  apply (flow_await _ _ size_action) in Hf; [|reflexivity].
  destruct Hf as (s0 & s0' & h' & _ & _ & hw & s1 & ev & s1' & s2 & _ & _ & Hne & Ha).
  apply size_action_Some in Ha as (_ & -> & _).
  exists (length (collection s1)). split.
  - destruct (collection s1); [done|simpl; lia].
  - split; [done|]. intros Hlt. unfold deque_size.
    rewrite to_uint_small; [done|lia].
Qed.

(** What [front] and [back] hand back in any run: the address of the
    slot at their end of a non-empty collection, converted to [T]; the
    collection is left as it is. *)
Lemma peek_returns_converted_address sched c c' ms t m rest rs r :
  m = front ∨ m = back →
  exec sched c = Some (c', ms) →
  threads c !! t = Some (Thread (m :: rest) Entry rs) →
  threads c' !! t = Some (Thread rest Entry (rs ++ [r])) →
  ∃ x l s1 hw s0 s2,
    r = RValue (from_ptr (slot_ptr (cell_addr x))) ∧
    history_of t ms =
      (s0, EvLock, locked_by t s0) :: hw ++
      [(s1, EvEval r, s1); (s2, EvUnlock, release s2)] ∧
    wait_rounds t hw ∧ collection s1 = at_end m x l.
Proof.
  intros Hm He Hth Hth'.
  pose proof (complete_call_flow _ _ _ _ _ _ _ _ _ _ He Hth Hth') as Hf.
  destruct Hm as [-> | ->].
  - apply (flow_await _ _ front_action) in Hf; [|reflexivity].
    destruct Hf as (s0 & s0' & h' & -> & Hacq & hw & s1 & ev & s1' & s2 & -> & Hw & Hne & Ha).
    apply acquire_Some in Hacq as [_ ->].
    apply front_action_Some in Ha as (x & l & Hc & -> & -> & ->).
    exists x, l, s1, hw, s0, s2. done.
  - apply (flow_await _ _ back_action) in Hf; [|reflexivity].
    destruct Hf as (s0 & s0' & h' & -> & Hacq & hw & s1 & ev & s1' & s2 & -> & Hw & Hne & Ha).
    apply acquire_Some in Hacq as [_ ->].
    apply back_action_Some in Ha as (l & x & Hc & -> & -> & ->).
    exists x, l, s1, hw, s0, s2. done.
Qed.

(** A pool of threads that have not started is well formed. *)
Lemma spawn_lookup (progs : list (list (method Args))) t th :
  spawn (T:=T) progs !! t = Some th → at_pc th = Entry.
Proof.
  unfold spawn. intros Hl. apply elem_of_list_to_map_2 in Hl.
  apply elem_of_lookup_imap_1 in Hl as (i & prog & [= -> ->] & _). done.
Qed.

Lemma wf_start (progs : list (list (method Args))) :
  wf (start (T:=T) progs).
Proof.
  intros t th Hth. apply spawn_lookup in Hth. rewrite Hth. simpl.
  split; discriminate.
Qed.

(** [size] alone on a collection of exactly 2^32 elements: the count is
    narrowed to 0. *)
Lemma solo_size_wraps (col : list (cell T)) n ws
    (thr : gmap tid (thread T Args)) t rest rs :
  thr !! t = Some (Thread (size :: rest) Entry rs) →
  Z.of_nat (length col) = (2 ^ uint_bits)%Z →
  ∃ ms c',
    exec [Run t; Run t; Run t] (Config (Shared col n None ws) thr)
      = Some (c', ms) ∧
    labels ms = [By t EvLock; By t (EvEval (RUInt 0)); By t EvUnlock] ∧
    returned_by t c' = rs ++ [RUInt 0] ∧
    collection (state c') = col.
Proof.
  intros Hth Hlen.
  assert (col ≠ []) as Hne by (intros ->; discriminate Hlen).
  assert (to_uint (Z.of_nat (length col)) = 0%Z) as Hz
    by (rewrite Hlen; reflexivity).
  destruct (solo_await (Config (Shared col n None ws) thr) t size
              size_action rest rs _ _ _ eq_refl Hth eq_refl Hne eq_refl)
    as (ms & He & Hl).
  unfold deque_size in He, Hl. cbn [locked_by state collection] in He, Hl.
  rewrite Hz in He, Hl.
  exists ms. eexists. split; [exact He|]. split; [exact Hl|]. split.
  - unfold returned_by. cbn [threads]. rewrite lookup_insert_eq. reflexivity.
  - reflexivity.
Qed.

(** ** Two producers and a drain *)

Lemma drop_head_lookup {A} (l : list A) k (y : A) :
  head (drop k l) = Some y → l !! k = Some y.
Proof. rewrite head_lookup, lookup_drop, Nat.add_0_r. done. Qed.

Lemma tail_drop {A} (l : list A) k : tail (drop k l) = drop (S k) l.
Proof.
  revert l. induction k as [|k IH]; intros [|x l]; simpl; rewrite ?drop_0;
    auto.
Qed.

Lemma producer_step prog vals t th m pick s s' o ev :
  constructs prog vals → producer_ok prog th → head (calls th) = Some m →
  body m t (at_pc th) pick s = Some (s', o, ev) →
  producer_ok prog (advance th o) ∧
  (waiters s = ∅ → waiters s' = ∅) ∧
  ((inserted (advance th o) = inserted th ∧ collection s' = collection s) ∨
   (∃ v, vals !! inserted th = Some v ∧ prog !! inserted th = Some m ∧
         inserted (advance th o) = S (inserted th) ∧
         collection s' = collection (deque_insert m v s))).
Proof.
  intros Hcs [Hcalls Hpc] Hm Hb. destruct th as [cs p rs]. simp. subst cs.
  apply drop_head_lookup in Hm.
  destruct (Forall2_lookup_l _ _ _ _ _ Hcs Hm) as (v & Hv & a & Ha & Hc).
  pose proof (lookup_lt_Some _ _ _ Hm) as Hlt.
  rewrite (body_insertion _ _ Ha) in Hb.
  apply addData_protected_inv in Hb; break_up; subst; simp;
    unfold producer_ok, inserted; simp.
  - apply acquire_Some in H2 as [_ ->]. simp.
    split; [done|]. split; [done|]. left. done.
  - apply insertion_fct_Some in H2 as [Hc' ->].
    assert (x = v) as -> by congruence.
    split; [done|]. split.
    { unfold deque_insert. destruct (at_front m); done. }
    right. exists v. rewrite !Nat.add_0_r. split; [done|]. split; [done|].
    split; [lia|done].
  - apply insertion_fct_None in H2. congruence.
  - split; [done|]. split; [done|]. left. done.
  - rewrite tail_drop, length_app. simpl.
    split; [split; [f_equal; lia|done]|].
    apply cv_notify_one_Some in H1 as [(_ & _ & ->)|(w' & _ & Hw & ->)].
    + split; [done|]. left. split; [lia|done].
    + split; [intros He; rewrite He in Hw; by apply not_elem_of_empty in Hw|].
      left. split; [simpl; lia|done].
  - done.
Qed.

Lemma spawn_lookup_ge (progs : list (list (method Args))) t :
  length progs ≤ t → spawn (T:=T) progs !! t = None.
Proof.
  intros Hle. unfold spawn. apply not_elem_of_list_to_map_1.
  intros Hin. apply list_elem_of_fmap in Hin as ([i th] & -> & Hin).
  apply elem_of_lookup_imap_1 in Hin as (j & prog & [= -> ->] & Hj).
  apply lookup_lt_Some in Hj. simpl in Hle. lia.
Qed.

Lemma producers_inv_start (a0 a1 a2 : Args) (v0 v1 v2 : T) :
  producers_inv a0 a1 a2 v0 v1 v2 (producers a0 a1 a2).
Proof.
  exists (Thread [push_back a1; push_back a2] Entry []),
         (Thread [push_front a0] Entry []).
  split; [reflexivity|]. split; [reflexivity|]. split; [reflexivity|].
  split; [intros t Ht; apply spawn_lookup_ge; simpl; lia|].
  split; [by split|]. split; [by split|]. done.
Qed.

Lemma producers_inv_step (a0 a1 a2 : Args) (v0 v1 v2 : T) d c c'
    (l : label T) :
  construct a0 = Some v0 → construct a1 = Some v1 → construct a2 = Some v2 →
  producers_inv a0 a1 a2 v0 v1 v2 c →
  step d c = Some (c', l) → (∀ e, l ≠ By 2 e) →
  producers_inv a0 a1 a2 v0 v1 v2 c'.
Proof.
  intros Hv0 Hv1 Hv2
    (thA & thB & HA & HB & HD & Hhi & HokA & HokB & Hw & Hmx & Hex & Hcont)
    Hs Hl.
  assert (constructs [push_back a1; push_back a2] [v1; v2]) as HcA
    by (repeat constructor; eauto).
  assert (constructs [push_front a0] [v0]) as HcB
    by (repeat constructor; eauto).
  apply step_inv in Hs
    as [(u & pick & _ & Hr)|(w & _ & _ & Hin & _)];
    [|rewrite Hw in Hin; by apply not_elem_of_empty in Hin].
  apply run_inv in Hr as (th & m & s' & o & ev & Hth & Hm & Hb & -> & ->).
  assert (at_pc (advance th o) = target o) as Hpc by (by destruct o).
  destruct u as [|[|[|u]]].
  - (* thread 0 appends *)
    rewrite HA in Hth. injection Hth as <-.
    destruct (producer_step _ _ _ _ _ _ _ _ _ _ HcA HokA Hm Hb)
      as (Hok' & Hw' & Hcol).
    exists (advance thA o), thB. simp.
    rewrite lookup_insert_eq, !lookup_insert_ne by done.
    split; [done|]. split; [done|]. split; [done|].
    split; [intros t Ht; rewrite lookup_insert_ne by lia; by apply Hhi|].
    split; [done|]. split; [done|]. split; [by apply Hw'|].
    rewrite Hpc.
    assert (mutex s' = (if holding (target o) then Some 0
                        else if holding (at_pc thB) then Some 1 else None) ∧
            (holding (target o) = true → holding (at_pc thB) = false))
      as [Hmx' Hex'].
    { apply body_mutex in Hb as [Hb|[Hb|[Hb|Hb]]];
        destruct Hb as (Hp & Ht & Hb); rewrite Hp in Hmx, Hex; rewrite Ht.
      - destruct Hb as (Hn & -> & _). rewrite Hn in Hmx.
        split; [done|]. intros _. by destruct (holding (at_pc thB)).
      - rewrite Hb. split; [done|]. done.
      - destruct Hb as [-> _]. rewrite (Hex eq_refl). done.
      - destruct Hb as [-> _]. done. }
    split; [done|]. split; [done|].
    unfold contents in *.
    destruct Hcol as [[-> ->]|(v & Hv & Hp & -> & ->)]; [done|].
    assert (at_front m = false) as Hf.
    { destruct (inserted thA) as [|[|?]]; simpl in Hp; [| |done];
        injection Hp as <-; done. }
    unfold deque_insert. rewrite Hf. simp.
    rewrite map_app, Hcont, (take_S_r _ _ _ Hv), app_assoc. done.
  - (* thread 1 prepends *)
    rewrite HB in Hth. injection Hth as <-.
    destruct (producer_step _ _ _ _ _ _ _ _ _ _ HcB HokB Hm Hb)
      as (Hok' & Hw' & Hcol).
    exists thA, (advance thB o). simp.
    rewrite lookup_insert_eq, !lookup_insert_ne by done.
    split; [done|]. split; [done|]. split; [done|].
    split; [intros t Ht; rewrite lookup_insert_ne by lia; by apply Hhi|].
    split; [done|]. split; [done|]. split; [by apply Hw'|].
    rewrite Hpc.
    assert (mutex s' = (if holding (at_pc thA) then Some 0
                        else if holding (target o) then Some 1 else None) ∧
            (holding (at_pc thA) = true → holding (target o) = false))
      as [Hmx' Hex'].
    { apply body_mutex in Hb as [Hb|[Hb|[Hb|Hb]]];
        destruct Hb as (Hp & Ht & Hb); rewrite Hp in Hmx, Hex; rewrite Ht.
      - destruct Hb as (Hn & -> & _). rewrite Hn in Hmx.
        destruct (holding (at_pc thA)); done.
      - rewrite Hb. split; [done|]. intros Ha. by specialize (Hex Ha).
      - destruct Hb as [-> _].
        destruct (holding (at_pc thA)); [by specialize (Hex eq_refl)|done].
      - destruct Hb as [-> _]. done. }
    split; [done|]. split; [done|].
    unfold contents in *.
    destruct Hcol as [[-> ->]|(v & Hv & Hp & -> & ->)]; [done|].
    destruct (inserted thB) as [|?]; simpl in Hp, Hv; [|done].
    injection Hp as <-. injection Hv as <-.
    unfold deque_insert. simp. cbn [at_front]. simp.
    cbn [map cell_val]. rewrite Hcont. done.
  - by destruct (Hl ev).
  - rewrite Hhi in Hth by lia. done.
Qed.

Lemma producers_inv_exec (a0 a1 a2 : Args) (v0 v1 v2 : T) sched c c' ms :
  construct a0 = Some v0 → construct a1 = Some v1 → construct a2 = Some v2 →
  producers_inv a0 a1 a2 v0 v1 v2 c →
  exec sched c = Some (c', ms) → history_of 2 ms = [] →
  producers_inv a0 a1 a2 v0 v1 v2 c'.
Proof.
  intros Hv0 Hv1 Hv2. revert c ms.
  induction sched as [|d sched IH]; intros c ms Hinv He Hh.
  - by injection He as <- <-.
  - apply exec_cons_inv in He as (c1 & l & ms' & Hs & He & ->).
    destruct (label_own_or_not l 2) as [[e ->]|Hl].
    + by rewrite history_of_own in Hh.
    + rewrite history_of_other in Hh by done.
      eapply IH; [|exact He|exact Hh].
      eapply producers_inv_step; eauto.
Qed.

Lemma labels_app (ms1 ms2 : list (moment T)) :
  labels (ms1 ++ ms2) = labels ms1 ++ labels ms2.
Proof. apply map_app. Qed.

(** One round of the drain running alone: [front] hands back the
    converted address of the first cell, [pop_front] removes that cell. *)
Lemma drain_one c t (x : cell T) (l : list (cell T)) rest rs :
  threads c !! t = Some (Thread (front :: pop_front :: rest) Entry rs) →
  mutex (state c) = None → collection (state c) = x :: l →
  ∃ ms,
    exec (replicate 6 (Run t)) c =
      Some (Config (Shared l (next_addr (state c)) None (waiters (state c)))
              (<[t := Thread rest Entry
                        (rs ++ [RValue (from_ptr (slot_ptr (cell_addr x)));
                                RVoid])]> (threads c)),
            ms) ∧
    labels ms =
      [By t EvLock;
       By t (EvEval (RValue (from_ptr (slot_ptr (cell_addr x)))));
       By t EvUnlock;
       By t EvLock; By t (EvRemove (cell_val x)); By t EvUnlock].
Proof.
  intros Hth Hfree Hc.
  assert (collection (state c) ≠ []) as Hne by (by rewrite Hc).
  destruct (solo_await c t front front_action (pop_front :: rest) rs
              (locked_by t (state c))
              (RValue (from_ptr (slot_ptr (cell_addr x))))
              (EvEval (RValue (from_ptr (slot_ptr (cell_addr x)))))
              eq_refl Hth Hfree Hne) as (ms1 & He1 & Hl1).
  { apply front_action_Some. exists x, l. done. }
  rewrite (release_locked_by _ _ Hfree) in He1.
  set (c1 := Config (state c)
               (<[t := Thread (pop_front :: rest) Entry
                         (rs ++ [RValue (from_ptr (slot_ptr (cell_addr x)))])]>
                  (threads c))) in *.
  destruct (solo_await c1 t pop_front pop_front_action rest
              (rs ++ [RValue (from_ptr (slot_ptr (cell_addr x)))])
              (Shared l (next_addr (state c)) (Some t) (waiters (state c)))
              RVoid (EvRemove (cell_val x))
              eq_refl (lookup_insert_eq _ _ _) Hfree Hne) as (ms2 & He2 & Hl2).
  { apply pop_front_action_Some. exists x, l. done. }
  exists (ms1 ++ ms2). split.
  - change (replicate 6 (Run t))
      with ([Run t; Run t; Run t] ++ [Run t; Run t; Run t]).
    rewrite (exec_app _ _ _ _ _ He1), He2. cbn [mbind option_bind].
    subst c1. simp. rewrite insert_insert_eq, <- app_assoc. reflexivity.
  - rewrite labels_app, Hl1, Hl2. reflexivity.
Qed.

(** However the three insertions interleave, once both producers have
    finished and before the drain starts, the collection holds the three
    elements in the order 0, 1, 2; the drain then removes them in this
    order, and each [front] hands back the converted address of the cell
    it looks at, whatever that cell holds. *)
Lemma producers_then_drain (a0 a1 a2 : Args) (v0 v1 v2 : T) sched c1 ms1
    thA thB :
  construct a0 = Some v0 → construct a1 = Some v1 → construct a2 = Some v2 →
  exec sched (producers a0 a1 a2) = Some (c1, ms1) →
  threads c1 !! 0 = Some thA → calls thA = [] →
  threads c1 !! 1 = Some thB → calls thB = [] →
  threads c1 !! 2 = Some (Thread drain_calls Entry []) →
  ∃ x0 x1 x2 c2 ms2,
    collection (state c1) = [x0; x1; x2] ∧
    cell_val x0 = v0 ∧ cell_val x1 = v1 ∧ cell_val x2 = v2 ∧
    exec (replicate 18 (Run 2)) c1 = Some (c2, ms2) ∧
    returned_by 2 c2 =
      [RValue (from_ptr (slot_ptr (cell_addr x0))); RVoid;
       RValue (from_ptr (slot_ptr (cell_addr x1))); RVoid;
       RValue (from_ptr (slot_ptr (cell_addr x2))); RVoid] ∧
    removals (labels ms2) = [v0; v1; v2] ∧
    collection (state c2) = [].
Proof.
  intros Hv0 Hv1 Hv2 He HA HcA HB HcB HD.
  assert (history_of 2 ms1 = []) as Hh.
  { destruct (exec_rank _ _ _ _ 2 _ He (eq_refl : threads (producers a0 a1 a2) !! 2 = Some (Thread drain_calls Entry [])))
      as (th' & Hth' & _ & Hlt).
    rewrite HD in Hth'. injection Hth' as <-.
    destruct (history_of 2 ms1); [done|].
    assert (rank (Thread (T:=T) drain_calls Entry []) < rank (Thread (T:=T) drain_calls Entry []))
      by (by apply Hlt). lia. }
  destruct (producers_inv_exec a0 a1 a2 v0 v1 v2 _ _ _ _ Hv0 Hv1 Hv2
              (producers_inv_start _ _ _ _ _ _) He Hh)
    as (thA' & thB' & HA' & HB' & _ & _ & [HokA HpA] & [HokB HpB] & Hw & Hmx & _ & Hcont).
  rewrite HA in HA'. injection HA' as <-.
  rewrite HB in HB'. injection HB' as <-.
  rewrite HcA in HokA. rewrite HcB in HokB.
  symmetry in HokA, HokB.
  apply (f_equal length) in HokA, HokB. rewrite length_drop in HokA, HokB.
  simpl in HokA, HokB.
  assert (at_pc thA = Entry) as HeA
    by (revert HpA; destruct (at_pc thA); simpl; intros; (done || lia)).
  assert (at_pc thB = Entry) as HeB
    by (revert HpB; destruct (at_pc thB); simpl; intros; (done || lia)).
  rewrite HeA, HeB in Hmx. simpl in Hmx.
  unfold inserted in Hcont. rewrite HeA, HeB, !Nat.add_0_r in Hcont.
  rewrite !take_ge in Hcont by (simpl; lia). unfold contents in Hcont.
  destruct (collection (state c1)) as [|x0 [|x1 [|x2 [|??]]]] eqn:Hcol;
    try discriminate Hcont.
  injection Hcont as Hx0 Hx1 Hx2.
  destruct (drain_one c1 2 x0 [x1; x2] _ _ HD Hmx Hcol) as (msa & Hea & Hla).
  set (ca := Config _ _) in Hea.
  destruct (drain_one ca 2 x1 [x2] _ _ (lookup_insert_eq _ _ _) eq_refl eq_refl)
    as (msb & Heb & Hlb).
  set (cb := Config _ _) in Heb.
  destruct (drain_one cb 2 x2 [] _ _ (lookup_insert_eq _ _ _) eq_refl eq_refl)
    as (msc & Hec & Hlc).
  exists x0, x1, x2. eexists _, (msa ++ msb ++ msc).
  split; [done|]. split; [done|]. split; [done|]. split; [done|].
  split; [|split; [|split]].
  - change (replicate 18 (Run 2))
      with (replicate 6 (Run 2) ++ replicate 6 (Run 2) ++ replicate 6 (Run 2)).
    rewrite (exec_app _ _ _ _ _ Hea). rewrite (exec_app _ _ _ _ _ Heb).
    rewrite Hec. cbn [mbind option_bind]. reflexivity.
  - unfold returned_by. simp. rewrite lookup_insert_eq. reflexivity.
  - rewrite !labels_app, Hla, Hlb, Hlc. simpl. congruence.
  - reflexivity.
Qed.

(** The five functions with the loop, in any run: a completed call has
    locked, waited as long as it found the collection empty, run its
    action on a non-empty collection and unlocked. *)
Lemma await_history sched c c' ms t m action rest rs r :
  action_of m = Some action →
  exec sched c = Some (c', ms) →
  threads c !! t = Some (Thread (m :: rest) Entry rs) →
  threads c' !! t = Some (Thread rest Entry (rs ++ [r])) →
  ∃ s0 hw s1 ev s1' s2,
    history_of t ms =
      (s0, EvLock, locked_by t s0) :: hw ++
      [(s1, ev, s1'); (s2, EvUnlock, release s2)] ∧
    wait_rounds t hw ∧ collection s1 ≠ [] ∧
    action s1 = Some (s1', r, ev).
Proof.
  intros Hm He Hth Hth'.
  pose proof (complete_call_flow _ _ _ _ _ _ _ _ _ _ He Hth Hth') as Hf.
  apply (flow_await _ _ _ _ _ _ Hm) in Hf
    as (s0 & s0' & h' & -> & Hacq & hw & s1 & ev & s1' & s2 & -> & Hw & Hne & Ha).
  apply acquire_Some in Hacq as [_ ->]. eauto 10.
Qed.

(** * Whole runs *)

(** ** The collection and the mutex *)

(** What one statement does to the collection, by the event it records. *)
Lemma body_effect m t p pick s s' o ev :
  body m t p pick s = Some (s', o, ev) →
  match ev with
  | EvInsert v =>
      is_Some (insertion_arg m) ∧ p = Locked ∧ s' = deque_insert m v s
  | EvRemove v =>
      (m = pop_front ∨ m = pop_back) ∧ p = Locked ∧
      ∃ x l, collection s = at_end m x l ∧ cell_val x = v ∧
             collection s' = l
  | EvClear => m = clear ∧ p = Locked ∧ collection s' = []
  | EvEval _ =>
      query_call m = true ∧ holding p = true ∧ collection s' = collection s
  | _ => collection s' = collection s
  end.
Proof.
  intros Hb. body_inv Hb; prim_inv; simp; try reflexivity;
    unfold deque_insert, at_end; cbn [at_front insertion_arg query_call];
    eauto 10.
Qed.

Lemma step_under_lock d c c' (l : label T) t e :
  wf c → step d c = Some (c', l) → l = By t e →
  accesses e = true ∨ collection (state c') ≠ collection (state c) →
  mutex (state c) = Some t.
Proof.
  intros Hwf Hs -> Hacc.
  apply step_inv in Hs as [(u & pick & _ & Hr)|(w & _ & ? & _)]; [|done].
  apply run_inv in Hr as (th & m & s' & o & ev & Hth & _ & Hb & -> & [= <- <-]).
  apply (Hwf t th Hth). simp.
  destruct Hacc as [Hacc|Hch].
  - apply body_effect in Hb. destruct e; try discriminate Hacc.
    + by destruct Hb as (_ & -> & _).
    + by destruct Hb as (_ & -> & _).
    + by destruct Hb as (_ & -> & _).
    + by destruct Hb as (_ & -> & _).
  - apply body_mutex in Hb as [Hb|[Hb|[Hb|Hb]]].
    + by destruct Hb as (_ & _ & _ & _ & ?).
    + by destruct Hb as (? & _).
    + by destruct Hb as (_ & _ & _ & ?).
    + by destruct Hb as (_ & _ & _ & ?).
Qed.

(** X1.  The mutex protects the collection.  In every run from a
    well-formed configuration the configuration reached is well formed,
    at most one thread is between the construction of its lock and the
    matching unlock, and every statement that reads or changes
    [_collection] is executed by the thread that owns the mutex at that
    moment; a spurious wake-up leaves the collection as it is. *)
Theorem lock_discipline sched c c' ms :
  wf c → exec sched c = Some (c', ms) →
  wf c' ∧
  (∀ t u th tu,
     threads c' !! t = Some th → threads c' !! u = Some tu →
     holding (at_pc th) = true → holding (at_pc tu) = true → t = u) ∧
  Forall (λ mo : moment T,
            match mo.1.2 with
            | By t e =>
                accesses e = true ∨ collection mo.2 ≠ collection mo.1.1 →
                mutex mo.1.1 = Some t
            | SpuriousWake _ => collection mo.2 = collection mo.1.1
            end) ms.
Proof.
  intros Hwf He. split; [by eapply wf_exec|]. split.
  - pose proof (wf_exec _ _ _ _ Hwf He) as Hwf'.
    intros t u th tu Ht Hu Hht Hhu.
    apply (Hwf' t th Ht) in Hht. apply (Hwf' u tu Hu) in Hhu. congruence.
  - revert c ms Hwf He. induction sched as [|d sched IH]; intros c ms Hwf He.
    + injection He as <- <-. constructor.
    + apply exec_cons_inv in He as (c1 & l & ms' & Hs & He & ->).
      constructor; [|by eapply IH; [eapply wf_step|]].
      cbn [fst snd]. destruct l as [t e|w].
      * by eapply step_under_lock.
      * apply step_inv in Hs as [(u & pick & _ & Hr)|(w' & _ & _ & _ & _ & Hc & _)];
          [|done].
        apply run_inv in Hr as (? & ? & ? & ? & ? & _ & _ & _ & _ & ?). done.
Qed.

Lemma step_contents d c c' (l : label T) :
  step d c = Some (c', l) →
  match l with
  | By _ (EvInsert v) => contents (state c') ≡ₚ v :: contents (state c)
  | By _ (EvRemove v) => contents (state c) ≡ₚ v :: contents (state c')
  | By _ EvClear => contents (state c') = []
  | _ => contents (state c') = contents (state c)
  end.
Proof.
  intros Hs.
  apply step_inv in Hs as [(u & pick & _ & Hr)|(w & _ & -> & _ & _ & Hc & _)];
    [|unfold contents; by rewrite Hc].
  apply run_inv in Hr as (th & m & s' & o & ev & _ & _ & Hb & -> & ->).
  apply body_effect in Hb. unfold contents. simp.
  destruct ev; try (by rewrite Hb).
  - destruct Hb as (_ & _ & ->). unfold deque_insert.
    destruct (at_front m); simp; [done|].
    rewrite map_app. simpl. by rewrite Permutation_app_comm.
  - destruct Hb as (_ & _ & x & l & -> & <- & ->). unfold at_end.
    destruct (at_front m); [done|].
    rewrite map_app. simpl. by rewrite Permutation_app_comm.
  - by destruct Hb as (_ & _ & ->).
  - by destruct Hb as (_ & _ & ->).
Qed.

(** X2.  No element is lost and none is made up.  In every run the
    elements left in the collection, those removed by [pop_front] and
    [pop_back] and those discarded by [clear] are, up to order, the
    elements the collection held at the start and those inserted. *)
Theorem elements_are_conserved sched c c' ms :
  exec sched c = Some (c', ms) →
  contents (state c') ++ removals (labels ms) ++ cleared ms
    ≡ₚ contents (state c) ++ insertions (labels ms).
Proof.
  revert c ms. induction sched as [|d sched IH]; intros c ms He.
  - injection He as <- <-. simpl. by rewrite !app_nil_r.
  - apply exec_cons_inv in He as (c1 & l & ms' & Hs & He & ->).
    specialize (IH _ _ He). apply step_contents in Hs.
    change (labels ((state c, l, state c1) :: ms')) with (l :: labels ms').
    destruct l as [t [| | | | | v | v | | |]|w]; cbn [removals insertions cleared];
      try (by rewrite IH, Hs).
    + rewrite IH, Hs. apply Permutation_middle.
    + rewrite Hs. simpl. rewrite <- IH. symmetry. apply Permutation_middle.
    + rewrite Hs in IH. simpl in IH.
      rewrite (Permutation_app_swap_app (removals _) (contents (state c))).
      rewrite (Permutation_app_swap_app (contents (state c'))).
      by rewrite IH.
Qed.

(** ** The deque used as a queue *)

Lemma queue_use_step d c c' (l : label T) :
  queue_use c → step d c = Some (c', l) → queue_use c'.
Proof.
  intros Hq Hs.
  apply step_inv in Hs as [(u & pick & _ & Hr)|(w & _ & _ & _ & Ht & _)];
    [|intros t th; rewrite Ht; apply Hq].
  apply run_inv in Hr as (th & m & s' & o & ev & Hth & _ & _ & -> & _).
  intros t tht. simp. destruct (decide (t = u)) as [->|Hne].
  - rewrite lookup_insert_eq. intros [= <-]. specialize (Hq u th Hth).
    destruct o; simp; [done|]. destruct (calls th); [done|].
    by apply Forall_cons in Hq as [_ ?].
  - rewrite lookup_insert_ne by done. apply Hq.
Qed.

Lemma step_queue d c c' (l : label T) :
  queue_use c → step d c = Some (c', l) →
  match l with
  | By _ (EvInsert v) => contents (state c') = contents (state c) ++ [v]
  | By _ (EvRemove v) => contents (state c) = v :: contents (state c')
  | By _ EvClear => False
  | _ => contents (state c') = contents (state c)
  end.
Proof.
  intros Hq Hs.
  apply step_inv in Hs as [(u & pick & _ & Hr)|(w & _ & -> & _ & _ & Hc & _)];
    [|unfold contents; by rewrite Hc].
  apply run_inv in Hr as (th & m & s' & o & ev & Hth & Hm & Hb & -> & ->).
  assert (queue_call m = true) as Hqm.
  { specialize (Hq u th Hth). destruct (calls th); [done|].
    injection Hm as ->. by apply Forall_cons in Hq as [? _]. }
  apply body_effect in Hb. unfold contents. simp.
  destruct ev; try (by rewrite Hb).
  - destruct Hb as (Hi & _ & ->). unfold deque_insert.
    destruct m; try discriminate Hqm; try (by destruct Hi);
      cbn [at_front]; simp; by rewrite map_app.
  - destruct Hb as ([-> | ->] & _ & x & l & -> & <- & ->);
      [done|discriminate Hqm].
  - destruct Hb as (-> & _). discriminate Hqm.
  - by destruct Hb as (_ & _ & ->).
Qed.

(** X3.  First in, first out.  When every call of every thread is one
    of [emplace_back], [push_back], [pop_front], [front], [size] and
    [empty], then in every run, whatever the interleaving, the elements
    held at the start followed by the elements inserted, in the order of
    insertion, are the elements removed, in the order of removal,
    followed by the elements left. *)
Theorem queue_order sched c c' ms :
  queue_use c → exec sched c = Some (c', ms) →
  contents (state c) ++ insertions (labels ms)
    = removals (labels ms) ++ contents (state c').
Proof.
  revert c ms. induction sched as [|d sched IH]; intros c ms Hq He.
  - injection He as <- <-. simpl. by rewrite app_nil_r.
  - apply exec_cons_inv in He as (c1 & l & ms' & Hs & He & ->).
    specialize (IH _ _ (queue_use_step _ _ _ _ Hq Hs) He).
    apply (step_queue _ _ _ _ Hq) in Hs.
    change (labels ((state c, l, state c1) :: ms')) with (l :: labels ms').
    destruct l as [t [| | | | | v | v | | |]|w]; cbn [removals insertions];
      try (by rewrite <- IH, Hs).
    + rewrite <- IH, Hs, <- app_assoc. done.
    + rewrite Hs. simpl. by rewrite IH.
    + done.
Qed.

(** ** Waiting on an empty collection *)

Lemma history_of_in t (ms : list (moment T)) s e s' :
  (s, e, s') ∈ history_of t ms → (s, By t e, s') ∈ ms.
Proof.
  induction ms as [|[[s0 l] s0'] ms IH]; simpl; [by intros ?%elem_of_nil|].
  destruct l as [u e0|w].
  - destruct (decide (u = t)) as [->|].
    + intros [[= -> -> ->]|Hin]%elem_of_cons; [left|right; auto].
    + intros Hin. right. auto.
  - intros Hin. right. auto.
Qed.

Lemma empty_until_insertion sched c c' ms :
  exec sched c = Some (c', ms) → collection (state c) = [] →
  (∃ u v, By u (EvInsert v) ∈ labels ms) ∨
  Forall (λ mo : moment T, collection mo.1.1 = []) ms.
Proof.
  revert c ms. induction sched as [|d sched IH]; intros c ms He Hc.
  - injection He as <- <-. right. constructor.
  - apply exec_cons_inv in He as (c1 & l & ms' & Hs & He & ->).
    change (labels ((state c, l, state c1) :: ms')) with (l :: labels ms').
    pose proof (step_contents _ _ _ _ Hs) as Hl.
    assert (contents (state c) = []) as Hcc by (unfold contents; by rewrite Hc).
    assert ((∃ u v, l = By u (EvInsert v)) ∨ collection (state c1) = [])
      as [(u & v & ->)|Hc1].
    { destruct l as [t [| | | | | v | v | | |]|w]; eauto;
        right; rewrite ?Hcc in Hl; unfold contents in Hl;
        try (by eapply map_eq_nil).
      by apply Permutation_nil_cons in Hl. }
    + left. exists u, v. left.
    + destruct (IH _ _ He Hc1) as [(u & v & Hin)|Hall].
      * left. exists u, v. by right.
      * right. by constructor.
Qed.

(** X4.  [front], [back], [pop_front], [pop_back] and [size] called
    on an empty collection do not return before an insertion: a run in
    which such a call, started while the collection is empty, completes
    contains an insertion by some thread. *)
Theorem waiting_call_needs_an_insertion sched c c' ms t m action rest rs r :
  action_of m = Some action →
  exec sched c = Some (c', ms) → collection (state c) = [] →
  threads c !! t = Some (Thread (m :: rest) Entry rs) →
  threads c' !! t = Some (Thread rest Entry (rs ++ [r])) →
  ∃ u v, By u (EvInsert v) ∈ labels ms.
Proof.
  intros Hm He Hc Hth Hth'.
  destruct (empty_until_insertion _ _ _ _ He Hc) as [Hin|Hall]; [done|].
  destruct (await_history _ _ _ _ _ _ _ _ _ _ Hm He Hth Hth')
    as (s0 & hw & s1 & ev & s1' & s2 & Hh & _ & Hne & _).
  assert ((s1, ev, s1') ∈ history_of t ms) as Hin.
  { rewrite Hh. right. apply elem_of_app. right. left. }
  apply history_of_in in Hin.
  rewrite Forall_forall in Hall. by specialize (Hall _ Hin).
Qed.

(** ** The waiters *)

Ltac waiters_case :=
  let fin := solve [repeat (split || eexists);
                    first [reflexivity | assumption | discriminate
                          | intros ?; discriminate
                          | intros ? ?; discriminate]] in
  first [ left; fin | right; waiters_case | fin ].

(** What a statement does to the set of waiting threads. *)
Lemma body_waiters m t p pick s s' o ev :
  body m t p pick s = Some (s', o, ev) →
  (ev = EvWait ∧ p = Locked ∧ target o = Waiting ∧
     waiters s' = {[t]} ∪ waiters s) ∨
  (ev = EvResume ∧ p = Waiting ∧ (t ∉ waiters s) ∧ target o ≠ Waiting ∧
     waiters s' = waiters s) ∨
  (∃ w, ev = EvNotify (Some w) ∧ p = Unlocked ∧ w ∈ waiters s ∧
        target o = Entry ∧ waiters s' = waiters s ∖ {[w]}) ∨
  (ev ≠ EvWait ∧ ev ≠ EvResume ∧ (∀ w, ev ≠ EvNotify (Some w)) ∧
     p ≠ Waiting ∧ target o ≠ Waiting ∧ waiters s' = waiters s).
Proof.
  intros Hb. body_inv Hb; prim_inv; subst; simp; waiters_case.
Qed.

Lemma pending_le_1 t c : pending t c ≤ 1.
Proof.
  unfold pending. destruct (threads c !! t) as [th|]; [|lia].
  destruct (at_pc th); try lia.
  destruct (decide (t ∈ waiters (state c))); lia.
Qed.

Lemma pending_mono t c c' :
  threads c' !! t = threads c !! t →
  (t ∈ waiters (state c) → t ∈ waiters (state c')) →
  pending t c' ≤ pending t c.
Proof.
  intros Ht Hw. unfold pending. rewrite Ht.
  destruct (threads c !! t) as [th|]; [|lia].
  destruct (at_pc th); try lia.
  destruct (decide (t ∈ waiters (state c'))); [lia|].
  destruct (decide (t ∈ waiters (state c))); [|lia].
  exfalso. auto.
Qed.

Lemma resumes_cons t (l : label T) ls :
  resumes t (l :: ls) = resumes t [l] + resumes t ls.
Proof. destruct l as [u []|w]; cbn [resumes]; lia. Qed.

Lemma wakes_cons t (l : label T) ls :
  wakes t (l :: ls) = wakes t [l] + wakes t ls.
Proof. destruct l as [u [| | | |[w|]| | | | |]|w]; cbn [wakes]; lia. Qed.

Lemma step_wake_balance d c c' (l : label T) t :
  step d c = Some (c', l) →
  resumes t [l] + pending t c' ≤ wakes t [l] + pending t c.
Proof.
  intros Hs.
  apply step_inv in Hs
    as [(u & pick & _ & Hr)|(w & _ & -> & _ & Ht & _ & _ & Hw)].
  - apply run_inv in Hr as (th & m & s' & o & ev & Hth & _ & Hb & -> & ->).
    apply body_waiters in Hb.
    destruct (decide (u = t)) as [->|Hne].
    + unfold pending at 1. simp. rewrite lookup_insert_eq.
      replace (at_pc (advance th o)) with (target o) by (by destruct o).
      destruct Hb as [(-> & _ & -> & Hw)|[(-> & Hp & Hn & Ho & _)|
                     [(w & -> & _ & _ & -> & _)|(He1 & He2 & _ & _ & Ho & _)]]].
      * rewrite decide_True
          by (rewrite Hw; apply elem_of_union; left; by apply elem_of_singleton).
        cbn [resumes]. lia.
      * unfold pending. rewrite Hth, Hp.
        destruct (decide (t ∈ waiters (state c))); [done|].
        cbn [resumes]. rewrite decide_True by done.
        destruct (target o); try lia. done.
      * cbn [resumes]. lia.
      * assert (resumes t [By t ev] = 0) as ->
          by (destruct ev; try reflexivity; done).
        destruct (target o); try lia. done.
    + assert (resumes t [By u ev] = 0) as ->.
      { destruct ev; try reflexivity. cbn [resumes].
        rewrite decide_False by done. reflexivity. }
      assert (threads (Config s' (<[u:=advance th o]> (threads c))) !! t
              = threads c !! t) as Ht
        by (simp; by rewrite lookup_insert_ne).
      destruct Hb as [(-> & _ & _ & Hw)|[(-> & _ & _ & _ & Hw)|
                     [(w & -> & _ & _ & _ & Hw)|(_ & _ & _ & _ & _ & Hw)]]].
      * pose proof (pending_mono t c _ Ht) as Hp. simp.
        rewrite Hw in Hp. cbn [wakes].
        specialize (Hp ltac:(intros ?; apply elem_of_union; by right)). lia.
      * pose proof (pending_mono t c _ Ht) as Hp. simp.
        rewrite Hw in Hp. specialize (Hp ltac:(done)).
        cbn [wakes]. lia.
      * cbn [wakes]. destruct (decide (w = t)) as [->|Hwt].
        -- pose proof (pending_le_1 t (Config s' (<[u:=advance th o]> (threads c)))).
           lia.
        -- pose proof (pending_mono t c _ Ht) as Hp. simp.
           rewrite Hw in Hp.
           specialize (Hp ltac:(intros ?; apply elem_of_difference; split;
                                [done|by intros ->%elem_of_singleton])).
           lia.
      * pose proof (pending_mono t c _ Ht) as Hp. simp.
        rewrite Hw in Hp. specialize (Hp ltac:(done)).
        destruct ev as [| | | |[w|]| | | | |]; cbn [wakes]; lia.
  - cbn [resumes wakes]. destruct (decide (w = t)) as [->|Hwt].
    + pose proof (pending_le_1 t c'). lia.
    + pose proof (pending_mono t c c' ltac:(by rewrite Ht)) as Hp.
      rewrite Hw in Hp.
      specialize (Hp ltac:(intros ?; apply elem_of_difference; split;
                           [done|by intros ->%elem_of_singleton])).
      lia.
Qed.

(** X5.  No wait returns unprompted.  In every run and for every
    thread [t], the number of times a [_condNewData.wait] of [t] returned
    is at most the number of times [t] was unblocked, by a [notify_one]
    that picked it or spuriously, counting an unblocking that was there
    at the start and not counting one that is still unused at the end. *)
Theorem no_wait_returns_unprompted sched c c' ms t :
  exec sched c = Some (c', ms) →
  resumes t (labels ms) + pending t c' ≤ wakes t (labels ms) + pending t c.
Proof.
  revert c ms. induction sched as [|d sched IH]; intros c ms He.
  - injection He as <- <-. simpl. lia.
  - apply exec_cons_inv in He as (c1 & l & ms' & Hs & He & ->).
    specialize (IH _ _ He). apply (step_wake_balance _ _ _ _ t) in Hs.
    change (labels ((state c, l, state c1) :: ms')) with (l :: labels ms').
    rewrite resumes_cons, wakes_cons. lia.
Qed.

Lemma body_at_waiting m t pick s s' o ev :
  body m t Waiting pick s = Some (s', o, ev) → t ∉ waiters s.
Proof.
  intros Hb. apply body_waiters in Hb
    as [(_ & ? & _)|[(_ & _ & ? & _)|[(w & _ & ? & _)|(_ & _ & _ & ? & _)]]];
    done.
Qed.

Lemma parked_step d c c' (l : label T) :
  parked c → step d c = Some (c', l) → parked c'.
Proof.
  intros Hp Hs.
  apply step_inv in Hs
    as [(u & pick & _ & Hr)|(w & _ & -> & _ & Ht & _ & _ & Hw)].
  - apply run_inv in Hr as (th & m & s' & o & ev & Hth & _ & Hb & -> & ->).
    intros w Hin. simp.
    assert (w ∈ waiters (state c) ∨ (w = u ∧ target o = Waiting)) as [Hw|[-> Ho]].
    { apply body_waiters in Hb
        as [(_ & _ & Ho & Hw)|[(_ & _ & _ & _ & Hw)|
           [(x & _ & _ & _ & _ & Hw)|(_ & _ & _ & _ & _ & Hw)]]];
        rewrite Hw in Hin; auto.
      - apply elem_of_union in Hin as [->%elem_of_singleton|?]; auto.
      - apply elem_of_difference in Hin as [? _]. auto. }
    + destruct (Hp w Hw) as (thw & Hthw & Hpc).
      destruct (decide (w = u)) as [->|Hne].
      * rewrite Hth in Hthw. injection Hthw as <-. rewrite Hpc in Hb.
        by apply body_at_waiting in Hb.
      * exists thw. by rewrite lookup_insert_ne.
    + exists (advance th o). rewrite lookup_insert_eq. split; [done|].
      by destruct o.
  - intros x Hin. rewrite Hw in Hin. apply elem_of_difference in Hin as [Hin _].
    rewrite Ht. by apply Hp.
Qed.

(** X6.  A thread inside [wait] does nothing until it is unblocked.
    When every waiter is a thread suspended in a wait, this remains so
    along every run, and in the configuration reached no waiter can
    execute a statement. *)
Theorem waiters_stay_blocked sched c c' ms :
  parked c → exec sched c = Some (c', ms) →
  parked c' ∧
  ∀ w d, w ∈ waiters (state c') → actor d = Some w → step d c' = None.
Proof.
  intros Hp He.
  assert (parked c') as Hp'.
  { revert c ms Hp He. induction sched as [|d sched IH]; intros c ms Hp He.
    - by injection He as <- <-.
    - apply exec_cons_inv in He as (c1 & l & ms' & Hs & He & ->).
      eapply IH; [|exact He]. by eapply parked_step. }
  split; [done|]. intros w d Hw Hd.
  destruct (step d c') as [[c2 l]|] eqn:Hs; [exfalso|done].
  destruct (Hp' w Hw) as (th & Hth & Hpc).
  apply step_inv in Hs as [(u & pick & Hu & Hr)|(x & -> & _)]; [|done].
  rewrite Hd in Hu. injection Hu as <-.
  apply run_inv in Hr as (th' & m & s' & o & ev & Hth' & _ & Hb & _ & _).
  rewrite Hth in Hth'. injection Hth' as <-. rewrite Hpc in Hb.
  by apply body_at_waiting in Hb.
Qed.

(** ** The functions that only look *)

Lemma body_query m t p pick s s' o ev :
  query_call m = true → body m t p pick s = Some (s', o, ev) →
  collection s' = collection s ∧ waiters s ⊆ waiters s' ∧
  ∀ woken, ev ≠ EvNotify woken.
Proof.
  intros Hq Hb. body_inv Hb; try discriminate Hq; prim_inv; simp;
    (split; [reflexivity|]); (split; [|intros ?; discriminate]);
    first [reflexivity | apply union_subseteq_r].
Qed.

(** X9.  [front], [back], [size] and [empty] only look.  No statement
    of a thread all of whose calls are among these four changes the
    collection, takes a thread off the waiters or is a [notify_one]. *)
Theorem queries_change_nothing sched c c' ms t th :
  exec sched c = Some (c', ms) →
  threads c !! t = Some th →
  Forall (λ m, query_call m = true) (calls th) →
  Forall (λ a : shared T * event T * shared T,
            collection a.2 = collection a.1.1 ∧
            waiters a.1.1 ⊆ waiters a.2 ∧
            ∀ woken, a.1.2 ≠ EvNotify woken)
         (history_of t ms).
Proof.
  revert c ms th. induction sched as [|d sched IH]; intros c ms th He Hth Hq.
  - injection He as <- <-. constructor.
  - apply exec_cons_inv in He as (c1 & l & ms' & Hs & He & ->).
    destruct (label_own_or_not l t) as [[e ->]|Hl].
    + rewrite history_of_own.
      apply step_inv in Hs as [(u & pick & _ & Hr)|(w & _ & ? & _)]; [|done].
      apply run_inv in Hr as (th' & m & s' & o & ev & Hth' & Hm & Hb & -> & [= <- <-]).
      rewrite Hth in Hth'. injection Hth' as <-.
      assert (query_call m = true) as Hqm.
      { destruct (calls th); [done|]. injection Hm as ->.
        by apply Forall_cons in Hq as [? _]. }
      constructor.
      * simp. cbn [fst snd]. by eapply body_query.
      * eapply IH; [exact He|simp; apply lookup_insert_eq|].
        destruct o; simp; [done|]. destruct (calls th); [done|].
        by apply Forall_cons in Hq as [_ ?].
    + rewrite history_of_other by done.
      eapply IH; [exact He| |exact Hq].
      by rewrite (step_other_thread _ _ _ _ _ Hs Hl).
Qed.

(** ** Progress *)

Lemma body_valid m t p pick s s' p' ev :
  body m t p pick s = Some (s', Next p', ev) → valid_pc m p' = true.
Proof. intros Hb. body_inv Hb; simplify_eq; reflexivity. Qed.

Lemma coherent_step d c c' (l : label T) :
  coherent c → step d c = Some (c', l) → coherent c'.
Proof.
  intros [Hv Ho] Hs.
  apply step_inv in Hs
    as [(u & pick & _ & Hr)|(w & _ & _ & _ & Ht & _ & Hm & _)].
  - apply run_inv in Hr as (th & m & s' & o & ev & Hth & Hm & Hb & -> & _).
    split; simp.
    + intros t tht. destruct (decide (t = u)) as [->|Hne].
      * rewrite lookup_insert_eq. intros [= <-].
        destruct o as [p'|r]; simp; [|done]. intros _.
        exists m. split; [done|]. by eapply body_valid.
      * rewrite lookup_insert_ne by done. apply Hv.
    + intros t Ht. destruct (decide (t = u)) as [->|Hne].
      * rewrite lookup_insert_eq. eauto.
      * rewrite lookup_insert_ne by done. apply Ho.
        apply body_mutex in Hb as [Hb|[Hb|[Hb|Hb]]];
          destruct Hb as (_ & _ & Hb).
        -- destruct Hb as (_ & Hb & _). congruence.
        -- congruence.
        -- destruct Hb as (Hb & _). congruence.
        -- destruct Hb as (Hb & _). congruence.
  - split.
    + intros t th. rewrite Ht. apply Hv.
    + intros t. rewrite Ht, Hm. apply Ho.
Qed.

Lemma coherent_exec sched c c' ms :
  coherent c → exec sched c = Some (c', ms) → coherent c'.
Proof.
  revert c ms. induction sched as [|d sched IH]; intros c ms Hc He.
  - by injection He as <- <-.
  - apply exec_cons_inv in He as (c1 & l & ms' & Hs & He & ->).
    eapply IH; [|exact He]. by eapply coherent_step.
Qed.

Lemma coherent_start (progs : list (list (method Args))) :
  coherent (start (T:=T) progs).
Proof.
  split.
  - intros t th Hth Hp. by apply spawn_lookup in Hth.
  - intros t. discriminate.
Qed.

(** A statement to be executed with the mutex owned is always enabled. *)
Lemma holding_enabled m t p s :
  valid_pc m p = true → holding p = true →
  is_Some (body m t p None s).
Proof.
  intros Hv Hh.
  destruct p; try discriminate Hh;
    destruct m; try discriminate Hv; cbv beta iota delta [body];
    unfold addData_protected, clear_body, await_nonempty, empty_body;
    try (by eexists).
  all: try (unfold insert_front, insert_back;
            destruct (construct a); by eexists).
  all: destruct (collection s) as [|x l] eqn:Hc; [by eexists|].
  all: unfold front_action, back_action, pop_front_action, pop_back_action,
         size_action, deque_front, deque_back; rewrite ?Hc;
       try (by eexists).
  all: destruct (last (x :: l)) eqn:Hl;
       [by eexists|by apply last_None in Hl].
Qed.

(** With the mutex free, a thread at the entry of a call or unblocked in a
    wait can go on. *)
Lemma free_enabled m t p s :
  valid_pc m p = true → mutex s = None →
  p = Entry ∨ (p = Waiting ∧ t ∉ waiters s) →
  is_Some (body m t p None s).
Proof.
  intros Hv Hfree [-> | [-> Hw]].
  - destruct m; cbv beta iota delta [body];
      unfold addData_protected, clear_body, await_nonempty, empty_body;
      rewrite (acquire_free _ _ Hfree); by eexists.
  - destruct m; try discriminate Hv; cbv beta iota delta [body];
      unfold await_nonempty, empty_body, cv_resume;
      rewrite decide_False by done;
      rewrite (acquire_free _ _ Hfree); by eexists.
Qed.

Lemma run_enabled t pick c th m :
  threads c !! t = Some th → head (calls th) = Some m →
  is_Some (body m t (at_pc th) pick (state c)) →
  is_Some (step (notify_decision t pick) c).
Proof.
  intros Hth Hm [[[s' o] ev] Hb].
  assert (step (notify_decision t pick) c = run t pick c) as ->
    by (by destruct pick).
  erewrite run_intro by eauto. eauto.
Qed.

(** X7.  Threads are held up only by the mutex or in a wait, and never
    while owning the mutex.  In every configuration reached from a
    well-formed one whose calls in progress are at program points of their
    functions, a thread with a call left is among the waiters, or can
    execute its next statement, or is kept out by another thread that owns
    the mutex and can execute its own next statement. *)
Theorem blocked_only_on_mutex_or_wait sched c c' ms u th :
  wf c → coherent c → exec sched c = Some (c', ms) →
  threads c' !! u = Some th → calls th ≠ [] →
  u ∈ waiters (state c') ∨
  (∃ d, actor d = Some u ∧ is_Some (step d c')) ∨
  (∃ v, v ≠ u ∧ mutex (state c') = Some v ∧ is_Some (step (Run v) c')).
Proof.
  intros Hwf Hco He Hth Hcalls.
  pose proof (wf_exec _ _ _ _ Hwf He) as Hwf'.
  destruct (coherent_exec _ _ _ _ Hco He) as [Hv Ho].
  assert (∃ m, head (calls th) = Some m ∧ valid_pc m (at_pc th) = true)
    as (m & Hm & Hvm).
  { destruct (at_pc th) eqn:Hp; try (rewrite <- Hp; apply (Hv u th Hth); by rewrite Hp).
    destruct (calls th) as [|m ?]; [done|]. by exists m. }
  assert (∀ v, mutex (state c') = Some v → is_Some (step (Run v) c')) as Hown.
  { intros v Hmv. destruct (Ho v Hmv) as [thv Hthv].
    pose proof (proj2 (Hwf' v thv Hthv) Hmv) as Hh.
    destruct (Hv v thv Hthv) as (mv & Hmv' & Hvv).
    { intros Hp. rewrite Hp in Hh. discriminate Hh. }
    apply (run_enabled v None c' thv mv Hthv Hmv').
    by apply holding_enabled. }
  destruct (decide (u ∈ waiters (state c'))) as [|Hnw]; [by left|right].
  destruct (holding (at_pc th)) eqn:Hh.
  { left. exists (Run u). split; [done|].
    apply (run_enabled u None c' th m Hth Hm). by apply holding_enabled. }
  destruct (at_pc th) eqn:Hp; try discriminate Hh.
  - destruct (mutex (state c')) as [v|] eqn:Hmx.
    + right. exists v. split; [|split; [done|by apply Hown]].
      intros ->. apply (Hwf' u th Hth) in Hmx. rewrite Hp in Hmx. discriminate.
    + left. exists (Run u). split; [done|].
      apply (run_enabled u None c' th m Hth Hm). rewrite Hp.
      apply free_enabled; auto.
  - destruct (mutex (state c')) as [v|] eqn:Hmx.
    + right. exists v. split; [|split; [done|by apply Hown]].
      intros ->. apply (Hwf' u th Hth) in Hmx. rewrite Hp in Hmx. discriminate.
    + left. exists (Run u). split; [done|].
      apply (run_enabled u None c' th m Hth Hm). rewrite Hp.
      apply free_enabled; auto.
  - left. destruct (notify_always_possible (state c')) as (pick & s' & Hn).
    exists (notify_decision u pick). split; [by destruct pick|].
    apply (run_enabled u pick c' th m Hth Hm). rewrite Hp.
    destruct m; try discriminate Hvm; cbv beta iota delta [body];
      unfold addData_protected; rewrite Hn; by eexists.
Qed.

(** ** Notifications *)

Lemma body_owes m t p pick s s' o ev :
  body m t p pick s = Some (s', o, ev) →
  inserts [ev] + owes p = notifies [ev] + owes (target o).
Proof. intros Hb. body_inv Hb; prim_inv; subst; reflexivity. Qed.

(** X10.  One [notify_one] for each element inserted, and no other.
    In every run and for every thread, the number of elements the thread
    inserted is the number of [notify_one] it executed, up to the
    insertion whose [notify_one] was still to come at the start of the run
    and the one whose [notify_one] is still to come at its end.  So
    [clear], the removals, the queries and an insertion whose construction
    throws never notify. *)
Theorem one_notification_per_insertion sched c c' ms t th th' :
  exec sched c = Some (c', ms) →
  threads c !! t = Some th → threads c' !! t = Some th' →
  inserts (events_of t ms) + owes (at_pc th)
    = notifies (events_of t ms) + owes (at_pc th').
Proof.
  revert c ms th. induction sched as [|d sched IH]; intros c ms th He Hth Hth'.
  - injection He as <- <-. rewrite Hth in Hth'. by injection Hth' as <-.
  - apply exec_cons_inv in He as (c1 & l & ms' & Hs & He & ->).
    unfold events_of in *.
    destruct (label_own_or_not l t) as [[e ->]|Hl].
    + rewrite history_of_own.
      apply step_inv in Hs as [(u & pick & _ & Hr)|(w & _ & ? & _)]; [|done].
      apply run_inv in Hr as (th1 & m & s' & o & ev & Hth1 & Hm & Hb & -> & [= <- <-]).
      rewrite Hth in Hth1. injection Hth1 as <-.
      apply body_owes in Hb.
      specialize (IH _ _ (advance th o) He ltac:(simp; apply lookup_insert_eq) Hth').
      replace (at_pc (advance th o)) with (target o) in IH by (by destruct o).
      cbn [map fst snd].
      assert (∀ es, inserts (e :: es) = inserts [e] + inserts es) as ->
        by (intros es; by destruct e).
      assert (∀ es, notifies (e :: es) = notifies [e] + notifies es) as ->
        by (intros es; by destruct e).
      lia.
    + rewrite history_of_other by done.
      eapply IH; [exact He| |exact Hth'].
      by rewrite (step_other_thread _ _ _ _ _ Hs Hl).
Qed.

(** ** [empty] *)

(** X11.  [empty] does not return until the calling thread has been
    unblocked: a run in which a call of [empty] by thread [t] completes
    contains a [notify_one] that picked [t] or a spurious wake-up of [t],
    whatever the collection holds. *)
Theorem empty_returns_only_after_a_wake sched c c' ms t rest rs r :
  exec sched c = Some (c', ms) →
  threads c !! t = Some (Thread (empty :: rest) Entry rs) →
  threads c' !! t = Some (Thread rest Entry (rs ++ [r])) →
  1 ≤ wakes t (labels ms).
Proof.
  intros He Hth Hth'.
  assert (resumes t (labels ms) + pending t c'
          ≤ wakes t (labels ms) + pending t c) as Hbal.
  { clear Hth Hth'. revert c ms He.
    induction sched as [|d sched IH]; intros c ms He.
    - injection He as <- <-. simpl. lia.
    - apply exec_cons_inv in He as (c1 & l & ms' & Hs & He & ->).
      specialize (IH _ _ He). apply (step_wake_balance _ _ _ _ t) in Hs.
      change (labels ((state c, l, state c1) :: ms')) with (l :: labels ms').
      rewrite resumes_cons, wakes_cons. lia. }
  assert (pending t c = 0) as Hp0 by (unfold pending; by rewrite Hth).
  assert (1 ≤ resumes t (labels ms)) as Hres.
  { pose proof (complete_call_flow _ _ _ _ _ _ _ _ _ _ He Hth Hth') as Hf.
    apply flow_empty in Hf as (s0 & s0' & s1 & s2 & s2' & s3 & s4 & _ & Hh & _).
    assert ((s2, EvResume, s2') ∈ history_of t ms) as Hin
      by (rewrite Hh; do 2 right; left).
    apply history_of_in in Hin. clear -Hin.
    induction ms as [|mo ms IH]; [by apply elem_of_nil in Hin|].
    change (labels (mo :: ms)) with (mo.1.2 :: labels ms).
    rewrite resumes_cons.
    apply elem_of_cons in Hin as [<-|Hin].
    - cbn [fst snd resumes]. rewrite decide_True by done. lia.
    - specialize (IH Hin). lia. }
  lia.
Qed.

(** ** Insertion and removal at the same end *)

Lemma pop_at_action m a :
  insertion_arg m = Some a →
  action_of (pop_at m) =
    Some (if at_front m then pop_front_action else pop_back_action).
Proof. intros Hm. unfold pop_at. by destruct (at_front m). Qed.

(** X8.  Insertion followed by removal at the same end restores the
    collection.  A thread that calls an insertion function and then
    [pop_front] (after [emplace_front], [push_front]) or [pop_back] (after
    [emplace_back], [push_back]), alone from a free mutex, completes both
    calls in seven statements; the element removed is the element
    inserted, the collection is what it was and the mutex is free. *)
Theorem insert_then_pop_restores c t m a v rest rs pick s' :
  insertion_arg m = Some a → construct a = Some v →
  threads c !! t = Some (Thread (m :: pop_at m :: rest) Entry rs) →
  mutex (state c) = None →
  cv_notify_one pick (deque_insert m v (state c)) = Some s' →
  ∃ ms c',
    exec ([Run t; Run t; Run t; notify_decision t pick]
            ++ [Run t; Run t; Run t]) c = Some (c', ms) ∧
    collection (state c') = collection (state c) ∧
    mutex (state c') = None ∧
    insertions (labels ms) = [v] ∧ removals (labels ms) = [v] ∧
    threads c' !! t = Some (Thread rest Entry (rs ++ [RVoid; RVoid])).
Proof.
  intros Hm Ha Hth Hfree Hn.
  destruct (solo_insertion c t m a v _ rs pick s' Hm Ha Hth Hfree Hn)
    as (ms1 & He1 & Hl1).
  set (c1 := Config s' (<[t:=Thread (pop_at m :: rest) Entry (rs ++ [RVoid])]>
                          (threads c))) in *.
  assert (collection s' = collection (deque_insert m v (state c)) ∧
          mutex s' = None ∧ next_addr s' = S (next_addr (state c))) as (Hc' & Hm' & Hn').
  { apply cv_notify_one_Some in Hn as [(_ & _ & ->)|(w & _ & _ & ->)];
      unfold deque_insert; destruct (at_front m); simp; done. }
  set (x := Cell (next_addr (state c)) v).
  assert (collection s' = at_end m x (collection (state c))) as Hcol.
  { rewrite Hc'. unfold deque_insert, at_end. by destruct (at_front m). }
  destruct (solo_await c1 t (pop_at m)
              (if at_front m then pop_front_action else pop_back_action)
              rest (rs ++ [RVoid])
              (Shared (collection (state c)) (next_addr s') (Some t) (waiters s'))
              RVoid (EvRemove v))
    as (ms2 & He2 & Hl2).
  - by eapply pop_at_action.
  - apply lookup_insert_eq.
  - exact Hm'.
  - change (collection s' ≠ []). rewrite Hcol. apply at_end_not_nil.
  - change (state c1) with s'. unfold at_end in Hcol.
    destruct (at_front m).
    + apply pop_front_action_Some. exists x, (collection (state c)). done.
    + apply pop_back_action_Some. exists (collection (state c)), x. done.
  - exists (ms1 ++ ms2). eexists. split; [|split; [|split; [|split; [|split]]]].
    + erewrite exec_app by exact He1. rewrite He2. reflexivity.
    + reflexivity.
    + reflexivity.
    + rewrite labels_app, Hl1, Hl2. reflexivity.
    + rewrite labels_app, Hl1, Hl2. reflexivity.
    + simp. rewrite lookup_insert_eq, <- app_assoc. reflexivity.
Qed.

(** ** A waiting removal and the insertion that wakes it *)

(** A waiting function whose wait has been ended, alone from a free mutex
    and a non-empty collection. *)
Lemma solo_resume c t m action rest rs s1 r ev :
  action_of m = Some action →
  threads c !! t = Some (Thread (m :: rest) Waiting rs) →
  mutex (state c) = None → t ∉ waiters (state c) →
  collection (state c) ≠ [] →
  action (locked_by t (state c)) = Some (s1, r, ev) →
  ∃ ms, exec [Run t; Run t; Run t] c =
          Some (Config (release s1)
                  (<[t := Thread rest Entry (rs ++ [r])]> (threads c)),
                ms) ∧
        labels ms = [By t EvResume; By t ev; By t EvUnlock].
Proof.
  intros Hm Hth Hfree Hnw Hne Ha. eexists. split.
  - change (Run t) with (notify_decision t None).
    solo_step ltac:(rewrite (body_action _ _ Hm); simp;
                    unfold await_nonempty, cv_resume;
                    rewrite decide_False by done;
                    rewrite (acquire_free _ _ Hfree); reflexivity).
    solo_step ltac:(rewrite (body_action _ _ Hm); simp;
                    unfold await_nonempty;
                    destruct (collection (state c)) eqn:Hc; [done|];
                    cbn [locked_by collection]; rewrite Hc;
                    fold (locked_by t (state c)); rewrite Ha; reflexivity).
    solo_step ltac:(rewrite (body_action _ _ Hm); simp;
                    unfold await_nonempty; reflexivity).
    solo_finish. reflexivity.
  - reflexivity.
Qed.

(** X12.  Hand-over.  A thread calls [pop_front] or [pop_back] on an
    empty collection and is suspended; another thread inserts an element
    and its [notify_one] picks the suspended thread, which resumes and
    removes the element inserted.  Both calls complete, the collection is
    empty again and the mutex is free. *)
Theorem insertion_hands_over_to_waiting_pop c u w m a v m' restp rsp restq rsq :
  insertion_arg m = Some a → construct a = Some v →
  m' = pop_front ∨ m' = pop_back → u ≠ w →
  threads c !! u = Some (Thread (m :: restp) Entry rsp) →
  threads c !! w = Some (Thread (m' :: restq) Entry rsq) →
  mutex (state c) = None → collection (state c) = [] →
  (w ∉ waiters (state c)) →
  ∃ ms c',
    exec ([Run w; Run w] ++ [Run u; Run u; Run u; Wake u w]
            ++ [Run w; Run w; Run w]) c = Some (c', ms) ∧
    labels ms = [By w EvLock; By w EvWait;
                 By u EvLock; By u (EvInsert v); By u EvUnlock;
                 By u (EvNotify (Some w));
                 By w EvResume; By w (EvRemove v); By w EvUnlock] ∧
    collection (state c') = [] ∧ mutex (state c') = None ∧
    (w ∉ waiters (state c')) ∧
    threads c' !! u = Some (Thread restp Entry (rsp ++ [RVoid])) ∧
    threads c' !! w = Some (Thread restq Entry (rsq ++ [RVoid])).
Proof.
  intros Hm Ha Hm' Hpq Hp Hq Hfree Hc Hnw.
  assert (∃ action, action_of (T:=T) m' = Some action) as [action Hact]
    by (destruct Hm' as [-> | ->]; eexists; reflexivity).
  destruct (solo_await_blocks c w m' action restq rsq Hact Hq Hfree Hc)
    as (ms1 & c1 & He1 & Hl1 & Hs1 & Ht1 & _).
  set (x := Cell (next_addr (state c)) v).
  set (s2 := Shared [x] (S (next_addr (state c))) None
                    (({[w]} ∪ waiters (state c)) ∖ {[w]})).
  destruct (solo_insertion c1 u m a v restp rsp (Some w) s2 Hm Ha)
    as (ms2 & He2 & Hl2).
  { rewrite Ht1. by rewrite lookup_insert_ne. }
  { by rewrite Hs1. }
  { rewrite Hs1. apply cv_notify_one_Some. right. exists w.
    split; [done|]. unfold deque_insert, s2, x.
    destruct (at_front m); simp; rewrite Hc; (split; [|reflexivity]);
      apply elem_of_union; left; by apply elem_of_singleton. }
  set (c2 := Config s2 (<[u:=Thread restp Entry (rsp ++ [RVoid])]> (threads c1)))
    in *.
  assert (w ∉ waiters s2) as Hnw2.
  { unfold s2. simp. intros [_ Hn]%elem_of_difference. apply Hn.
    by apply elem_of_singleton. }
  destruct (solo_resume c2 w m' action restq rsq
              (Shared [] (next_addr s2) (Some w) (waiters s2)) RVoid
              (EvRemove v) Hact)
    as (ms3 & He3 & Hl3).
  { unfold c2. simp. rewrite lookup_insert_ne by done.
    rewrite Ht1. apply lookup_insert_eq. }
  { reflexivity. }
  { exact Hnw2. }
  { discriminate. }
  { apply (pop_action_Some m' action _ _ _ _ Hm' Hact).
    exists x, []. split; [|done]. unfold at_end. by destruct (at_front m'). }
  exists (ms1 ++ ms2 ++ ms3). eexists.
  split; [|split; [|split; [|split; [|split; [|split]]]]].
  - erewrite exec_app by exact He1. cbn [mbind option_bind].
    erewrite exec_app by exact He2. cbn [mbind option_bind].
    rewrite He3. reflexivity.
  - rewrite !labels_app, Hl1, Hl2, Hl3. reflexivity.
  - reflexivity.
  - reflexivity.
  - exact Hnw2.
  - simp. rewrite lookup_insert_ne by done. apply lookup_insert_eq.
  - simp. apply lookup_insert_eq.
Qed.

(** ** Configurations in which no call has started *)

Lemma queue_use_start (progs : list (list (method Args))) :
  Forall (Forall (λ m, queue_call m = true)) progs →
  queue_use (start (T:=T) progs).
Proof.
  intros Hq t th Hth. unfold start, spawn in Hth. cbn [threads] in Hth.
  apply elem_of_list_to_map_2 in Hth.
  apply elem_of_lookup_imap_1 in Hth as (i & prog & [= -> ->] & Hi).
  cbn [calls]. by eapply Forall_lookup_1 in Hq.
Qed.

Lemma parked_start (progs : list (list (method Args))) :
  parked (start (T:=T) progs).
Proof. intros w Hw. by apply elem_of_empty in Hw. Qed.

(** Where an insertion function puts the new element. *)
Lemma contents_deque_insert m v s :
  contents (deque_insert m v s)
    = if at_front m then v :: contents s else contents s ++ [v].
Proof.
  unfold deque_insert, contents. destruct (at_front m); simp; [done|].
  by rewrite map_app.
Qed.

(** * The claims *)

(** C3.  If the construction of the new element throws during push_front,
    push_back, emplace_front or emplace_back, the exception reaches the
    caller of that call ([RThrow] is what the call hands back), no element
    is inserted (the collection is the same at the lock, at the failed
    construction and at the unlock, and the shared state after the call is
    the state before it when the call runs alone), and the mutex is
    released (so that every thread about to start a call can lock it). *)
Theorem throwing_construction_inserts_nothing m a t :
  insertion_arg m = Some a → construct a = None →
  (∀ c rest rs,
     threads c !! t = Some (Thread (m :: rest) Entry rs) →
     mutex (state c) = None →
     ∃ ms c',
       exec [Run t; Run t; Run t] c = Some (c', ms) ∧
       labels ms = [By t EvLock; By t EvThrow; By t EvUnlock] ∧
       threads c' !! t = Some (Thread rest Entry (rs ++ [RThrow])) ∧
       state c' = state c ∧
       ∀ u thu m', u ≠ t → threads c !! u = Some thu →
                   at_pc thu = Entry → head (calls thu) = Some m' →
                   is_Some (step (Run u) c')) ∧
  (∀ sched c c' ms rest rs r,
     wf c → exec sched c = Some (c', ms) →
     threads c !! t = Some (Thread (m :: rest) Entry rs) →
     threads c' !! t = Some (Thread rest Entry (rs ++ [r])) →
     r = RThrow ∧
     ∃ s0 s1 s2,
       history_of t ms = [(s0, EvLock, locked_by t s0); (s1, EvThrow, s1);
                          (s2, EvUnlock, release s2)] ∧
       mutex s0 = None ∧ mutex s2 = Some t ∧
       collection s1 = collection s0 ∧ collection s2 = collection s0).
Proof.
  intros Hm Ha. split.
  - intros c rest rs Hth Hfree.
    destruct (solo_insertion_throw c t m a rest rs Hm Ha Hth Hfree)
      as (ms & He & Hl).
    eexists ms, _. split; [exact He|]. split; [exact Hl|]. simp.
    split; [apply lookup_insert_eq|]. split; [reflexivity|].
    intros u thu m' Hne Hu Hp Hm'.
    eapply entry_enabled; [exact Hfree| |exact Hp|exact Hm'].
    simp. rewrite lookup_insert_ne by done. exact Hu.
  - intros sched c c' ms rest rs r Hwf He Hth Hth'.
    pose proof (complete_call_flow _ _ _ _ _ _ _ _ _ _ He Hth Hth') as Hf.
    pose proof (own_history_uninterrupted _ _ _ _ t Hwf He) as Hu.
    apply (flow_insertion _ _ _ _ _ Hm) in Hf
      as [(v & ? & ? & ? & ? & ? & ? & ? & Hv & _)
         |(s0 & s0' & s1 & s2 & _ & -> & Hh & Hacq)]; [congruence|].
    split; [done|]. rewrite Hh in Hu |- *.
    apply acquire_Some in Hacq as [Hfree ->].
    exists s0, s1, s2. split; [done|]. split; [done|].
    cbn [uninterrupted mutex collection] in Hu.
    destruct Hu as ([Hm1 _] & Hc1 & [Hm2 _] & Hc2 & _).
    specialize (Hm1 eq_refl). specialize (Hc1 eq_refl).
    specialize (Hm2 Hm1). specialize (Hc2 Hm1).
    split; [done|]. split; [done|]. congruence.
Qed.

(** C4.  [pop_front] and [pop_back]: in every run a completed call has
    locked the mutex, waited as long as it found the collection empty,
    removed exactly one element, the one at its end of a non-empty
    collection, while owning the mutex, and unlocked; it handed nothing
    back and executed no notification.  Running alone from a free mutex
    it completes in three statements when the collection is not empty,
    and when the collection is empty it joins the waiters and has no
    statement to execute until it is woken. *)
Theorem pop_removes_the_end_element m t :
  m = pop_front ∨ m = pop_back →
  (∀ sched c c' ms rest rs r,
     wf c → exec sched c = Some (c', ms) →
     threads c !! t = Some (Thread (m :: rest) Entry rs) →
     threads c' !! t = Some (Thread rest Entry (rs ++ [r])) →
     r = RVoid ∧
     Forall (λ e, ∀ pick, e ≠ EvNotify pick) (events_of t ms) ∧
     ∃ s0 hw s1 x l s2,
       history_of t ms =
         (s0, EvLock, locked_by t s0) :: hw ++
         [(s1, EvRemove (cell_val x),
           Shared l (next_addr s1) (mutex s1) (waiters s1));
          (s2, EvUnlock, release s2)] ∧
       wait_rounds t hw ∧
       mutex s1 = Some t ∧ collection s1 = at_end m x l ∧
       mutex s2 = Some t ∧ collection s2 = l) ∧
  (∀ c rest rs x l,
     threads c !! t = Some (Thread (m :: rest) Entry rs) →
     mutex (state c) = None → collection (state c) = at_end m x l →
     ∃ ms c',
       exec [Run t; Run t; Run t] c = Some (c', ms) ∧
       labels ms = [By t EvLock; By t (EvRemove (cell_val x)); By t EvUnlock] ∧
       threads c' !! t = Some (Thread rest Entry (rs ++ [RVoid])) ∧
       state c' = Shared l (next_addr (state c)) None (waiters (state c))) ∧
  (∀ c rest rs,
     threads c !! t = Some (Thread (m :: rest) Entry rs) →
     mutex (state c) = None → collection (state c) = [] →
     ∃ ms c',
       exec [Run t; Run t] c = Some (c', ms) ∧
       labels ms = [By t EvLock; By t EvWait] ∧
       t ∈ waiters (state c') ∧ mutex (state c') = None ∧
       collection (state c') = [] ∧
       threads c' !! t = Some (Thread (m :: rest) Waiting rs) ∧
       step (Run t) c' = None).
Proof.
  intros Hpop.
  assert (∃ action, action_of m = Some action) as [action Hm]
    by (destruct Hpop as [-> | ->]; eauto).
  split; [|split].
  - intros sched c c' ms rest rs r Hwf He Hth Hth'.
    pose proof (complete_call_flow _ _ _ _ _ _ _ _ _ _ He Hth Hth') as Hf.
    pose proof (own_history_uninterrupted _ _ _ _ t Hwf He) as Hu.
    apply (flow_await _ _ _ _ _ _ Hm) in Hf
      as (s0 & s0' & h' & Hh & Hacq & hw & s1 & ev & s1' & s2 & -> & Hw & Hne & Ha).
    apply acquire_Some in Hacq as [Hfree ->].
    apply (pop_action_Some _ _ _ _ _ _ Hpop Hm) in Ha
      as (x & l & Hc & -> & -> & ->).
    split; [done|]. unfold events_of. rewrite Hh in Hu |- *. split.
    { cbn [map fst snd]. constructor; [done|]. rewrite map_app.
      apply Forall_app. split.
      - eapply Forall_impl; [apply (rounds_events t), Hw|].
        intros e [-> | ->] w; done.
      - cbn [map fst snd]. repeat constructor; done. }
    exists s0, hw, s1, x, l, s2. split; [done|]. split; [done|].
    assert (mutex s1 = Some t) as Hm1.
    { eapply (rounds_keep_owner _ _ Hw s0 EvLock (locked_by t s0));
        [|exact Hu]. reflexivity. }
    split; [done|]. split; [done|].
    apply (uninterrupted_app_r t ((s0, EvLock, locked_by t s0) :: hw)) in Hu.
    apply uninterrupted_cons2 in Hu as ([Hm2 _] & Hc2 & _).
    split; [by apply Hm2|by apply Hc2].
  - intros c rest rs x l Hth Hfree Hc.
    assert (action (locked_by t (state c))
            = Some (Shared l (next_addr (state c)) (Some t) (waiters (state c)),
                    RVoid, EvRemove (cell_val x))) as Ha.
    { apply (pop_action_Some _ _ _ _ _ _ Hpop Hm). exists x, l. done. }
    assert (collection (state c) ≠ []) as Hne
      by (rewrite Hc; apply at_end_not_nil).
    destruct (solo_await c t m action rest rs _ _ _ Hm Hth Hfree Hne Ha)
      as (ms & He & Hl).
    exists ms. eexists. split; [exact He|]. split; [exact Hl|]. simp.
    split; [apply lookup_insert_eq|]. done.
  - intros c rest rs Hth Hfree Hc.
    destruct (solo_await_blocks c t m action rest rs Hm Hth Hfree Hc)
      as (ms & c' & He & Hl & Hs & Ht & Hb).
    exists ms, c'. split; [exact He|]. split; [exact Hl|].
    rewrite Hs, Ht. simp.
    split; [apply elem_of_union; left; by apply elem_of_singleton|].
    split; [done|].
    split; [done|]. split; [apply lookup_insert_eq|done].
Qed.

(** C5.  Every successful insertion executes, in this order: lock,
    insertion, unlock, notify_one.  The insertion happens on the
    collection as locked and puts the new element before the elements
    already there ([emplace_front], [push_front]) or after them
    ([emplace_back], [push_back]), these keeping their order; the unlock
    comes after it with the element in place: the collection then holds
    the elements found at the lock and the new one at its end; at the
    notification the calling thread does not own the mutex; and
    notify_one takes exactly one thread off the waiters when there is one
    (none when there is none).  Running alone from a free mutex the call
    completes in these four statements and leaves the elements it found
    with the new one at its end. *)
Theorem insertion_locks_inserts_unlocks_notifies m a v t :
  insertion_arg m = Some a → construct a = Some v →
  (∀ sched c c' ms rest rs r,
     wf c → exec sched c = Some (c', ms) →
     threads c !! t = Some (Thread (m :: rest) Entry rs) →
     threads c' !! t = Some (Thread rest Entry (rs ++ [r])) →
     r = RVoid ∧
     ∃ s0 s1 s2 s3 s3' pick,
       history_of t ms =
         [(s0, EvLock, locked_by t s0);
          (s1, EvInsert v, deque_insert m v s1);
          (s2, EvUnlock, release s2);
          (s3, EvNotify pick, s3')] ∧
       mutex s0 = None ∧
       mutex s1 = Some t ∧ collection s1 = collection s0 ∧
       mutex s2 = Some t ∧
       collection s2 = collection (deque_insert m v s1) ∧
       contents (deque_insert m v s1)
         = (if at_front m then v :: contents s1 else contents s1 ++ [v]) ∧
       contents s2
         = (if at_front m then v :: contents s0 else contents s0 ++ [v]) ∧
       mutex s3 ≠ Some t ∧
       collection s3' = collection s3 ∧ mutex s3' = mutex s3 ∧
       ((pick = None ∧ waiters s3 = ∅ ∧ waiters s3' = waiters s3) ∨
        (∃ w, pick = Some w ∧ w ∈ waiters s3 ∧
              waiters s3' = waiters s3 ∖ {[w]}))) ∧
  (∀ c rest rs,
     threads c !! t = Some (Thread (m :: rest) Entry rs) →
     mutex (state c) = None →
     ∃ pick ms c',
       exec [Run t; Run t; Run t; notify_decision t pick] c
         = Some (c', ms) ∧
       labels ms = [By t EvLock; By t (EvInsert v); By t EvUnlock;
                    By t (EvNotify pick)] ∧
       threads c' !! t = Some (Thread rest Entry (rs ++ [RVoid])) ∧
       collection (state c') = collection (deque_insert m v (state c)) ∧
       contents (state c')
         = (if at_front m then v :: contents (state c)
            else contents (state c) ++ [v]) ∧
       mutex (state c') = None).
Proof.
  intros Hm Ha. split.
  - intros sched c c' ms rest rs r Hwf He Hth Hth'.
    pose proof (complete_call_flow _ _ _ _ _ _ _ _ _ _ He Hth Hth') as Hf.
    pose proof (own_history_uninterrupted _ _ _ _ t Hwf He) as Hu.
    apply (flow_insertion _ _ _ _ _ Hm) in Hf
      as [(v' & s0 & s0' & s1 & s2 & s3 & s3' & pick & Hv & -> & Hh & Hacq & Hn)
         |(? & ? & ? & ? & Hv & _)]; [|congruence].
    assert (v' = v) as -> by congruence.
    split; [done|]. rewrite Hh in Hu |- *.
    apply acquire_Some in Hacq as [Hfree ->].
    exists s0, s1, s2, s3, s3', pick. split; [done|]. split; [done|].
    cbn [uninterrupted mutex collection] in Hu.
    destruct Hu as ([Hm1 _] & Hc1 & [Hm2 _] & Hc2 & [_ Hm3] & _ & _).
    specialize (Hm1 eq_refl). specialize (Hc1 eq_refl).
    assert (mutex (deque_insert m v s1) = Some t) as Hmi
      by (unfold deque_insert; destruct (at_front m); exact Hm1).
    specialize (Hm2 Hmi). specialize (Hc2 Hmi).
    split; [done|]. split; [done|]. split; [done|]. split; [done|].
    split; [apply contents_deque_insert|].
    split.
    { rewrite <- (contents_deque_insert m v s0). unfold contents.
      rewrite Hc2. unfold deque_insert.
      destruct (at_front m); simp; rewrite Hc1, ?map_app; reflexivity. }
    split; [intros Hm3'; by specialize (Hm3 Hm3')|].
    apply cv_notify_one_Some in Hn as [(-> & Hw & ->)|(w & -> & Hw & ->)].
    + split; [done|]. split; [done|]. left. done.
    + split; [done|]. split; [done|]. right. eauto.
  - intros c rest rs Hth Hfree.
    destruct (notify_always_possible (deque_insert m v (state c)))
      as (pick & s' & Hn).
    destruct (solo_insertion c t m a v rest rs pick s' Hm Ha Hth Hfree Hn)
      as (ms & He & Hl).
    exists pick, ms. eexists. split; [exact He|]. split; [exact Hl|]. simp.
    split; [apply lookup_insert_eq|].
    apply cv_notify_one_Some in Hn as [(_ & _ & ->)|(w & _ & _ & ->)];
      unfold deque_insert, contents; destruct (at_front m); simp;
      rewrite ?map_app; done.
Qed.

(** C6.  [clear]: lock, clear, unlock.  In every run a completed call has
    executed exactly these statements (no wait, no notification), the
    collection is empty when the mutex is released, and the waiters are
    those it found.  Running alone from a free mutex it completes in
    three statements whatever the collection holds, the empty collection
    included. *)
Theorem clear_empties_without_waiting t :
  (∀ sched c c' ms rest rs r,
     wf c → exec sched c = Some (c', ms) →
     threads c !! t = Some (Thread (clear :: rest) Entry rs) →
     threads c' !! t = Some (Thread rest Entry (rs ++ [r])) →
     r = RVoid ∧
     events_of t ms = [EvLock; EvClear; EvUnlock] ∧
     ∃ s0 s1 s2,
       history_of t ms = [(s0, EvLock, locked_by t s0);
                          (s1, EvClear, deque_clear s1);
                          (s2, EvUnlock, release s2)] ∧
       mutex s0 = None ∧ mutex s1 = Some t ∧ mutex s2 = Some t ∧
       collection s2 = [] ∧ collection (release s2) = [] ∧
       waiters (locked_by t s0) = waiters s0 ∧
       waiters (deque_clear s1) = waiters s1 ∧
       waiters (release s2) = waiters s2) ∧
  (∀ c rest rs,
     threads c !! t = Some (Thread (clear :: rest) Entry rs) →
     mutex (state c) = None →
     ∃ ms c',
       exec [Run t; Run t; Run t] c = Some (c', ms) ∧
       labels ms = [By t EvLock; By t EvClear; By t EvUnlock] ∧
       threads c' !! t = Some (Thread rest Entry (rs ++ [RVoid])) ∧
       collection (state c') = [] ∧
       waiters (state c') = waiters (state c) ∧
       mutex (state c') = None).
Proof.
  split.
  - intros sched c c' ms rest rs r Hwf He Hth Hth'.
    pose proof (complete_call_flow _ _ _ _ _ _ _ _ _ _ He Hth Hth') as Hf.
    pose proof (own_history_uninterrupted _ _ _ _ t Hwf He) as Hu.
    apply flow_clear in Hf as (s0 & s0' & s1 & s2 & -> & Hh & Hacq).
    split; [done|]. unfold events_of. rewrite Hh in Hu |- *.
    split; [done|].
    apply acquire_Some in Hacq as [Hfree ->].
    exists s0, s1, s2. split; [done|]. split; [done|].
    cbn [uninterrupted mutex collection deque_clear] in Hu.
    destruct Hu as ([Hm1 _] & _ & [Hm2 _] & Hc2 & _).
    specialize (Hm1 eq_refl). specialize (Hm2 Hm1). specialize (Hc2 Hm1).
    split; [done|]. split; [done|]. split; [done|]. split; [done|]. done.
  - intros c rest rs Hth Hfree.
    destruct (solo_clear c t rest rs Hth Hfree) as (ms & He & Hl).
    exists ms. eexists. split; [exact He|]. split; [exact Hl|]. simp.
    split; [apply lookup_insert_eq|]. done.
Qed.

(** C7.  The insertion functions never wait on the condition variable: in
    every run, a completed insertion has executed no wait, and it failed
    exactly when the construction of the element failed.  Inside the call
    the only statement that can be delayed is the lock; every later
    statement can be executed in every shared state; and from a free mutex
    the call, running alone, completes whatever the collection and the
    waiters are. *)
Theorem insertion_never_waits m a t :
  insertion_arg m = Some a →
  (∀ sched c c' ms rest rs r,
     exec sched c = Some (c', ms) →
     threads c !! t = Some (Thread (m :: rest) Entry rs) →
     threads c' !! t = Some (Thread rest Entry (rs ++ [r])) →
     Forall (λ e, e ≠ EvWait ∧ e ≠ EvResume) (events_of t ms) ∧
     (r = RThrow ↔ construct a = None) ∧
     (r = RVoid ↔ is_Some (construct a)) ∧
     (r = RVoid ∨ r = RThrow)) ∧
  (∀ s, mutex s = None → is_Some (body m t Entry None s)) ∧
  (∀ p s, p ∈ [Locked; Inserted; Throwing; Unlocked] →
          ∃ pick, is_Some (body m t p pick s)) ∧
  (∀ c rest rs,
     threads c !! t = Some (Thread (m :: rest) Entry rs) →
     mutex (state c) = None →
     ∃ sched ms c' r,
       exec sched c = Some (c', ms) ∧
       Forall (λ d, actor d = Some t) sched ∧
       threads c' !! t = Some (Thread rest Entry (rs ++ [r]))).
Proof.
  intros Hm. split; [|split; [|split]].
  - intros sched c c' ms rest rs r He Hth Hth'.
    pose proof (complete_call_flow _ _ _ _ _ _ _ _ _ _ He Hth Hth') as Hf.
    unfold events_of.
    apply (flow_insertion _ _ _ _ _ Hm) in Hf
      as [(v & ? & ? & ? & ? & ? & ? & ? & Hv & -> & -> & _)
         |(? & ? & ? & ? & Hv & -> & -> & _)]; rewrite Hv; cbn [map fst snd].
    + split; [repeat constructor; done|].
      split; [split; done|]. split; [split; eauto|]. left. done.
    + split; [repeat constructor; done|].
      split; [split; done|]. split; [|right; done].
      split; [done|]. intros [? ?]. done.
  - intros s Hfree. rewrite (body_insertion _ _ Hm). unfold addData_protected.
    rewrite (acquire_free _ _ Hfree). eauto.
  - intros p s Hp. rewrite (body_insertion _ _ Hm). unfold addData_protected.
    repeat (apply elem_of_cons in Hp as [->|Hp]).
    + exists None. destruct (insertion_fct m a s) as [[??]|]; eauto.
    + exists None. eauto.
    + exists None. eauto.
    + destruct (notify_always_possible s) as (pick & s' & Hn).
      exists pick. destruct pick; rewrite Hn; cbn [mbind option_bind]; eauto.
    + by apply elem_of_nil in Hp.
  - intros c rest rs Hth Hfree. destruct (construct a) as [v|] eqn:Ha.
    + destruct (notify_always_possible (deque_insert m v (state c)))
        as (pick & s' & Hn).
      destruct (solo_insertion c t m a v rest rs pick s' Hm Ha Hth Hfree Hn)
        as (ms & He & _).
      eexists _, ms, _, _. split; [exact He|].
      split; [|simp; apply lookup_insert_eq].
      repeat constructor. by destruct pick.
    + destruct (solo_insertion_throw c t m a rest rs Hm Ha Hth Hfree)
        as (ms & He & _).
      eexists _, ms, _, _. split; [exact He|].
      split; [|simp; apply lookup_insert_eq].
      repeat constructor.
Qed.

(** C10.  [empty] waits exactly once, and unconditionally: in every run a
    completed call has executed lock, wait, resume, the test and unlock;
    the wait follows the lock on the collection as found, empty or not;
    the thread resumes only once it is off the waiters (after a
    notification or a spurious wake-up) and the mutex is free; the boolean
    handed back is the emptiness of the collection when the wait returns.
    Running alone, the call is suspended after its second statement
    whatever the collection holds; woken spuriously, it hands back the
    emptiness of the collection, which is [true] for an empty one. *)
Theorem empty_waits_once_unconditionally t :
  (∀ sched c c' ms rest rs r,
     wf c → exec sched c = Some (c', ms) →
     threads c !! t = Some (Thread (empty :: rest) Entry rs) →
     threads c' !! t = Some (Thread rest Entry (rs ++ [r])) →
     ∃ s0 s1 s2 s3 s4 b,
       r = RBool b ∧
       history_of t ms =
         [(s0, EvLock, locked_by t s0); (s1, EvWait, cv_wait t s1);
          (s2, EvResume, locked_by t s2); (s3, EvEval (RBool b), s3);
          (s4, EvUnlock, release s4)] ∧
       mutex s1 = Some t ∧ collection s1 = collection s0 ∧
       (t ∉ waiters s2) ∧ mutex s2 = None ∧
       collection s3 = collection s2 ∧
       b = bool_decide (collection s2 = [])) ∧
  (∀ c rest rs,
     threads c !! t = Some (Thread (empty :: rest) Entry rs) →
     mutex (state c) = None →
     ∃ ms c',
       exec [Run t; Run t] c = Some (c', ms) ∧
       labels ms = [By t EvLock; By t EvWait] ∧
       t ∈ waiters (state c') ∧ mutex (state c') = None ∧
       collection (state c') = collection (state c) ∧
       threads c' !! t = Some (Thread (empty :: rest) Waiting rs) ∧
       step (Run t) c' = None) ∧
  (∀ c rest rs,
     threads c !! t = Some (Thread (empty :: rest) Entry rs) →
     mutex (state c) = None →
     ∃ ms c',
       exec [Run t; Run t; Spurious t; Run t; Run t; Run t] c
         = Some (c', ms) ∧
       threads c' !! t =
         Some (Thread rest Entry
                 (rs ++ [RBool (bool_decide (collection (state c) = []))])) ∧
       collection (state c') = collection (state c)).
Proof.
  split; [|split].
  - intros sched c c' ms rest rs r Hwf He Hth Hth'.
    pose proof (complete_call_flow _ _ _ _ _ _ _ _ _ _ He Hth Hth') as Hf.
    pose proof (own_history_uninterrupted _ _ _ _ t Hwf He) as Hu.
    apply flow_empty in Hf
      as (s0 & s0' & s1 & s2 & s2' & s3 & s4 & -> & Hh & Hacq & Hres).
    apply acquire_Some in Hacq as [Hfree ->].
    apply cv_resume_Some in Hres as [Hnw [Hfree2 ->]%acquire_Some].
    rewrite Hh in Hu |- *.
    apply uninterrupted_cons2 in Hu as ([Hm1 _] & Hc1 & Hu).
    apply uninterrupted_cons2 in Hu as (_ & _ & Hu).
    apply uninterrupted_cons2 in Hu as (_ & Hc3 & _).
    cbn [fst snd mutex collection locked_by] in *.
    specialize (Hm1 eq_refl). specialize (Hc1 eq_refl).
    specialize (Hc3 eq_refl).
    exists s0, s1, s2, s3, s4, (bool_decide (collection s3 = [])).
    split; [done|]. split; [done|]. split; [done|]. split; [done|].
    split; [done|]. split; [done|]. split; [done|]. by rewrite Hc3.
  - intros c rest rs Hth Hfree.
    destruct (solo_empty_blocks c t rest rs Hth Hfree)
      as (ms & c' & He & Hl & Hs & Ht & Hb).
    exists ms, c'. split; [exact He|]. split; [exact Hl|].
    rewrite Hs, Ht. simp.
    split; [apply elem_of_union; left; by apply elem_of_singleton|].
    split; [done|]. split; [done|]. split; [apply lookup_insert_eq|done].
  - intros c rest rs Hth Hfree.
    destruct (solo_empty_spurious c t rest rs Hth Hfree)
      as (ms & c' & He & _ & Ht & Hc & _).
    exists ms, c'. done.
Qed.

End Properties.

(** ** The claims at concrete inputs *)

(** On a [TDequeConcurrent<bool>], in any run, [front] and [back] hand
    back [true] whatever the collection holds. *)
Lemma peek_on_bool_is_true sched (c c' : config bool bool_arg) ms t m
    rest rs r :
  m = front ∨ m = back →
  exec sched c = Some (c', ms) →
  threads c !! t = Some (Thread (m :: rest) Entry rs) →
  threads c' !! t = Some (Thread rest Entry (rs ++ [r])) →
  r = RValue true.
Proof.
  intros Hm He Hth Hth'.
  destruct (peek_returns_converted_address _ _ _ _ _ _ _ _ _ Hm He Hth Hth')
    as (x & l & s1 & hw & s0 & s2 & -> & _).
  reflexivity.
Qed.

(** C1.  What [front] and [back] hand back is not the element.  On a
    [TDequeConcurrent<bool>] holding the single element [false] both hand
    back [true], the conversion of the non-null address of the slot; on a
    [TDequeConcurrent<void*>] holding a null pointer both hand back the
    address of the slot inside the collection.  The element stays in the
    collection. *)
Theorem front_hands_back_the_slot_address :
  observe 0 (exec (replicate 10 (Run 0)) peek_bool)
    = Some ([RVoid; RValue true; RValue true], [false],
            [By 0 EvLock; By 0 (EvInsert false); By 0 EvUnlock;
             By 0 (EvNotify None);
             By 0 EvLock; By 0 (EvEval (RValue true)); By 0 EvUnlock;
             By 0 EvLock; By 0 (EvEval (RValue true)); By 0 EvUnlock]) ∧
  observe 0 (exec (replicate 10 (Run 0)) peek_voidptr)
    = Some ([RVoid; RValue (slot_ptr 0); RValue (slot_ptr 0)], [nullptr],
            [By 0 EvLock; By 0 (EvInsert nullptr); By 0 EvUnlock;
             By 0 (EvNotify None);
             By 0 EvLock; By 0 (EvEval (RValue (slot_ptr 0)));
             By 0 EvUnlock;
             By 0 EvLock; By 0 (EvEval (RValue (slot_ptr 0)));
             By 0 EvUnlock]).
Proof. split; vm_compute; reflexivity. Qed.

(** C2.  [empty] goes on after its single wait without testing the
    collection again.  Thread 0 calls [empty()] and waits; thread 1
    inserts an element, which wakes thread 0, and clears the deque before
    thread 0 has the mutex back; thread 0 then resumes on an empty
    collection and returns, handing back [true].  The same happens after a
    spurious wake-up with nothing ever inserted. *)
Theorem empty_goes_on_without_testing_again :
  observe 0 (exec [Run 0; Run 0;
                   Run 1; Run 1; Run 1; Wake 1 0;
                   Run 1; Run 1; Run 1;
                   Run 0; Run 0; Run 0] empty_query)
    = Some ([RBool true], [],
            [By 0 EvLock; By 0 EvWait;
             By 1 EvLock; By 1 (EvInsert true); By 1 EvUnlock;
             By 1 (EvNotify (Some 0));
             By 1 EvLock; By 1 EvClear; By 1 EvUnlock;
             By 0 EvResume; By 0 (EvEval (RBool true)); By 0 EvUnlock]) ∧
  observe 0 (exec [Run 0; Run 0; Spurious 0; Run 0; Run 0; Run 0]
                  empty_query)
    = Some ([RBool true], [],
            [By 0 EvLock; By 0 EvWait; SpuriousWake 0;
             By 0 EvResume; By 0 (EvEval (RBool true)); By 0 EvUnlock]).
Proof. split; vm_compute; reflexivity. Qed.

(** C8.  The drain of the scenario on a [TDequeConcurrent<bool>].
    However the three insertions interleave, once both producers have
    finished the drain removes the elements of 0, 1, 2 in this order
    ([false], [true], [true]) and leaves the collection empty, but its
    three calls of [front] hand back [true], [true], [true]: the first
    one does not hand back the element 0. *)
Theorem drain_fronts_are_not_the_elements sched c1 ms1 thA thB :
  exec sched drain_scenario = Some (c1, ms1) →
  threads c1 !! 0 = Some thA → calls thA = [] →
  threads c1 !! 1 = Some thB → calls thB = [] →
  threads c1 !! 2 = Some (Thread drain_calls Entry []) →
  contents (state c1) = [false; true; true] ∧
  observe_drain 2 (exec (replicate 18 (Run 2)) c1)
    = Some ([RValue true; RVoid; RValue true; RVoid; RValue true; RVoid],
            [false; true; true], []).
Proof.
  intros He HA HcA HB HcB HD.
  destruct (producers_then_drain (H:=bool_element)
              (int_arg 0) (int_arg 1) (int_arg 2)
              false true true sched c1 ms1 thA thB
              eq_refl eq_refl eq_refl He HA HcA HB HcB HD)
    as (x0 & x1 & x2 & c2 & ms2 & Hc1 & Hx0 & Hx1 & Hx2 & He2 & Hr & Hrm & Hc).
  split.
  - unfold contents. rewrite Hc1. simpl. by rewrite Hx0, Hx1, Hx2.
  - rewrite He2. unfold observe_drain, contents. rewrite Hr, Hrm, Hc.
    reflexivity.
Qed.

(** The same drain, evaluated on four interleavings of the insertions. *)
Example drain_on_four_schedules :
  Forall (λ sched,
            observe_drain 2 (exec sched drain_scenario)
            = Some ([RValue true; RVoid; RValue true; RVoid;
                     RValue true; RVoid],
                    [false; true; true], []))
         drain_schedules.
Proof. repeat constructor; vm_compute; reflexivity. Qed.

Lemma two_to_32_Z : Z.of_nat two_to_32 = 4294967296%Z.
Proof. unfold two_to_32. rewrite N_nat_Z. reflexivity. Qed.

Lemma full_collection_length : length full_collection = two_to_32.
Proof. unfold full_collection. rewrite length_map. apply length_seq. Qed.

(** C9.  With 2^32 elements in the collection [size()] hands back 0: the
    count is not zero, but its conversion to [uint] is. *)
Theorem size_reports_zero_for_2_32_elements :
  ∃ ms c',
    exec [Run 0; Run 0; Run 0] full = Some (c', ms) ∧
    labels ms = [By 0 EvLock; By 0 (EvEval (RUInt 0)); By 0 EvUnlock] ∧
    returned_by 0 c' = [RUInt 0] ∧
    collection (state c') = full_collection.
Proof.
  apply (solo_size_wraps full_collection two_to_32 ∅ (spawn [[size]]) 0 [] []).
  - reflexivity.
  - rewrite full_collection_length. exact two_to_32_Z.
Qed.

(** ** The hypotheses of the claims, met

    Each statement below is one of the theorems above applied to a run
    of a [TDequeConcurrent<bool>]. *)

(** [push_back] of an argument whose conversion throws, while another
    thread waits in [front], and the same call running alone. *)
Lemma throwing_construction_inserts_nothing_witness :
  (∃ ms c',
     exec [Run 1; Run 1; Run 0; Run 0; Run 0]
          (start (T:=bool) [[push_back throwing_arg]; [front]])
       = Some (c', ms) ∧
     threads c' !! 0 = Some (Thread [] Entry [RThrow]) ∧
     events_of 0 ms = [EvLock; EvThrow; EvUnlock]) ∧
  (∃ ms c',
     exec [Run 0; Run 0; Run 0]
          (start (T:=bool) [[push_back throwing_arg]; [front]])
       = Some (c', ms) ∧
     labels ms = [By 0 EvLock; By 0 EvThrow; By 0 EvUnlock] ∧
     threads c' !! 0 = Some (Thread [] Entry [RThrow]) ∧
     state c' = fresh ∧
     ∀ u thu m', u ≠ 0 →
       threads (start (T:=bool) [[push_back throwing_arg]; [front]]) !! u
         = Some thu →
       at_pc thu = Entry → head (calls thu) = Some m' →
       is_Some (step (Run u) c')).
Proof.
  pose (thm := throwing_construction_inserts_nothing
                 (push_back throwing_arg) throwing_arg 0 eq_refl eq_refl).
  split.
  - destruct (exec _ _) as [[c' ms]|] eqn:He;
      [|vm_compute in He; discriminate He].
    assert (threads c' !! 0 = Some (Thread [] Entry [RThrow])) as Ht
      by (change (thread_after 0 (Some (c', ms))
                  = Some (Thread [] Entry [RThrow]));
          rewrite <- He; vm_compute; reflexivity).
    exists ms, c'. split; [reflexivity|]. split; [exact Ht|].
    destruct (proj2 thm _ _ _ _ _ _ _ (wf_start _) He eq_refl Ht)
      as (_ & s0 & s1 & s2 & Hh & _).
    unfold events_of. rewrite Hh. reflexivity.
  - exact (proj1 thm (start [[push_back throwing_arg]; [front]]) [] []
                 eq_refl eq_refl).
Defined.

(** Successful insertions on a [TDequeConcurrent<bool>]: [push_front] on
    a fresh instance with a thread waiting in [pop_back]; [push_back] of
    [true] on a collection holding [false]; [emplace_front] of [false] on
    a collection holding [true]; and [push_front] running alone. *)
Lemma insertion_locks_inserts_unlocks_notifies_witness :
  (∃ ms c',
     exec [Run 1; Run 1; Run 0; Run 0; Run 0; Wake 0 1; Run 1; Run 1; Run 1]
          (start (T:=bool) [[push_front (int_arg 5)]; [pop_back]])
       = Some (c', ms) ∧
     ∃ pick,
       events_of 0 ms = [EvLock; EvInsert true; EvUnlock; EvNotify pick]) ∧
  (∃ ms c',
     exec (replicate 4 (Run 1) ++ replicate 4 (Run 0))
          (start (T:=bool) [[push_back (int_arg 1)]; [push_back (int_arg 0)]])
       = Some (c', ms) ∧
     contents (state c') = [false; true] ∧
     ∃ s0 s1 s2 s3 s3' pick,
       history_of 0 ms =
         [(s0, EvLock, locked_by 0 s0);
          (s1, EvInsert true, deque_insert (push_back (int_arg 1)) true s1);
          (s2, EvUnlock, release s2);
          (s3, EvNotify pick, s3')] ∧
       contents s0 = [false] ∧
       contents (deque_insert (push_back (int_arg 1)) true s1)
         = [false; true] ∧
       contents s2 = [false; true]) ∧
  (∃ ms c',
     exec (replicate 4 (Run 1) ++ replicate 4 (Run 0))
          (start (T:=bool) [[emplace_front (int_arg 0)];
                            [push_back (int_arg 1)]])
       = Some (c', ms) ∧
     contents (state c') = [false; true] ∧
     ∃ s0 s1 s2 s3 s3' pick,
       history_of 0 ms =
         [(s0, EvLock, locked_by 0 s0);
          (s1, EvInsert false,
           deque_insert (emplace_front (int_arg 0)) false s1);
          (s2, EvUnlock, release s2);
          (s3, EvNotify pick, s3')] ∧
       contents s0 = [true] ∧
       contents (deque_insert (emplace_front (int_arg 0)) false s1)
         = [false; true] ∧
       contents s2 = [false; true]) ∧
  (∃ pick ms c',
     exec [Run 0; Run 0; Run 0; notify_decision 0 pick]
          (start (T:=bool) [[push_front (int_arg 5)]; [pop_back]])
       = Some (c', ms) ∧
     threads c' !! 0 = Some (Thread [] Entry [RVoid]) ∧
     contents (state c') = [true]).
Proof.
  pose (thm := insertion_locks_inserts_unlocks_notifies
                 (push_front (int_arg 5)) (int_arg 5) true 0
                 eq_refl eq_refl).
  split; [|split; [|split]].
  - destruct (exec _ _) as [[c' ms]|] eqn:He;
      [|vm_compute in He; discriminate He].
    assert (threads c' !! 0 = Some (Thread [] Entry [RVoid])) as Ht
      by (change (thread_after 0 (Some (c', ms)) = Some (Thread [] Entry [RVoid]));
          rewrite <- He; vm_compute; reflexivity).
    exists ms, c'. split; [reflexivity|].
    destruct (proj1 thm _ _ _ _ _ _ _ (wf_start _) He eq_refl Ht)
      as (_ & s0 & s1 & s2 & s3 & s3' & pick & Hh & _).
    exists pick. unfold events_of. rewrite Hh. reflexivity.
  - destruct (exec _ _) as [[c' ms]|] eqn:He;
      [|vm_compute in He; discriminate He].
    assert (threads c' !! 0 = Some (Thread [] Entry [RVoid])) as Ht
      by (change (thread_after 0 (Some (c', ms)) = Some (Thread [] Entry [RVoid]));
          rewrite <- He; vm_compute; reflexivity).
    assert (observe_drain 0 (Some (c', ms))
            = Some ([RVoid], [], [false; true])) as Ho
      by (rewrite <- He; vm_compute; reflexivity).
    injection Ho as _ _ Hc.
    assert (option_map (λ x, map (λ a, contents a.1.1) (history_of 0 x.2))
                       (Some (c', ms))
            = Some [[false]; [false]; [false; true]; [false; true]]) as Hp
      by (rewrite <- He; vm_compute; reflexivity).
    injection Hp as Hp.
    change (map (λ a, contents a.1.1) (history_of 0 ms)
            = [[false]; [false]; [false; true]; [false; true]]) in Hp.
    destruct (proj1 (insertion_locks_inserts_unlocks_notifies
                       (H:=bool_element) (push_back (int_arg 1)) (int_arg 1) true 0
                       eq_refl eq_refl)
                _ _ _ _ _ _ _ (wf_start _) He eq_refl Ht)
      as (_ & s0 & s1 & s2 & s3 & s3' & pick & Hh & _ & _ & _ & _ & _
          & Hi & H2 & _).
    rewrite Hh in Hp. injection Hp as H0' H1' _ _.
    exists ms, c'. split; [reflexivity|]. split; [exact Hc|].
    exists s0, s1, s2, s3, s3', pick. split; [exact Hh|].
    split; [exact H0'|]. split.
    + rewrite Hi. cbn [at_front]. rewrite H1'. reflexivity.
    + rewrite H2. cbn [at_front]. rewrite H0'. reflexivity.
  - destruct (exec _ _) as [[c' ms]|] eqn:He;
      [|vm_compute in He; discriminate He].
    assert (threads c' !! 0 = Some (Thread [] Entry [RVoid])) as Ht
      by (change (thread_after 0 (Some (c', ms)) = Some (Thread [] Entry [RVoid]));
          rewrite <- He; vm_compute; reflexivity).
    assert (observe_drain 0 (Some (c', ms))
            = Some ([RVoid], [], [false; true])) as Ho
      by (rewrite <- He; vm_compute; reflexivity).
    injection Ho as _ _ Hc.
    assert (option_map (λ x, map (λ a, contents a.1.1) (history_of 0 x.2))
                       (Some (c', ms))
            = Some [[true]; [true]; [false; true]; [false; true]]) as Hp
      by (rewrite <- He; vm_compute; reflexivity).
    injection Hp as Hp.
    change (map (λ a, contents a.1.1) (history_of 0 ms)
            = [[true]; [true]; [false; true]; [false; true]]) in Hp.
    destruct (proj1 (insertion_locks_inserts_unlocks_notifies
                       (H:=bool_element) (emplace_front (int_arg 0)) (int_arg 0) false 0
                       eq_refl eq_refl)
                _ _ _ _ _ _ _ (wf_start _) He eq_refl Ht)
      as (_ & s0 & s1 & s2 & s3 & s3' & pick & Hh & _ & _ & _ & _ & _
          & Hi & H2 & _).
    rewrite Hh in Hp. injection Hp as H0' H1' _ _.
    exists ms, c'. split; [reflexivity|]. split; [exact Hc|].
    exists s0, s1, s2, s3, s3', pick. split; [exact Hh|].
    split; [exact H0'|]. split.
    + rewrite Hi. cbn [at_front]. rewrite H1'. reflexivity.
    + rewrite H2. cbn [at_front]. rewrite H0'. reflexivity.
  - destruct (proj2 thm (start [[push_front (int_arg 5)]; [pop_back]])
                [] [] eq_refl eq_refl)
      as (pick & ms & c' & He & _ & Ht & _ & Hc & _).
    exists pick, ms, c'. split; [exact He|]. split; [exact Ht|].
    exact Hc.
Defined.

(** [emplace_back] on a fresh [TDequeConcurrent<bool>]: a call that
    succeeds, a call whose argument throws, and the call running alone. *)
Lemma insertion_never_waits_witness :
  (∃ ms c',
     exec [Run 0; Run 0; Run 0; Run 1; Run 0; Run 1; Run 1]
          (start (T:=bool) [[emplace_back (int_arg 1)];
                            [emplace_back throwing_arg]])
       = Some (c', ms) ∧
     threads c' !! 0 = Some (Thread [] Entry [RVoid]) ∧
     Forall (λ e, e ≠ EvWait ∧ e ≠ EvResume) (events_of 0 ms)) ∧
  (∃ sched ms c' r,
     exec sched (start (T:=bool) [[emplace_back throwing_arg]])
       = Some (c', ms) ∧
     Forall (λ d, actor d = Some 0) sched ∧
     threads c' !! 0 = Some (Thread [] Entry [r])).
Proof.
  split.
  - destruct (exec _ _) as [[c' ms]|] eqn:He;
      [|vm_compute in He; discriminate He].
    assert (threads c' !! 0 = Some (Thread [] Entry [RVoid])) as Ht
      by (change (thread_after 0 (Some (c', ms)) = Some (Thread [] Entry [RVoid]));
          rewrite <- He; vm_compute; reflexivity).
    exists ms, c'. split; [reflexivity|]. split; [exact Ht|].
    exact (proj1 (proj1 (insertion_never_waits (emplace_back (int_arg 1))
                           (int_arg 1) 0 eq_refl)
                        _ _ _ _ _ _ _ He eq_refl Ht)).
  - exact (proj2 (proj2 (proj2 (insertion_never_waits
                                  (emplace_back throwing_arg)
                                  throwing_arg 0 eq_refl)))
                 (start [[emplace_back throwing_arg]]) [] []
                 eq_refl eq_refl).
Defined.

(** [clear] on a [TDequeConcurrent<bool>] that holds [true; false] while
    a thread waits in [empty]: in a run, alone from that state, and alone
    on a fresh instance. *)
Lemma clear_empties_without_waiting_witness :
  (∃ ms c',
     exec (replicate 8 (Run 1) ++ [Run 2; Run 2] ++ [Run 0; Run 0; Run 0])
          (start (T:=bool) [[clear];
                            [push_back (int_arg 1); push_back (int_arg 0)];
                            [empty]])
       = Some (c', ms) ∧
     threads c' !! 0 = Some (Thread [] Entry [RVoid]) ∧
     events_of 0 ms = [EvLock; EvClear; EvUnlock] ∧
     map (λ a, (contents a.1.1, contents a.2)) (history_of 0 ms)
       = [([true; false], [true; false]); ([true; false], []); ([], [])] ∧
     contents (state c') = [] ∧
     waiters (state c') = {[2]} ∧
     threads c' !! 2 = Some (Thread [empty] Waiting [])) ∧
  (∃ ms1 c1,
     exec (replicate 8 (Run 1) ++ [Run 2; Run 2])
          (start (T:=bool) [[clear];
                            [push_back (int_arg 1); push_back (int_arg 0)];
                            [empty]])
       = Some (c1, ms1) ∧
     contents (state c1) = [true; false] ∧
     waiters (state c1) = {[2]} ∧
     ∃ ms c',
       exec [Run 0; Run 0; Run 0] c1 = Some (c', ms) ∧
       labels ms = [By 0 EvLock; By 0 EvClear; By 0 EvUnlock] ∧
       threads c' !! 0 = Some (Thread [] Entry [RVoid]) ∧
       collection (state c') = [] ∧
       waiters (state c') = {[2]} ∧
       mutex (state c') = None) ∧
  (∃ ms c',
     exec [Run 0; Run 0; Run 0] (start (T:=bool) [[clear]])
       = Some (c', ms) ∧
     labels ms = [By 0 EvLock; By 0 EvClear; By 0 EvUnlock] ∧
     threads c' !! 0 = Some (Thread [] Entry [RVoid]) ∧
     collection (state c') = [] ∧
     waiters (state c') = ∅ ∧
     mutex (state c') = None).
Proof.
  split; [|split].
  - destruct (exec _ _) as [[c' ms]|] eqn:He;
      [|vm_compute in He; discriminate He].
    assert (threads c' !! 0 = Some (Thread [] Entry [RVoid])) as Ht
      by (change (thread_after 0 (Some (c', ms)) = Some (Thread [] Entry [RVoid]));
          rewrite <- He; vm_compute; reflexivity).
    assert (threads c' !! 2 = Some (Thread [empty] Waiting [])) as Ht2
      by (change (thread_after 2 (Some (c', ms))
                  = Some (Thread [empty] Waiting []));
          rewrite <- He; vm_compute; reflexivity).
    assert (option_map
              (λ x, (map (λ a, (contents a.1.1, contents a.2))
                         (history_of 0 x.2),
                     contents (state x.1), waiters (state x.1)))
              (Some (c', ms))
            = Some ([([true; false], [true; false]); ([true; false], []);
                     ([], [])], [], ({[2]} : gset nat))) as Hp
      by (rewrite <- He; vm_compute; reflexivity).
    injection Hp as Hh Hc Hw.
    exists ms, c'. split; [reflexivity|]. split; [exact Ht|].
    split; [|split; [exact Hh|split; [exact Hc|split; [exact Hw|exact Ht2]]]].
    exact (proj1 (proj2 (proj1 (clear_empties_without_waiting 0)
                           _ _ _ _ _ _ _ (wf_start _) He eq_refl Ht))).
  - destruct (exec _ _) as [[c1 ms1]|] eqn:He;
      [|vm_compute in He; discriminate He].
    assert (threads c1 !! 0 = Some (Thread [clear] Entry [])) as Ht
      by (change (thread_after 0 (Some (c1, ms1))
                  = Some (Thread [clear] Entry []));
          rewrite <- He; vm_compute; reflexivity).
    assert (option_map
              (λ x, (contents (state x.1), waiters (state x.1),
                     mutex (state x.1)))
              (Some (c1, ms1))
            = Some ([true; false], ({[2]} : gset nat), None)) as Hp
      by (rewrite <- He; vm_compute; reflexivity).
    injection Hp as Hc Hw Hm.
    exists ms1, c1. split; [reflexivity|]. split; [exact Hc|].
    split; [exact Hw|].
    destruct (proj2 (clear_empties_without_waiting 0) c1 [] [] Ht Hm)
      as (ms & c' & He' & Hl & Ht' & Hc' & Hw' & Hm').
    exists ms, c'. split; [exact He'|]. split; [exact Hl|].
    split; [exact Ht'|]. split; [exact Hc'|]. split; [|exact Hm'].
    rewrite Hw'. exact Hw.
  - exact (proj2 (clear_empties_without_waiting 0)
                 (start [[clear]]) [] [] eq_refl eq_refl).
Defined.

(** [pop_front] on a fresh [TDequeConcurrent<bool>]: it waits until
    another thread has inserted, then removes that element; alone on the
    empty collection it is suspended. *)
Lemma pop_removes_the_end_element_witness :
  (∃ ms c',
     exec [Run 0; Run 0; Run 1; Run 1; Run 1; Wake 1 0; Run 0; Run 0; Run 0]
          (start (T:=bool) [[pop_front]; [push_back (int_arg 1)]])
       = Some (c', ms) ∧
     threads c' !! 0 = Some (Thread [] Entry [RVoid]) ∧
     Forall (λ e, ∀ pick, e ≠ EvNotify pick) (events_of 0 ms)) ∧
  (∃ ms c',
     exec [Run 0; Run 0]
          (start (T:=bool) [[pop_front]; [push_back (int_arg 1)]])
       = Some (c', ms) ∧
     labels ms = [By 0 EvLock; By 0 EvWait] ∧
     0 ∈ waiters (state c') ∧ mutex (state c') = None ∧
     collection (state c') = [] ∧
     threads c' !! 0 = Some (Thread [pop_front] Waiting []) ∧
     step (Run 0) c' = None).
Proof.
  pose (thm := pop_removes_the_end_element (T:=bool) pop_front 0
                 (or_introl eq_refl)).
  split.
  - destruct (exec _ _) as [[c' ms]|] eqn:He;
      [|vm_compute in He; discriminate He].
    assert (threads c' !! 0 = Some (Thread [] Entry [RVoid])) as Ht
      by (change (thread_after 0 (Some (c', ms)) = Some (Thread [] Entry [RVoid]));
          rewrite <- He; vm_compute; reflexivity).
    exists ms, c'. split; [reflexivity|]. split; [exact Ht|].
    exact (proj1 (proj2 (proj1 thm _ _ _ _ _ _ _ (wf_start _) He eq_refl Ht))).
  - exact (proj2 (proj2 thm)
                 (start [[pop_front]; [push_back (int_arg 1)]]) [] []
                 eq_refl eq_refl eq_refl).
Defined.

(** [empty] on a [TDequeConcurrent<bool>] that holds an element when the
    call starts: the call waits all the same; woken by the next insertion
    it hands back [false].  Alone on a fresh instance and woken
    spuriously it hands back [true]. *)
Lemma empty_waits_once_unconditionally_witness :
  (∃ ms c',
     exec [Run 1; Run 1; Run 1; Run 1;
           Run 0; Run 0;
           Run 1; Run 1; Run 1; Wake 1 0;
           Run 0; Run 0; Run 0]
          (start (T:=bool) [[empty]; [push_back (int_arg 1);
                                      push_back (int_arg 2)]])
       = Some (c', ms) ∧
     threads c' !! 0 = Some (Thread [] Entry [RBool false]) ∧
     ∃ b,
       events_of 0 ms
         = [EvLock; EvWait; EvResume; EvEval (RBool b); EvUnlock]) ∧
  (∃ ms c',
     exec [Run 0; Run 0; Spurious 0; Run 0; Run 0; Run 0]
          (start (T:=bool) [[empty]])
       = Some (c', ms) ∧
     threads c' !! 0 = Some (Thread [] Entry [RBool true]) ∧
     collection (state c') = []).
Proof.
  split.
  - destruct (exec _ _) as [[c' ms]|] eqn:He;
      [|vm_compute in He; discriminate He].
    assert (threads c' !! 0 = Some (Thread [] Entry [RBool false])) as Ht
      by (change (thread_after 0 (Some (c', ms))
                  = Some (Thread [] Entry [RBool false]));
          rewrite <- He; vm_compute; reflexivity).
    exists ms, c'. split; [reflexivity|]. split; [exact Ht|].
    destruct (proj1 (empty_waits_once_unconditionally (T:=bool) 0)
                _ _ _ _ _ _ _ (wf_start _) He eq_refl Ht)
      as (s0 & s1 & s2 & s3 & s4 & b & _ & Hh & _).
    exists b. unfold events_of. rewrite Hh. reflexivity.
  - exact (proj2 (proj2 (empty_waits_once_unconditionally 0))
                 (start [[empty]]) [] [] eq_refl eq_refl).
Defined.

(** The drain after thread 1 has inserted between the two insertions of
    thread 0. *)
Lemma drain_fronts_are_not_the_elements_witness :
  ∃ ms1 c1,
    exec (replicate 4 (Run 0) ++ replicate 4 (Run 1) ++ replicate 4 (Run 0))
         drain_scenario = Some (c1, ms1) ∧
    contents (state c1) = [false; true; true] ∧
    observe_drain 2 (exec (replicate 18 (Run 2)) c1)
      = Some ([RValue true; RVoid; RValue true; RVoid; RValue true; RVoid],
              [false; true; true], []).
Proof.
  destruct (exec _ _) as [[c1 ms1]|] eqn:He;
    [|vm_compute in He; discriminate He].
  assert (threads c1 !! 0 = Some (Thread [] Entry [RVoid; RVoid])) as HA
    by (change (thread_after 0 (Some (c1, ms1))
                = Some (Thread [] Entry [RVoid; RVoid]));
        rewrite <- He; vm_compute; reflexivity).
  assert (threads c1 !! 1 = Some (Thread [] Entry [RVoid])) as HB
    by (change (thread_after 1 (Some (c1, ms1))
                = Some (Thread [] Entry [RVoid]));
        rewrite <- He; vm_compute; reflexivity).
  assert (threads c1 !! 2 = Some (Thread drain_calls Entry [])) as HD
    by (change (thread_after 2 (Some (c1, ms1))
                = Some (Thread drain_calls Entry []));
        rewrite <- He; vm_compute; reflexivity).
  exists ms1, c1. split; [reflexivity|].
  exact (drain_fronts_are_not_the_elements _ _ _ _ _
           He HA eq_refl HB eq_refl HD).
Defined.

(** ** The hypotheses of the properties of whole runs, met *)

(** [push_back] and a [pop_front] that waits for it, interleaved. *)
Lemma lock_discipline_witness :
  ∃ ms c',
    exec [Run 1; Run 1; Run 0; Run 0; Run 0; Wake 0 1; Run 1; Run 1; Run 1]
         (start (T:=bool) [[push_back (int_arg 1)]; [pop_front]])
      = Some (c', ms) ∧
    wf c' ∧
    (∀ t u th tu,
       threads c' !! t = Some th → threads c' !! u = Some tu →
       holding (at_pc th) = true → holding (at_pc tu) = true → t = u) ∧
    Forall (λ mo : moment bool,
              match mo.1.2 with
              | By t e =>
                  accesses e = true ∨ collection mo.2 ≠ collection mo.1.1 →
                  mutex mo.1.1 = Some t
              | SpuriousWake _ => collection mo.2 = collection mo.1.1
              end) ms.
Proof.
  destruct (exec _ _) as [[c' ms]|] eqn:He;
    [|vm_compute in He; discriminate He].
  exists ms, c'. split; [reflexivity|].
  exact (lock_discipline _ _ _ _ (wf_start _) He).
Defined.

(** Two insertions, a removal and a [clear]. *)
Lemma elements_are_conserved_witness :
  ∃ ms c',
    exec (replicate 8 (Run 0) ++ replicate 3 (Run 1) ++ replicate 3 (Run 2))
         (start (T:=bool) [[push_back (int_arg 1); push_front (int_arg 0)];
                           [pop_back]; [clear]])
      = Some (c', ms) ∧
    removals (labels ms) = [true] ∧ cleared ms = [false] ∧
    contents (state c') ++ removals (labels ms) ++ cleared ms
      ≡ₚ contents (state (start (T:=bool)
                            [[push_back (int_arg 1); push_front (int_arg 0)];
                             [pop_back]; [clear]]))
         ++ insertions (labels ms).
Proof.
  destruct (exec _ _) as [[c' ms]|] eqn:He;
    [|vm_compute in He; discriminate He].
  assert (observe_drain 0 (Some (c', ms)) = Some ([RVoid; RVoid], [true], []))
    as Ho by (rewrite <- He; vm_compute; reflexivity).
  injection Ho as _ Hr _.
  assert (option_map (λ x, cleared x.2) (Some (c', ms)) = Some [false])
    as Hc by (rewrite <- He; vm_compute; reflexivity).
  injection Hc as Hc.
  exists ms, c'. split; [reflexivity|]. split; [exact Hr|].
  split; [exact Hc|].
  exact (elements_are_conserved _ _ _ _ He).
Defined.

(** Two producers at the back and a consumer at the front. *)
Lemma queue_order_witness :
  ∃ ms c',
    exec (replicate 4 (Run 0) ++ replicate 4 (Run 1) ++ replicate 3 (Run 2)
            ++ replicate 4 (Run 0))
         (start (T:=bool) [[push_back (int_arg 1); emplace_back (int_arg 0)];
                           [push_back (int_arg 0)]; [pop_front]])
      = Some (c', ms) ∧
    removals (labels ms) = [true] ∧
    contents (state (start (T:=bool)
                       [[push_back (int_arg 1); emplace_back (int_arg 0)];
                        [push_back (int_arg 0)]; [pop_front]]))
      ++ insertions (labels ms)
      = removals (labels ms) ++ contents (state c').
Proof.
  destruct (exec _ _) as [[c' ms]|] eqn:He;
    [|vm_compute in He; discriminate He].
  assert (observe_drain 0 (Some (c', ms))
          = Some ([RVoid; RVoid], [true], [false; false]))
    as Ho by (rewrite <- He; vm_compute; reflexivity).
  injection Ho as _ Hr _.
  exists ms, c'. split; [reflexivity|]. split; [exact Hr|].
  refine (queue_order _ _ _ _ (queue_use_start _ _) He).
  repeat constructor.
Defined.

(** [pop_front] on a fresh instance, completed after a [push_back]. *)
Lemma waiting_call_needs_an_insertion_witness :
  ∃ ms c',
    exec [Run 0; Run 0; Run 1; Run 1; Run 1; Wake 1 0; Run 0; Run 0; Run 0]
         (start (T:=bool) [[pop_front]; [push_back (int_arg 1)]])
      = Some (c', ms) ∧
    threads c' !! 0 = Some (Thread [] Entry [RVoid]) ∧
    ∃ u v, By u (EvInsert v) ∈ labels ms.
Proof.
  destruct (exec _ _) as [[c' ms]|] eqn:He;
    [|vm_compute in He; discriminate He].
  assert (threads c' !! 0 = Some (Thread [] Entry [RVoid])) as Ht
    by (change (thread_after 0 (Some (c', ms)) = Some (Thread [] Entry [RVoid]));
        rewrite <- He; vm_compute; reflexivity).
  exists ms, c'. split; [reflexivity|]. split; [exact Ht|].
  exact (waiting_call_needs_an_insertion _ _ _ _ 0 pop_front _ [] [] RVoid
           eq_refl He eq_refl eq_refl Ht).
Defined.

(** [empty] woken spuriously, then [size] waiting for a [push_back]. *)
Lemma no_wait_returns_unprompted_witness :
  ∃ ms c',
    exec ([Run 0; Run 0; Spurious 0; Run 0; Run 0; Run 0]
            ++ [Run 0; Run 0; Run 1; Run 1; Run 1; Wake 1 0; Run 0])
         (start (T:=bool) [[empty; size]; [push_back (int_arg 1)]])
      = Some (c', ms) ∧
    resumes 0 (labels ms) = 2 ∧
    resumes 0 (labels ms) + pending 0 c'
      ≤ wakes 0 (labels ms)
        + pending 0 (start (T:=bool) [[empty; size]; [push_back (int_arg 1)]]).
Proof.
  destruct (exec _ _) as [[c' ms]|] eqn:He;
    [|vm_compute in He; discriminate He].
  assert (option_map (λ x, resumes 0 (labels x.2)) (Some (c', ms)) = Some 2)
    as Hr by (rewrite <- He; vm_compute; reflexivity).
  injection Hr as Hr.
  exists ms, c'. split; [reflexivity|]. split; [exact Hr|].
  exact (no_wait_returns_unprompted _ _ _ _ 0 He).
Defined.

(** [pop_front] suspended on a fresh instance. *)
Lemma waiters_stay_blocked_witness :
  ∃ ms c',
    exec [Run 0; Run 0] (start (T:=bool) [[pop_front]; [push_back (int_arg 1)]])
      = Some (c', ms) ∧
    waiters (state c') = {[0]} ∧
    parked c' ∧
    ∀ w d, w ∈ waiters (state c') → actor d = Some w → step d c' = None.
Proof.
  destruct (exec _ _) as [[c' ms]|] eqn:He;
    [|vm_compute in He; discriminate He].
  assert (option_map (λ x, waiters (state x.1)) (Some (c', ms))
          = Some ({[0]} : gset nat))
    as Hw by (rewrite <- He; vm_compute; reflexivity).
  injection Hw as Hw.
  exists ms, c'. split; [reflexivity|]. split; [exact Hw|].
  exact (waiters_stay_blocked _ _ _ _ (parked_start _) He).
Defined.

(** A thread about to call [pop_front] while another is inside
    [push_back], owning the mutex. *)
Lemma blocked_only_on_mutex_or_wait_witness :
  ∃ ms c',
    exec [Run 0] (start (T:=bool) [[push_back (int_arg 1)]; [pop_front]])
      = Some (c', ms) ∧
    threads c' !! 1 = Some (Thread [pop_front] Entry []) ∧
    mutex (state c') = Some 0 ∧
    (1 ∈ waiters (state c') ∨
     (∃ d, actor d = Some 1 ∧ is_Some (step d c')) ∨
     (∃ v, v ≠ 1 ∧ mutex (state c') = Some v ∧ is_Some (step (Run v) c'))).
Proof.
  destruct (exec _ _) as [[c' ms]|] eqn:He;
    [|vm_compute in He; discriminate He].
  assert (threads c' !! 1 = Some (Thread [pop_front] Entry [])) as Ht
    by (change (thread_after 1 (Some (c', ms))
                = Some (Thread [pop_front] Entry []));
        rewrite <- He; vm_compute; reflexivity).
  assert (option_map (λ x, mutex (state x.1)) (Some (c', ms)) = Some (Some 0))
    as Hm by (rewrite <- He; vm_compute; reflexivity).
  injection Hm as Hm.
  exists ms, c'. split; [reflexivity|]. split; [exact Ht|]. split; [exact Hm|].
  refine (blocked_only_on_mutex_or_wait _ _ _ _ 1 _
            (wf_start _) (coherent_start _) He Ht _).
  discriminate.
Defined.

(** [push_front] then [pop_front] on a fresh instance. *)
Lemma insert_then_pop_restores_witness :
  ∃ ms c',
    exec ([Run 0; Run 0; Run 0; notify_decision 0 None]
            ++ [Run 0; Run 0; Run 0])
         (start (T:=bool) [[push_front (int_arg 1); pop_front]])
      = Some (c', ms) ∧
    collection (state c')
      = collection (state (start (T:=bool)
                             [[push_front (int_arg 1); pop_front]])) ∧
    mutex (state c') = None ∧
    insertions (labels ms) = [true] ∧ removals (labels ms) = [true] ∧
    threads c' !! 0 = Some (Thread [] Entry ([] ++ [RVoid; RVoid])).
Proof.
  refine (insert_then_pop_restores
            (start (T:=bool) [[push_front (int_arg 1); pop_front]]) 0
            (push_front (int_arg 1)) (int_arg 1) true [] [] None
            (deque_insert (push_front (int_arg 1)) true fresh)
            eq_refl eq_refl eq_refl eq_refl _).
  apply cv_notify_one_Some. left. split; [reflexivity|]. split; reflexivity.
Defined.

(** [front] and [size] after a [push_back] of another thread. *)
Lemma queries_change_nothing_witness :
  ∃ ms c',
    exec (replicate 4 (Run 1) ++ replicate 6 (Run 0))
         (start (T:=bool) [[front; size]; [push_back (int_arg 1)]])
      = Some (c', ms) ∧
    threads c' !! 0 = Some (Thread [] Entry [RValue true; RUInt 1]) ∧
    Forall (λ a : shared bool * event bool * shared bool,
              collection a.2 = collection a.1.1 ∧
              waiters a.1.1 ⊆ waiters a.2 ∧
              ∀ woken, a.1.2 ≠ EvNotify woken)
           (history_of 0 ms).
Proof.
  destruct (exec _ _) as [[c' ms]|] eqn:He;
    [|vm_compute in He; discriminate He].
  assert (threads c' !! 0 = Some (Thread [] Entry [RValue true; RUInt 1]))
    as Ht
    by (change (thread_after 0 (Some (c', ms))
                = Some (Thread [] Entry [RValue true; RUInt 1]));
        rewrite <- He; vm_compute; reflexivity).
  exists ms, c'. split; [reflexivity|]. split; [exact Ht|].
  refine (queries_change_nothing _ _ _ _ 0 _ He eq_refl _).
  repeat constructor.
Defined.

(** Three calls of [push_back], the second with an argument whose
    conversion throws. *)
Lemma one_notification_per_insertion_witness :
  ∃ ms c',
    exec (replicate 11 (Run 0))
         (start (T:=bool) [[push_back (int_arg 1); push_back throwing_arg;
                            push_back (int_arg 0)]])
      = Some (c', ms) ∧
    threads c' !! 0 = Some (Thread [] Entry [RVoid; RThrow; RVoid]) ∧
    inserts (events_of 0 ms) + owes (T:=bool) Entry
      = notifies (events_of 0 ms) + owes (T:=bool) Entry.
Proof.
  destruct (exec _ _) as [[c' ms]|] eqn:He;
    [|vm_compute in He; discriminate He].
  assert (threads c' !! 0 = Some (Thread [] Entry [RVoid; RThrow; RVoid]))
    as Ht
    by (change (thread_after 0 (Some (c', ms))
                = Some (Thread [] Entry [RVoid; RThrow; RVoid]));
        rewrite <- He; vm_compute; reflexivity).
  exists ms, c'. split; [reflexivity|]. split; [exact Ht|].
  exact (one_notification_per_insertion _ _ _ _ 0 _ _ He eq_refl Ht).
Defined.

(** [empty] on a fresh instance, woken spuriously. *)
Lemma empty_returns_only_after_a_wake_witness :
  ∃ ms c',
    exec [Run 0; Run 0; Spurious 0; Run 0; Run 0; Run 0]
         (start (T:=bool) [[empty]])
      = Some (c', ms) ∧
    threads c' !! 0 = Some (Thread [] Entry [RBool true]) ∧
    1 ≤ wakes 0 (labels ms).
Proof.
  destruct (exec _ _) as [[c' ms]|] eqn:He;
    [|vm_compute in He; discriminate He].
  assert (threads c' !! 0 = Some (Thread [] Entry [RBool true])) as Ht
    by (change (thread_after 0 (Some (c', ms))
                = Some (Thread [] Entry [RBool true]));
        rewrite <- He; vm_compute; reflexivity).
  exists ms, c'. split; [reflexivity|]. split; [exact Ht|].
  exact (empty_returns_only_after_a_wake _ _ _ _ 0 [] [] _ He eq_refl Ht).
Defined.

(** [emplace_back] by thread 0 and [pop_back] by thread 1 on a fresh
    instance. *)
Lemma insertion_hands_over_to_waiting_pop_witness :
  ∃ ms c',
    exec ([Run 1; Run 1] ++ [Run 0; Run 0; Run 0; Wake 0 1]
            ++ [Run 1; Run 1; Run 1])
         (start (T:=bool) [[emplace_back (int_arg 0)]; [pop_back]])
      = Some (c', ms) ∧
    labels ms = [By 1 EvLock; By 1 EvWait;
                 By 0 EvLock; By 0 (EvInsert false); By 0 EvUnlock;
                 By 0 (EvNotify (Some 1));
                 By 1 EvResume; By 1 (EvRemove false); By 1 EvUnlock] ∧
    collection (state c') = [] ∧ mutex (state c') = None ∧
    (1 ∉ waiters (state c')) ∧
    threads c' !! 0 = Some (Thread [] Entry ([] ++ [RVoid])) ∧
    threads c' !! 1 = Some (Thread [] Entry ([] ++ [RVoid])).
Proof.
  refine (insertion_hands_over_to_waiting_pop
            (start (T:=bool) [[emplace_back (int_arg 0)]; [pop_back]]) 0 1
            (emplace_back (int_arg 0)) (int_arg 0) false pop_back [] [] [] []
            eq_refl eq_refl (or_intror eq_refl) _ eq_refl eq_refl eq_refl
            eq_refl _).
  - discriminate.
  - apply not_elem_of_empty.
Defined.

End TDequeConcurrent.
